(** * myers-diff: a shallow embedding of the diff engine and its properties

    The development follows the JavaScript source ([class Encoder],
    [class EncodeContext], [class Myers]).  JavaScript numbers are
    modelled by [Z] (every quantity below is an array index or a small
    sum of array lengths, so double arithmetic is exact on them; the
    length arguments of the search are the lengths of the two code
    sequences, far below 2^53), plain
    objects used as dictionaries by [gmap], sparse arrays by [gmap Z],
    and exceptions by the [result] type. *)

From stdpp Require Import gmap strings list fin_maps.
From Stdlib Require Import ZArith Lia Sorted.

Local Open Scope Z_scope.

(** ** JavaScript values that reach the engine *)

(** The [lhs] / [rhs] arguments of [Myers.diff]. *)
Inductive js_text :=
| JUndefined
| JNull
| JString (s : string).

(** What [diff_codes[line]] can evaluate to.  [diff_codes] is created as
    the object literal [{}], so a key that is not an own property is
    looked up on [Object.prototype]: for the property names listed in
    [object_prototype_keys] the read yields the inherited member, not
    [undefined]. *)
Inductive code :=
| CNum (n : Z)
| CInherited (name : string).

#[global] Instance code_eq_dec : EqDecision code.
Proof. solve_decision. Defined.

Definition object_prototype_keys : list string :=
  [ "constructor"; "__defineGetter__"; "__defineSetter__"; "hasOwnProperty";
    "__lookupGetter__"; "__lookupSetter__"; "isPrototypeOf";
    "propertyIsEnumerable"; "toString"; "valueOf"; "__proto__";
    "toLocaleString" ]%string.

(** Exceptions.  [SyntaxError] is what [new RegExp] throws for a
    pattern that is not a regular expression, [TypeError] what calling
    [replace] on [undefined] throws.  [UnsetSlot] and [OutOfFuel] are
    boundaries of the model, not JavaScript errors: the first marks a
    read of a diagonal-vector slot that was never written (JavaScript
    would go on with [undefined]), the second an exhausted recursion
    budget.  Neither occurs in a comparison (lemmas
    [getShortestMiddleSnake_spec], [getLongestCommonSubsequence_spec]
    and [diff_run] below). *)
Inductive error :=
| IllegalArgument (arg : string)
| UnexpectedState
| SyntaxError
| TypeError
| UnsetSlot
| OutOfFuel.

Inductive result (A : Type) :=
| Ok (a : A)
| Err (e : error).
Arguments Ok {A} a.
Arguments Err {A} e.

#[global] Instance result_bind : MBind result := fun A B f r =>
  match r with
  | Ok a => f a
  | Err e => Err e
  end.

(** [a === b] on array reads: a missing index reads [undefined], and
    [undefined === undefined] holds. *)
Definition js_eq (a b : option code) : bool := bool_decide (a = b).

(** [codes[x]] for the dense index-keyed object [_codes]. *)
Definition code_at (codes : list code) (x : Z) : option code :=
  if x <? 0 then None else codes !! Z.to_nat x.

(** Truthiness of a marker read [modified[i]]: unset and [false] are
    falsy. *)
Definition marked (modified : gmap Z bool) (i : Z) : bool :=
  match modified !! i with
  | Some b => b
  | None => false
  end.

(** ** class Encoder *)

Record Encoder := {
  enc_code : Z;
  diff_codes : gmap string Z
}.

Definition Encoder_new : Encoder := {| enc_code := 0; diff_codes := ∅ |}.

Definition getCode (e : Encoder) (line : string) : option code :=
  match diff_codes e !! line with
  | Some n => Some (CNum n)
  | None =>
      if bool_decide (line ∈ object_prototype_keys)
      then Some (CInherited line)
      else None
  end.

Definition getCodes (e : Encoder) : gmap string Z := diff_codes e.

Definition newCode (e : Encoder) (line : string) : Z * Encoder :=
  let c := enc_code e + 1 in
  (c, {| enc_code := c; diff_codes := <[line := c]> (diff_codes e) |}).

(** ** class EncodeContext *)

Record Settings := {
  compare : string;
  ignoreWhitespace : bool;
  splitLinesRegex : string;
  splitWordsRegex : string;
  splitCharsRegex : string
}.

(** The context keeps a reference to the encoder it was built with; the
    field holds the state of that shared object. *)
Record EncodeContext := {
  encoder : Encoder;
  _codes : list code;
  _modified : gmap Z bool
}.

Definition ctx_length (c : EncodeContext) : Z := Z.of_nat (length (_codes c)).

(** The loop of [_init]: one code per line, looked up or allocated. *)
Fixpoint init_loop (strip : string -> string) (ws : bool)
    (e : Encoder) (lines : list string) : list code * Encoder :=
  match lines with
  | [] => ([], e)
  | l :: rest =>
      let line := if ws then strip l else l in
      match getCode e line with
      | Some aCode =>
          let '(cs, e') := init_loop strip ws e rest in (aCode :: cs, e')
      | None =>
          let '(c, e1) := newCode e line in
          let '(cs, e') := init_loop strip ws e1 rest in (CNum c :: cs, e')
      end
  end.

Definition _init (strip : string -> string) (e : Encoder)
    (lines : list string) (settings : Settings) : EncodeContext :=
  let '(cs, e') := init_loop strip (ignoreWhitespace settings) e lines in
  {| encoder := e'; _codes := cs; _modified := ∅ |}.

(** [for (key in keyCodes) if (keyCodes[key] === ckey) return key]: the
    first own key holding the code.  No two keys hold the same code
    (field [wf_inj] of [encoder_wf] below), so the enumeration order is
    immaterial. *)
Definition key_of_code (m : gmap string Z) (c : code) : option string :=
  match c with
  | CNum n =>
      fst <$> List.find (fun kv => bool_decide (snd kv = n)) (map_to_list m)
  | CInherited _ => None
  end.

Definition getLine (c : EncodeContext) (n : Z) : option string :=
  match code_at (_codes c) n with
  | None => None
  | Some ckey => key_of_code (getCodes (encoder c)) ckey
  end.

Section Tokenizer.

(** The two regular-expression facilities the constructor relies on:
    [regex_split re text] is [text.split(new RegExp(re, "g"))] and
    [strip text] is [text.replace(/\s+/g, '')].  Here [regex_split]
    stands for a split that succeeds and yields strings; a pattern that
    does not compile and a split that yields [undefined] are the
    subject of [Myers_diff] below, which agrees with [diff] wherever
    neither arises (lemma [Myers_diff_diff]). *)
Variable regex_split : string -> string -> list string.
Variable strip : string -> string.

(** [text && text.length]: only a non-empty string is split. *)
Definition split_text (text : js_text) (settings : Settings) : list string :=
  match text with
  | JString s =>
      if bool_decide (s = EmptyString) then []
      else if bool_decide (compare settings = "chars"%string)
           then regex_split (splitCharsRegex settings) s
      else if bool_decide (compare settings = "words"%string)
           then regex_split (splitWordsRegex settings) s
      else regex_split (splitLinesRegex settings) s
  | _ => []
  end.

Definition EncodeContext_new (e : Encoder) (text : js_text)
    (settings : Settings) : EncodeContext :=
  _init strip e (split_text text settings) settings.

Definition encode := EncodeContext_new.

End Tokenizer.

(** ** class Myers *)

(** *** compare_lcs *)

(** The [item] handed to the callback; [diff]'s callback then stores the
    two contexts in it. *)
Record Change := {
  lhs_at : Z;
  lhs_del : Z;
  lhs_ctx : option EncodeContext;
  rhs_at : Z;
  rhs_add : Z;
  rhs_ctx : option EncodeContext
}.

(** [while (line < length && (other >= other_length || modified[line])) line++],
    with [stop] standing for [other >= other_length]. *)
Fixpoint skip_modified (n : nat) (modified : gmap Z bool) (len : Z)
    (stop : bool) (line : Z) : Z :=
  if (line <? len) && (stop || marked modified line) then
    match n with
    | O => line
    | S n' => skip_modified n' modified len stop (line + 1)
    end
  else line.

Section CompareLcs.

Context {St : Type}.
Variables (lhs_modified : gmap Z bool) (lhs_codes_length : Z).
Variables (rhs_modified : gmap Z bool) (rhs_codes_length : Z).
Variable callback : Change -> St -> St.

Definition make_item (lhs_start lhs_line rhs_start rhs_line : Z) : Change :=
  {| lhs_at := Z.min lhs_start
                 (if bool_decide (lhs_codes_length = 0) then 0
                  else lhs_codes_length - 1);
     lhs_del := lhs_line - lhs_start;
     lhs_ctx := None;
     rhs_at := Z.min rhs_start
                 (if bool_decide (rhs_codes_length = 0) then 0
                  else rhs_codes_length - 1);
     rhs_add := rhs_line - rhs_start;
     rhs_ctx := None |}.

(** The outer [while]; [acc] is the state the callback works on. *)
Fixpoint compare_loop (n : nat) (lhs_line rhs_line : Z) (acc : St) : result St :=
  if (lhs_line <? lhs_codes_length) || (rhs_line <? rhs_codes_length) then
    match n with
    | O => Err OutOfFuel
    | S n' =>
        if (lhs_line <? lhs_codes_length) && negb (marked lhs_modified lhs_line)
           && (rhs_line <? rhs_codes_length) && negb (marked rhs_modified rhs_line)
        then compare_loop n' (lhs_line + 1) (rhs_line + 1) acc
        else
          let lhs_start := lhs_line in
          let rhs_start := rhs_line in
          let lhs_line :=
            skip_modified (Z.to_nat (lhs_codes_length - lhs_line)) lhs_modified
              lhs_codes_length (bool_decide (rhs_codes_length <= rhs_line)) lhs_line in
          let rhs_line :=
            skip_modified (Z.to_nat (rhs_codes_length - rhs_line)) rhs_modified
              rhs_codes_length (bool_decide (lhs_codes_length <= lhs_line)) rhs_line in
          if (lhs_start <? lhs_line) || (rhs_start <? rhs_line)
          then compare_loop n' lhs_line rhs_line
                 (callback (make_item lhs_start lhs_line rhs_start rhs_line) acc)
          else compare_loop n' lhs_line rhs_line acc
    end
  else Ok acc.

(** Every turn of the outer loop advances a position, so the two lengths
    bound the number of turns. *)
Definition compare_lcs (acc : St) : result St :=
  compare_loop (Z.to_nat lhs_codes_length + Z.to_nat rhs_codes_length) 0 0 acc.

End CompareLcs.

(** *** getShortestMiddleSnake *)

(** The returned [{x, y}]. *)
Record Snake := {
  sms_x : Z;
  sms_y : Z
}.

(** A read of a diagonal vector, a sparse array. *)
Definition vget (v : gmap Z Z) (i : Z) : result Z :=
  match v !! i with
  | Some x => Ok x
  | None => Err UnsetSlot
  end.

Section ShortestMiddleSnake.

Variables (lhs_codes : list code) (lhs_codes_length lhs_lower lhs_upper : Z).
Variables (rhs_codes : list code) (rhs_codes_length rhs_lower rhs_upper : Z).

(** [max] is a sum of numbers, so the guard [max === undefined] never
    fires and is left out.  The slot indexes [offset + k] are computed
    exactly as long as the two lengths are those of code sequences
    (below 2^53), which is how [LCS] calls the search. *)
Definition sms_max : Z := lhs_codes_length + rhs_codes_length + 1.
Definition kdown : Z := lhs_lower - rhs_lower.
Definition kup : Z := lhs_upper - rhs_upper.
Definition delta : Z := (lhs_upper - lhs_lower) - (rhs_upper - rhs_lower).
Definition odd : bool := negb (Z.land delta 1 =? 0).
Definition offset_down : Z := sms_max - kdown.
Definition offset_up : Z := sms_max - kup.

(** [d <= maxd] with [maxd = (lhs_upper - lhs_lower + rhs_upper - rhs_lower) / 2 + 1]
    computed in floating point: for an integer [d] the comparison holds
    exactly when twice [d] is at most the sum plus two. *)
Definition within_maxd (d : Z) : bool :=
  2 * d <=? (lhs_upper - lhs_lower + rhs_upper - rhs_lower) + 2.

(** [while ((x < lhs_upper) && (y < rhs_upper) && (lhs_codes[x] === rhs_codes[y])) { x++; y++; }] *)
Fixpoint snake_down (n : nat) (x y : Z) : Z * Z :=
  if (x <? lhs_upper) && (y <? rhs_upper)
     && js_eq (code_at lhs_codes x) (code_at rhs_codes y)
  then
    match n with
    | O => (x, y)
    | S n' => snake_down n' (x + 1) (y + 1)
    end
  else (x, y).

(** [while ((x > lhs_lower) && (y > rhs_lower) && (lhs_codes[x - 1] === rhs_codes[y - 1])) { x--; y--; }] *)
Fixpoint snake_up (n : nat) (x y : Z) : Z * Z :=
  if (lhs_lower <? x) && (rhs_lower <? y)
     && js_eq (code_at lhs_codes (x - 1)) (code_at rhs_codes (y - 1))
  then
    match n with
    | O => (x, y)
    | S n' => snake_up n' (x - 1) (y - 1)
    end
  else (x, y).

(** Start of the forward D-path on diagonal [k]: down from [k + 1] or
    right from [k - 1]. *)
Definition forward_start (d k : Z) (vector_d : gmap Z Z) : result Z :=
  if k =? kdown - d then vget vector_d (offset_down + k + 1)
  else
    x0 ← vget vector_d (offset_down + k - 1);
    let x := x0 + 1 in
    if k <? kdown + d then
      x1 ← vget vector_d (offset_down + k + 1);
      if x1 >=? x then Ok x1 else Ok x
    else Ok x.

(** Start of the reverse D-path on diagonal [k]: up from [k - 1] or left
    from [k + 1]. *)
Definition reverse_start (d k : Z) (vector_u : gmap Z Z) : result Z :=
  if k =? kup + d then vget vector_u (offset_up + k - 1)
  else
    x0 ← vget vector_u (offset_up + k + 1);
    let x := x0 - 1 in
    if kup - d <? k then
      x1 ← vget vector_u (offset_up + k - 1);
      if x1 <? x then Ok x1 else Ok x
    else Ok x.

(** [for (k = kdown - d; k <= kdown + d; k += 2)]; the result is the
    midpoint, if the paths overlap, and the updated [vector_d]. *)
Fixpoint forward_loop (n : nat) (d k : Z) (vector_u vector_d : gmap Z Z)
  : result (option Snake * gmap Z Z) :=
  if k <=? kdown + d then
    match n with
    | O => Err OutOfFuel
    | S n' =>
        x ← forward_start d k vector_d;
        let '(x, y) := snake_down (Z.to_nat (lhs_upper - x)) x (x - k) in
        let vector_d := <[offset_down + k := x]> vector_d in
        if odd && (kup - d <? k) && (k <? kup + d) then
          u ← vget vector_u (offset_up + k);
          v ← vget vector_d (offset_down + k);
          if u <=? v
          then Ok (Some {| sms_x := v; sms_y := v - k |}, vector_d)
          else forward_loop n' d (k + 2) vector_u vector_d
        else forward_loop n' d (k + 2) vector_u vector_d
    end
  else Ok (None, vector_d).

(** [for (k = kup - d; k <= kup + d; k += 2)]; the result is the
    midpoint, if the paths overlap, and the updated [vector_u]. *)
Fixpoint reverse_loop (n : nat) (d k : Z) (vector_u vector_d : gmap Z Z)
  : result (option Snake * gmap Z Z) :=
  if k <=? kup + d then
    match n with
    | O => Err OutOfFuel
    | S n' =>
        x ← reverse_start d k vector_u;
        let '(x, y) := snake_up (Z.to_nat (x - lhs_lower)) x (x - k) in
        let vector_u := <[offset_up + k := x]> vector_u in
        if negb odd && (kdown - d <=? k) && (k <=? kdown + d) then
          u ← vget vector_u (offset_up + k);
          v ← vget vector_d (offset_down + k);
          if u <=? v
          then Ok (Some {| sms_x := v; sms_y := v - k |}, vector_u)
          else reverse_loop n' d (k + 2) vector_u vector_d
        else reverse_loop n' d (k + 2) vector_u vector_d
    end
  else Ok (None, vector_u).

(** [for (d = 0; d <= maxd; ++d)], followed by the final [throw]. *)
Fixpoint search_loop (n : nat) (d : Z) (vector_u vector_d : gmap Z Z)
  : result (Snake * gmap Z Z * gmap Z Z) :=
  if within_maxd d then
    match n with
    | O => Err OutOfFuel
    | S n' =>
        '(r, vector_d) ← forward_loop (Z.to_nat (d + 1)) d (kdown - d) vector_u vector_d;
        match r with
        | Some ret => Ok (ret, vector_u, vector_d)
        | None =>
            '(r, vector_u) ← reverse_loop (Z.to_nat (d + 1)) d (kup - d) vector_u vector_d;
            match r with
            | Some ret => Ok (ret, vector_u, vector_d)
            | None => search_loop n' (d + 1) vector_u vector_d
            end
        end
    end
  else Err UnexpectedState.

Definition getShortestMiddleSnake (vector_u vector_d : gmap Z Z)
  : result (Snake * gmap Z Z * gmap Z Z) :=
  let vector_d := <[offset_down + kdown + 1 := lhs_lower]> vector_d in
  let vector_u := <[offset_up + kup - 1 := lhs_upper]> vector_u in
  search_loop
    (Z.to_nat ((lhs_upper - lhs_lower + rhs_upper - rhs_lower) / 2 + 2))
    0 vector_u vector_d.

End ShortestMiddleSnake.

(** *** getLongestCommonSubsequence *)

(** The four objects the recursion mutates. *)
Record Work := {
  lhs_modified : gmap Z bool;
  rhs_modified : gmap Z bool;
  vector_u : gmap Z Z;
  vector_d : gmap Z Z
}.

(** [while (lower < upper) { modified[lower++] = true; }] *)
Fixpoint mark_range (n : nat) (modified : gmap Z bool) (lower upper : Z)
  : gmap Z bool :=
  if lower <? upper then
    match n with
    | O => modified
    | S n' => mark_range n' (<[lower := true]> modified) (lower + 1) upper
    end
  else modified.

Section LongestCommonSubsequence.

Variables (lhs_codes : list code) (lhs_codes_length : Z).
Variables (rhs_codes : list code) (rhs_codes_length : Z).

(** Trim off the matching items at the beginning. *)
Fixpoint trim_head (n : nat) (lhs_lower lhs_upper rhs_lower rhs_upper : Z)
  : Z * Z :=
  if (lhs_lower <? lhs_upper) && (rhs_lower <? rhs_upper)
     && js_eq (code_at lhs_codes lhs_lower) (code_at rhs_codes rhs_lower)
  then
    match n with
    | O => (lhs_lower, rhs_lower)
    | S n' => trim_head n' (lhs_lower + 1) lhs_upper (rhs_lower + 1) rhs_upper
    end
  else (lhs_lower, rhs_lower).

(** Trim off the matching items at the end. *)
Fixpoint trim_tail (n : nat) (lhs_lower lhs_upper rhs_lower rhs_upper : Z)
  : Z * Z :=
  if (lhs_lower <? lhs_upper) && (rhs_lower <? rhs_upper)
     && js_eq (code_at lhs_codes (lhs_upper - 1)) (code_at rhs_codes (rhs_upper - 1))
  then
    match n with
    | O => (lhs_upper, rhs_upper)
    | S n' => trim_tail n' lhs_lower (lhs_upper - 1) rhs_lower (rhs_upper - 1)
    end
  else (lhs_upper, rhs_upper).

(** The recursion is bounded by [fuel]; [LCS] below supplies enough. *)
Fixpoint getLongestCommonSubsequence (fuel : nat)
    (lhs_lower lhs_upper rhs_lower rhs_upper : Z) (w : Work) : result Work :=
  match fuel with
  | O => Err OutOfFuel
  | S fuel' =>
      let '(lhs_lower, rhs_lower) :=
        trim_head (Z.to_nat (lhs_upper - lhs_lower))
          lhs_lower lhs_upper rhs_lower rhs_upper in
      let '(lhs_upper, rhs_upper) :=
        trim_tail (Z.to_nat (lhs_upper - lhs_lower))
          lhs_lower lhs_upper rhs_lower rhs_upper in
      if bool_decide (lhs_lower = lhs_upper) then
        Ok {| lhs_modified := lhs_modified w;
              rhs_modified :=
                mark_range (Z.to_nat (rhs_upper - rhs_lower))
                  (rhs_modified w) rhs_lower rhs_upper;
              vector_u := vector_u w;
              vector_d := vector_d w |}
      else if bool_decide (rhs_lower = rhs_upper) then
        Ok {| lhs_modified :=
                mark_range (Z.to_nat (lhs_upper - lhs_lower))
                  (lhs_modified w) lhs_lower lhs_upper;
              rhs_modified := rhs_modified w;
              vector_u := vector_u w;
              vector_d := vector_d w |}
      else
        '(sms, vu, vd) ←
          getShortestMiddleSnake
            lhs_codes lhs_codes_length lhs_lower lhs_upper
            rhs_codes rhs_codes_length rhs_lower rhs_upper
            (vector_u w) (vector_d w);
        w1 ← getLongestCommonSubsequence fuel'
               lhs_lower (sms_x sms) rhs_lower (sms_y sms)
               {| lhs_modified := lhs_modified w;
                  rhs_modified := rhs_modified w;
                  vector_u := vu;
                  vector_d := vd |};
        getLongestCommonSubsequence fuel'
          (sms_x sms) lhs_upper (sms_y sms) rhs_upper w1
  end.

End LongestCommonSubsequence.

(** *** LCS *)

(** Each level of the recursion works on a strictly smaller rectangle
    (lemma [midpoint_progress] below), so the two lengths bound its depth. *)
Definition LCS (lhsModified : gmap Z bool) (lhsCodes : list code) (lhsLength : Z)
    (rhsModified : gmap Z bool) (rhsCodes : list code) (rhsLength : Z)
  : result (gmap Z bool * gmap Z bool) :=
  w ← getLongestCommonSubsequence lhsCodes lhsLength rhsCodes rhsLength
        (S (Z.to_nat lhsLength + Z.to_nat rhsLength))
        0 lhsLength 0 rhsLength
        {| lhs_modified := lhsModified; rhs_modified := rhsModified;
           vector_u := ∅; vector_d := ∅ |};
  Ok (lhs_modified w, rhs_modified w).

(** *** optimize *)

(** [i < len] where [len] may be [undefined]: a comparison with
    [undefined] is false. *)
Definition lt_length (i : Z) (len : option Z) : bool :=
  match len with
  | Some n => i <? n
  | None => false
  end.

Definition length_fuel (len : option Z) (i : Z) : nat :=
  match len with
  | Some n => Z.to_nat (n - i)
  | None => O
  end.

(** [while ((start < len) && (modified[start] === undefined || modified[start] === false)) start++] *)
Fixpoint skip_unmodified_run (n : nat) (len : option Z) (modified : gmap Z bool)
    (start : Z) : Z :=
  if lt_length start len && negb (bool_decide (modified !! start = Some true)) then
    match n with
    | O => start
    | S n' => skip_unmodified_run n' len modified (start + 1)
    end
  else start.

(** [while ((end < len) && (modified[end] === true)) end++] *)
Fixpoint skip_modified_run (n : nat) (len : option Z) (modified : gmap Z bool)
    (end_ : Z) : Z :=
  if lt_length end_ len && bool_decide (modified !! end_ = Some true) then
    match n with
    | O => end_
    | S n' => skip_modified_run n' len modified (end_ + 1)
    end
  else end_.

(** The outer [while (start < len)] of [optimize], for a given value
    [len] of the expression [ctx._codes.length]. *)
Fixpoint optimize_loop (n : nat) (len : option Z) (codes : list code)
    (modified : gmap Z bool) (start : Z) : result (gmap Z bool) :=
  if lt_length start len then
    match n with
    | O => Err OutOfFuel
    | S n' =>
        let start := skip_unmodified_run (length_fuel len start) len modified start in
        let end_ := skip_modified_run (length_fuel len start) len modified start in
        if lt_length end_ len && js_eq (code_at codes start) (code_at codes end_)
        then optimize_loop n' len codes
               (<[end_ := true]> (<[start := false]> modified)) start
        else optimize_loop n' len codes modified end_
    end
  else Ok modified.

Definition optimize_with (len : option Z) (ctx : EncodeContext)
  : result EncodeContext :=
  let n := length (_codes ctx) in
  m ← optimize_loop (S n * S n) len (_codes ctx) (_modified ctx) 0;
  Ok {| encoder := encoder ctx; _codes := _codes ctx; _modified := m |}.

(** [ctx._codes.length].  [_codes] is created as the object literal [{}]
    and only ever receives the index keys [0 .. n-1]; it is not an
    [Array] and neither it nor [Object.prototype] has a [length]
    property, so the expression evaluates to [undefined].  (The number
    of lines is what the getter [ctx.length], our [ctx_length], computes
    from [Object.keys].) *)
Definition codes_length_property (ctx : EncodeContext) : option Z := None.

Definition optimize (ctx : EncodeContext) : result EncodeContext :=
  optimize_with (codes_length_property ctx) ctx.

(** *** diff *)

Record Options := {
  opt_compare : option string;
  opt_ignoreWhitespace : option bool;
  opt_splitLinesRegex : option string;
  opt_splitWordsRegex : option string;
  opt_splitCharsRegex : option string
}.

(** The options object [{}]. *)
Definition no_options : Options :=
  {| opt_compare := None; opt_ignoreWhitespace := None;
     opt_splitLinesRegex := None; opt_splitWordsRegex := None;
     opt_splitCharsRegex := None |}.

Definition LF : string := String (Ascii.ascii_of_nat 10) EmptyString.

Definition _getDefaultSettings : Settings :=
  {| compare := "lines";
     ignoreWhitespace := false;
     splitLinesRegex := LF;
     splitWordsRegex := "[ ]{1}";
     splitCharsRegex := EmptyString |}.

(** [Object.assign(settings, options)] *)
Definition assign (settings : Settings) (options : Options) : Settings :=
  {| compare := default (compare settings) (opt_compare options);
     ignoreWhitespace :=
       default (ignoreWhitespace settings) (opt_ignoreWhitespace options);
     splitLinesRegex :=
       default (splitLinesRegex settings) (opt_splitLinesRegex options);
     splitWordsRegex :=
       default (splitWordsRegex settings) (opt_splitWordsRegex options);
     splitCharsRegex :=
       default (splitCharsRegex settings) (opt_splitCharsRegex options) |}.

Definition CompareLCS {St : Type} := @compare_lcs St.

Definition with_modified (ctx : EncodeContext) (m : gmap Z bool) : EncodeContext :=
  {| encoder := encoder ctx; _codes := _codes ctx; _modified := m |}.

(** [item.lhs.ctx = lhsCtx; item.rhs.ctx = rhsCtx] *)
Definition add_context (lhsCtx rhsCtx : EncodeContext) (item : Change) : Change :=
  {| lhs_at := lhs_at item; lhs_del := lhs_del item; lhs_ctx := Some lhsCtx;
     rhs_at := rhs_at item; rhs_add := rhs_add item; rhs_ctx := Some rhsCtx |}.

(** The callback of [diff]: add the contexts, create [items] on first
    use, push. *)
Definition push_item (lhsCtx rhsCtx : EncodeContext) (item : Change)
    (items : option (list Change)) : option (list Change) :=
  Some (default [] items ++ [add_context lhsCtx rhsCtx item]).

Section Diff.

Variable regex_split : string -> string -> list string.
Variable strip : string -> string.

Definition diff (lhs rhs : js_text) (options : Options) : result (list Change) :=
  let settings := _getDefaultSettings in
  let encoder0 := Encoder_new in
  match lhs, rhs with
  | JUndefined, _ => Err (IllegalArgument "lhs")
  | _, JUndefined => Err (IllegalArgument "rhs")
  | _, _ =>
      let settings := assign settings options in
      let lhsCtx := encode regex_split strip encoder0 lhs settings in
      let rhsCtx := encode regex_split strip (encoder lhsCtx) rhs settings in
      (* one Encoder object is shared: lhsCtx.encoder sees rhs's codes too *)
      let lhsCtx :=
        {| encoder := encoder rhsCtx; _codes := _codes lhsCtx;
           _modified := _modified lhsCtx |} in
      '(lm, rm) ← LCS (_modified lhsCtx) (_codes lhsCtx) (ctx_length lhsCtx)
                      (_modified rhsCtx) (_codes rhsCtx) (ctx_length rhsCtx);
      let lhsCtx := with_modified lhsCtx lm in
      let rhsCtx := with_modified rhsCtx rm in
      lhsCtx ← optimize lhsCtx;
      rhsCtx ← optimize rhsCtx;
      items ← CompareLCS
                (_modified lhsCtx) (ctx_length lhsCtx)
                (_modified rhsCtx) (ctx_length rhsCtx)
                (push_item lhsCtx rhsCtx) None;
      match items with
      | None => Ok []
      | Some l => Ok l
      end
  end.

End Diff.

(** ** The exceptions of the regular-expression facility *)

(** The array [text.split(re)] returns holds [undefined] where a
    capturing group of the pattern took no part in a match. *)
Definition undefined_key : string := "undefined".

(** An array element used as a property key: [diff_codes[undefined]]
    is [diff_codes["undefined"]]. *)
Definition property_key (line : option string) : string :=
  default undefined_key line.

Section RegExp.

(** [RegExp_split re text] is [text.split(new RegExp(re, "g"))] with
    what can go wrong: [new RegExp] throws a [SyntaxError] for a
    pattern that is not a regular expression. *)
Variable RegExp_split : string -> string -> result (list (option string)).
Variable strip : string -> string.

(** The first half of the constructor: [lines], as [split_text] but
    with the outcome of [new RegExp]. *)
Definition constructor_lines (text : js_text) (settings : Settings)
  : result (list (option string)) :=
  match text with
  | JString s =>
      if bool_decide (s = EmptyString) then Ok []
      else if bool_decide (compare settings = "chars"%string)
           then RegExp_split (splitCharsRegex settings) s
      else if bool_decide (compare settings = "words"%string)
           then RegExp_split (splitWordsRegex settings) s
      else RegExp_split (splitLinesRegex settings) s
  | _ => Ok []
  end.

(** The loop of [_init] on such an array: with [ignoreWhitespace],
    [line.replace] throws a [TypeError] on an [undefined] line; without
    it the line is used as a property key as it is. *)
Fixpoint init_lines (ws : bool) (e : Encoder) (lines : list (option string))
  : result (list code * Encoder) :=
  match lines with
  | [] => Ok ([], e)
  | l :: rest =>
      line ← (match l with
              | Some s => Ok (if ws then strip s else s)
              | None => if ws then Err TypeError else Ok (property_key l)
              end);
      match getCode e line with
      | Some aCode =>
          '(cs, e') ← init_lines ws e rest; Ok (aCode :: cs, e')
      | None =>
          let '(c, e1) := newCode e line in
          '(cs, e') ← init_lines ws e1 rest; Ok (CNum c :: cs, e')
      end
  end.

Definition EncodeContext_constructor (e : Encoder) (text : js_text)
    (settings : Settings) : result EncodeContext :=
  lines ← constructor_lines text settings;
  '(cs, e') ← init_lines (ignoreWhitespace settings) e lines;
  Ok {| encoder := e'; _codes := cs; _modified := ∅ |}.

(** [Myers.diff] with the exceptions of the two constructor calls. *)
Definition Myers_diff (lhs rhs : js_text) (options : Options)
  : result (list Change) :=
  let settings := _getDefaultSettings in
  let encoder0 := Encoder_new in
  match lhs, rhs with
  | JUndefined, _ => Err (IllegalArgument "lhs")
  | _, JUndefined => Err (IllegalArgument "rhs")
  | _, _ =>
      let settings := assign settings options in
      lhsCtx ← EncodeContext_constructor encoder0 lhs settings;
      rhsCtx ← EncodeContext_constructor (encoder lhsCtx) rhs settings;
      let lhsCtx :=
        {| encoder := encoder rhsCtx; _codes := _codes lhsCtx;
           _modified := _modified lhsCtx |} in
      '(lm, rm) ← LCS (_modified lhsCtx) (_codes lhsCtx) (ctx_length lhsCtx)
                      (_modified rhsCtx) (_codes rhsCtx) (ctx_length rhsCtx);
      let lhsCtx := with_modified lhsCtx lm in
      let rhsCtx := with_modified rhsCtx rm in
      lhsCtx ← optimize lhsCtx;
      rhsCtx ← optimize rhsCtx;
      items ← CompareLCS
                (_modified lhsCtx) (ctx_length lhsCtx)
                (_modified rhsCtx) (ctx_length rhsCtx)
                (push_item lhsCtx rhsCtx) None;
      match items with
      | None => Ok []
      | Some l => Ok l
      end
  end.

(** The split of [RegExp_split] where it succeeds, its [undefined]
    elements read as property keys. *)
Definition strings_split (re text : string) : list string :=
  match RegExp_split re text with
  | Ok lines => property_key <$> lines
  | Err _ => []
  end.

End RegExp.

(** ** A concrete tokenizer for the runs below

    Regular expressions are not interpreted in general.  The concrete
    runs use the three default patterns only, and for those
    [example_split] computes what [String.prototype.split] does: cut at
    every line feed, cut at every single space, one token per
    character.  [example_strip] removes the ASCII white space
    characters, which is what [/\s+/g] removes from an ASCII text. *)

Fixpoint split_char (c : Ascii.ascii) (s : string) : list string :=
  match s with
  | EmptyString => [EmptyString]
  | String a rest =>
      if Ascii.eqb a c then EmptyString :: split_char c rest
      else
        match split_char c rest with
        | [] => [String a EmptyString]
        | w :: ws => String a w :: ws
        end
  end.

Fixpoint split_chars (s : string) : list string :=
  match s with
  | EmptyString => []
  | String a rest => String a EmptyString :: split_chars rest
  end.

Definition example_split (re text : string) : list string :=
  if bool_decide (re = LF) then split_char (Ascii.ascii_of_nat 10) text
  else if bool_decide (re = "[ ]{1}"%string) then split_char (Ascii.ascii_of_nat 32) text
  else if bool_decide (re = EmptyString) then split_chars text
  else [text].

Definition is_space (a : Ascii.ascii) : bool :=
  let n := Ascii.nat_of_ascii a in
  ((9 <=? n)%nat && (n <=? 13)%nat) || (n =? 32)%nat.

Fixpoint example_strip (s : string) : string :=
  match s with
  | EmptyString => EmptyString
  | String a rest =>
      if is_space a then example_strip rest else String a (example_strip rest)
  end.

Definition example_diff := diff example_split example_strip.

(** [new RegExp("(", "g")] throws (an unterminated group); the three
    default patterns compile and the splits they give hold strings
    only. *)
Definition example_RegExp_split (re text : string)
  : result (list (option string)) :=
  if bool_decide (re = "("%string) then Err SyntaxError
  else Ok (Some <$> example_split re text).

(** [text_of_lines [l1; ...; ln]] is the text [l1 \n ... \n ln]. *)
Definition text_of_lines (ls : list string) : js_text :=
  JString (String.concat LF ls).

(** The positions and counts of a change list, without the contexts. *)
Definition spans (cs : list Change) : list (Z * Z * Z * Z) :=
  (fun c => (lhs_at c, lhs_del c, rhs_at c, rhs_add c)) <$> cs.

Definition rspans (r : result (list Change)) : result (list (Z * Z * Z * Z)) :=
  match r with
  | Ok cs => Ok (spans cs)
  | Err e => Err e
  end.

(** * The edit graph *)

Section EditGraph.

(** [mt x y] says that the diagonal edge from [(x, y)] to
    [(x + 1, y + 1)] exists. *)
Variable mt : Z -> Z -> bool.

(** [path d x y x' y']: a path from [(x, y)] to [(x', y')] with exactly
    [d] horizontal or vertical edges. *)
Inductive path : Z -> Z -> Z -> Z -> Z -> Prop :=
| path_refl x y : path 0 x y x y
| path_right d x y x' y' :
    path d x y x' y' -> path (d + 1) x y (x' + 1) y'
| path_down d x y x' y' :
    path d x y x' y' -> path (d + 1) x y x' (y' + 1)
| path_diag d x y x' y' :
    path d x y x' y' -> mt x' y' = true -> path d x y (x' + 1) (y' + 1).

Lemma path_eq d d' x y x' y' x2 y2 :
  path d x y x' y' -> d = d' -> x' = x2 -> y' = y2 -> path d' x y x2 y2.
Proof. intros; subst; done. Qed.

Lemma path_bounds d x y x' y' :
  path d x y x' y' ->
  0 <= d /\ x <= x' /\ y <= y' /\
  (exists j, 0 <= j /\ (x' - x) + (y' - y) = d + 2 * j) /\
  - d <= (x' - y') - (x - y) <= d.
Proof.
  induction 1 as [x y|d x y x' y' _ IH|d x y x' y' _ IH|d x y x' y' _ IH Hm].
  - repeat split; try lia. exists 0; lia.
  - destruct IH as (? & ? & ? & (j & ? & ?) & ?).
    repeat split; try lia. exists j; lia.
  - destruct IH as (? & ? & ? & (j & ? & ?) & ?).
    repeat split; try lia. exists j; lia.
  - destruct IH as (? & ? & ? & (j & ? & ?) & ?).
    repeat split; try lia. exists (j + 1); lia.
Qed.

Lemma path_trans d1 d2 x y x1 y1 x2 y2 :
  path d1 x y x1 y1 -> path d2 x1 y1 x2 y2 -> path (d1 + d2) x y x2 y2.
Proof.
  intros H1 H2; revert H1.
  induction H2 as [x1 y1|d x1 y1 x' y' _ IH|d x1 y1 x' y' _ IH|d x1 y1 x' y' _ IH Hm];
    intros H1.
  - eapply path_eq; eauto; lia.
  - eapply path_eq; [apply path_right, IH, H1| lia..].
  - eapply path_eq; [apply path_down, IH, H1| lia..].
  - apply path_diag; auto.
Qed.

Lemma path_cons_right d x y x' y' :
  path d (x + 1) y x' y' -> path (d + 1) x y x' y'.
Proof.
  intros H.
  eapply path_eq;
    [eapply path_trans; [apply (path_right 0), path_refl|exact H]|lia..].
Qed.

Lemma path_cons_down d x y x' y' :
  path d x (y + 1) x' y' -> path (d + 1) x y x' y'.
Proof.
  intros H.
  eapply path_eq;
    [eapply path_trans; [apply (path_down 0), path_refl|exact H]|lia..].
Qed.

Lemma path_cons_diag d x y x' y' :
  mt x y = true -> path d (x + 1) (y + 1) x' y' -> path d x y x' y'.
Proof.
  intros Hm H.
  eapply path_eq;
    [eapply path_trans; [apply (path_diag 0); [apply path_refl|done]|exact H]
    |lia..].
Qed.

Lemma path_rights (n : nat) x y : path (Z.of_nat n) x y (x + Z.of_nat n) y.
Proof.
  induction n as [|n IH].
  - eapply path_eq; [apply path_refl|lia..].
  - eapply path_eq; [apply path_right, IH|lia..].
Qed.

Lemma path_downs (n : nat) x y : path (Z.of_nat n) x y x (y + Z.of_nat n).
Proof.
  induction n as [|n IH].
  - eapply path_eq; [apply path_refl|lia..].
  - eapply path_eq; [apply path_down, IH|lia..].
Qed.

(** The path without diagonal edges. *)
Lemma path_straight x y x' y' :
  x <= x' -> y <= y' -> path ((x' - x) + (y' - y)) x y x' y'.
Proof.
  intros Hx Hy.
  eapply path_eq;
    [eapply path_trans;
       [apply (path_rights (Z.to_nat (x' - x)))
       |apply (path_downs (Z.to_nat (y' - y)))]
    |lia..].
Qed.

(** A path can be cut after any number of its edits. *)
Lemma path_split d1 d2 x y x' y' :
  0 <= d1 -> 0 <= d2 -> path (d1 + d2) x y x' y' ->
  exists a b, path d1 x y a b /\ path d2 a b x' y'.
Proof.
  intros H1 H2 H. remember (d1 + d2) as d eqn:E.
  revert d1 d2 H1 H2 E.
  induction H as [x y|d x y x' y' H IH|d x y x' y' H IH|d x y x' y' H IH Hm];
    intros d1 d2 H1 H2 E.
  - assert (d1 = 0) by lia. assert (d2 = 0) by lia. subst.
    exists x, y; split; apply path_refl.
  - destruct (decide (d2 = 0)) as [->|Hne].
    + exists (x' + 1), y'. split; [|apply path_refl].
      eapply path_eq; [apply path_right, H|lia..].
    + destruct (IH d1 (d2 - 1)) as (a & b & Ha & Hb); [lia..|].
      exists a, b; split; [done|].
      eapply path_eq; [apply path_right, Hb|lia..].
  - destruct (decide (d2 = 0)) as [->|Hne].
    + exists x', (y' + 1). split; [|apply path_refl].
      eapply path_eq; [apply path_down, H|lia..].
    + destruct (IH d1 (d2 - 1)) as (a & b & Ha & Hb); [lia..|].
      exists a, b; split; [done|].
      eapply path_eq; [apply path_down, Hb|lia..].
  - destruct (IH d1 d2) as (a & b & Ha & Hb); [lia..|].
    exists a, b; split; [done|]. by apply path_diag.
Qed.

(** The last edit of a path and the snake after it. *)
Lemma path_last d x y x' y' :
  path d x y x' y' ->
  exists j, 0 <= j /\
    (forall i, 0 <= i < j -> mt (x' - j + i) (y' - j + i) = true) /\
    ((d = 0 /\ x' - j = x /\ y' - j = y) \/
     (0 < d /\ (path (d - 1) x y (x' - j - 1) (y' - j) \/
                path (d - 1) x y (x' - j) (y' - j - 1)))).
Proof.
  induction 1 as [x y|d x y x' y' H IH|d x y x' y' H IH|d x y x' y' H IH Hm].
  - exists 0. split; [lia|]. split; [intros; lia|]. left; lia.
  - exists 0. split; [lia|]. split; [intros; lia|]. right.
    pose proof (path_bounds _ _ _ _ _ H). split; [lia|]. left.
    eapply path_eq; [exact H|lia..].
  - exists 0. split; [lia|]. split; [intros; lia|]. right.
    pose proof (path_bounds _ _ _ _ _ H). split; [lia|]. right.
    eapply path_eq; [exact H|lia..].
  - destruct IH as (j & Hj & Hsn & Hd). exists (j + 1).
    split; [lia|]. split.
    + intros i Hi. destruct (decide (i = j)) as [->|Hne].
      * replace (x' + 1 - (j + 1) + j) with x' by lia.
        replace (y' + 1 - (j + 1) + j) with y' by lia. done.
      * replace (x' + 1 - (j + 1) + i) with (x' - j + i) by lia.
        replace (y' + 1 - (j + 1) + i) with (y' - j + i) by lia.
        apply Hsn; lia.
    + replace (x' + 1 - (j + 1)) with (x' - j) by lia.
      replace (y' + 1 - (j + 1)) with (y' - j) by lia. done.
Qed.

(** Stepping back along a diagonal never costs edits. *)
Lemma path_diag_back d x y x' y' :
  path d x y x' y' -> x <= x' - 1 -> y <= y' - 1 ->
  exists d', d' <= d /\ path d' x y (x' - 1) (y' - 1).
Proof.
  induction 1 as [x y|d x y x' y' H IH|d x y x' y' H IH|d x y x' y' H IH Hm];
    intros Hx Hy.
  - lia.
  - destruct (decide (x <= x' - 1)) as [Hle|Hgt].
    + destruct (IH Hle Hy) as (d' & Hd' & Hp).
      exists (d' + 1); split; [lia|].
      eapply path_eq; [apply path_right, Hp|lia..].
    + pose proof (path_bounds _ _ _ _ _ H) as (? & ? & ? & _ & ?).
      assert (x' = x) by lia. subst x'.
      exists (y' - 1 - y). split; [lia|].
      eapply path_eq; [apply (path_straight x y x (y' - 1)); lia|lia..].
  - destruct (decide (y <= y' - 1)) as [Hle|Hgt].
    + destruct (IH Hx Hle) as (d' & Hd' & Hp).
      exists (d' + 1); split; [lia|].
      eapply path_eq; [apply path_down, Hp|lia..].
    + pose proof (path_bounds _ _ _ _ _ H) as (? & ? & ? & _ & ?).
      assert (y' = y) by lia. subst y'.
      exists (x' - 1 - x). split; [lia|].
      eapply path_eq; [apply (path_straight x y (x' - 1) y); lia|lia..].
  - exists d. split; [lia|].
    eapply path_eq; [exact H|lia..].
Qed.

Lemma path_diag_back_n (n : nat) d x y x' y' :
  path d x y x' y' -> x <= x' - Z.of_nat n -> y <= y' - Z.of_nat n ->
  exists d', d' <= d /\ path d' x y (x' - Z.of_nat n) (y' - Z.of_nat n).
Proof.
  induction n as [|n IH]; intros H Hx Hy.
  - exists d; split; [lia|]. eapply path_eq; [exact H|lia..].
  - destruct IH as (d1 & Hd1 & H1); [done|lia..|].
    destruct (path_diag_back _ _ _ _ _ H1) as (d2 & Hd2 & H2); [lia..|].
    exists d2; split; [lia|]. eapply path_eq; [exact H2|lia..].
Qed.

End EditGraph.

Arguments path_refl {mt}.

Lemma path_ext mt mt' d x y x' y' :
  (forall a b, mt a b = mt' a b) -> path mt d x y x' y' -> path mt' d x y x' y'.
Proof.
  intros E. induction 1; [apply path_refl|by apply path_right|by apply path_down|].
  apply path_diag; [done|]. by rewrite <- E.
Qed.

(** The graph read from the far corner: a point reflection. *)
Definition mirror (mt : Z -> Z -> bool) (x y : Z) : bool := mt (- x - 1) (- y - 1).

Lemma mirror_mirror mt x y : mirror (mirror mt) x y = mt x y.
Proof. unfold mirror. f_equal; lia. Qed.

Lemma path_start_eq mt d x y x' y' x0 y0 :
  path mt d x y x' y' -> x = x0 -> y = y0 -> path mt d x0 y0 x' y'.
Proof. by intros ? -> ->. Qed.

Lemma path_mirror mt d x y x' y' :
  path mt d x y x' y' -> path (mirror mt) d (- x') (- y') (- x) (- y).
Proof.
  induction 1 as [x y|d x y x' y' _ IH|d x y x' y' _ IH|d x y x' y' _ IH Hm].
  - apply path_refl.
  - apply path_cons_right. eapply path_start_eq; [exact IH|lia..].
  - apply path_cons_down. eapply path_start_eq; [exact IH|lia..].
  - apply path_cons_diag.
    + unfold mirror. rewrite <- Hm. f_equal; lia.
    + eapply path_start_eq; [exact IH|lia..].
Qed.

Lemma path_unmirror mt d x y x' y' :
  path (mirror mt) d (- x') (- y') (- x) (- y) -> path mt d x y x' y'.
Proof.
  intros H. apply path_mirror in H.
  apply (path_ext _ mt) in H; [|apply mirror_mirror].
  eapply path_eq; [eapply path_start_eq; [exact H|lia..]|lia..].
Qed.

(** The first edit of a path and the snake before it. *)
Lemma path_first mt d x y x' y' :
  path mt d x y x' y' ->
  exists j, 0 <= j /\
    (forall i, 0 <= i < j -> mt (x + i) (y + i) = true) /\
    ((d = 0 /\ x + j = x' /\ y + j = y') \/
     (0 < d /\ (path mt (d - 1) (x + j + 1) (y + j) x' y' \/
                path mt (d - 1) (x + j) (y + j + 1) x' y'))).
Proof.
  intros H. apply path_mirror, path_last in H.
  destruct H as (j & Hj & Hsn & Hd). exists j. split; [done|]. split.
  - intros i Hi. specialize (Hsn (j - 1 - i)). unfold mirror in Hsn.
    rewrite <- Hsn by lia. f_equal; lia.
  - destruct Hd as [(-> & ? & ?)|(Hpos & [Hp|Hp])].
    + left; lia.
    + right. split; [done|]. left. apply path_unmirror.
      eapply path_eq; [exact Hp|lia..].
    + right. split; [done|]. right. apply path_unmirror.
      eapply path_eq; [exact Hp|lia..].
Qed.

(** Stepping forward along a diagonal never costs edits on the way to
    the far corner. *)
Lemma path_diag_fwd_n mt (n : nat) d x y x' y' :
  path mt d x y x' y' -> x + Z.of_nat n <= x' -> y + Z.of_nat n <= y' ->
  exists d', d' <= d /\ path mt d' (x + Z.of_nat n) (y + Z.of_nat n) x' y'.
Proof.
  intros H Hx Hy. apply path_mirror in H.
  destruct (path_diag_back_n _ n _ _ _ _ _ H) as (d' & Hd' & Hp); [lia..|].
  exists d'. split; [done|]. apply path_unmirror.
  eapply path_eq; [exact Hp|lia..].
Qed.

(** * Paths in a rectangle *)

Section Rectangle.

Variable mt : Z -> Z -> bool.
Variables lx ly ux uy : Z.
Hypothesis rect_x : lx <= ux.
Hypothesis rect_y : ly <= uy.
Hypothesis mt_inside : forall x y, mt x y = true -> x < ux /\ y < uy.

(** A path that leaves the rectangle pays for every step outside. *)
Lemma path_outside T d x y :
  (forall e, path mt e lx ly ux uy -> T <= e) ->
  path mt d lx ly x y -> T + (x - ux) + (y - uy) <= d.
Proof.
  intros Hopt H.
  enough (Hgen : forall a b, path mt d a b x y -> a = lx -> b = ly ->
                   T + (x - ux) + (y - uy) <= d) by eauto.
  clear H. intros a b H.
  induction H as [x y|d x y x' y' H IH|d x y x' y' H IH|d x y x' y' H IH Hm];
    intros -> ->.
  - specialize (Hopt _ (path_straight mt lx ly ux uy rect_x rect_y)). lia.
  - specialize (IH eq_refl eq_refl). lia.
  - specialize (IH eq_refl eq_refl). lia.
  - destruct (mt_inside _ _ Hm) as [Hx Hy].
    assert (Hp : path mt (d + ((ux - (x' + 1)) + (uy - (y' + 1)))) lx ly ux uy).
    { eapply path_trans; [apply path_diag; [exact H|exact Hm]|].
      apply path_straight; lia. }
    specialize (Hopt _ Hp). lia.
Qed.

(** Where the two searches overlap on a diagonal, the forward end point
    lies in the rectangle, on a shortest path. *)
Lemma crossing_sound d1 d2 x y u v :
  path mt d1 lx ly x y -> path mt d2 u v ux uy ->
  x - y = u - v -> u <= x ->
  (forall e, path mt e lx ly ux uy -> d1 + d2 <= e) ->
  x <= ux /\ y <= uy /\ path mt d2 x y ux uy.
Proof.
  intros H1 H2 Hk Hux Hopt.
  pose proof (path_outside _ _ _ _ Hopt H1) as Hout.
  pose proof (path_bounds _ _ _ _ _ _ H2) as (? & ? & ? & _ & ?).
  assert (Hx : x <= ux) by lia. assert (Hy : y <= uy) by lia.
  split; [done|]. split; [done|].
  destruct (path_diag_fwd_n mt (Z.to_nat (x - u)) _ _ _ _ _ H2)
    as (d' & Hd' & Hp); [lia..|].
  assert (Hp' : path mt d' x y ux uy).
  { eapply path_start_eq; [exact Hp|lia..]. }
  pose proof (Hopt _ (path_trans _ _ _ _ _ _ _ _ _ H1 Hp')).
  eapply path_eq; [exact Hp'|lia..].
Qed.

End Rectangle.

Section SmsProof.

Variables (A : list code) (lenA ll lu : Z).
Variables (B : list code) (lenB rl ru : Z).

(** The diagonal edges of the rectangle [[ll, lu) x [rl, ru)]. *)
Definition mt_rect (x y : Z) : bool :=
  (ll <=? x) && (x <? lu) && (rl <=? y) && (y <? ru)
  && js_eq (code_at A x) (code_at B y).

Local Notation "'kd'" := (kdown ll rl).
Local Notation "'ku'" := (kup lu ru).
Local Notation "'od'" := (offset_down lenA ll lenB rl).
Local Notation "'ou'" := (offset_up lenA lu lenB ru).
Local Notation "'isodd'" := (odd ll lu rl ru).
Local Notation "'P'" := (path mt_rect).

Lemma mt_rect_inside x y : mt_rect x y = true -> x < lu /\ y < ru.
Proof. unfold mt_rect. intros H. repeat (apply andb_prop in H as [H ?]). lia. Qed.

Lemma mt_rect_down x y :
  ll <= x -> rl <= y ->
  mt_rect x y = (x <? lu) && (y <? ru) && js_eq (code_at A x) (code_at B y).
Proof.
  intros Hx Hy. unfold mt_rect.
  destruct (Z.leb_spec ll x), (Z.leb_spec rl y); try lia.
  by destruct (x <? lu), (y <? ru).
Qed.

Lemma mt_rect_up x y :
  x <= lu -> y <= ru ->
  mt_rect (x - 1) (y - 1)
  = (ll <? x) && (rl <? y) && js_eq (code_at A (x - 1)) (code_at B (y - 1)).
Proof.
  intros Hx Hy. unfold mt_rect.
  destruct (Z.ltb_spec (x - 1) lu), (Z.ltb_spec (y - 1) ru); try lia.
  destruct (Z.leb_spec ll (x - 1)), (Z.ltb_spec ll x); try lia;
    destruct (Z.leb_spec rl (y - 1)), (Z.ltb_spec rl y); try lia; simpl; done.
Qed.

Lemma snake_down_spec (n : nat) x y :
  lu - x <= Z.of_nat n -> ll <= x -> rl <= y ->
  exists j, 0 <= j /\
    snake_down A lu B ru n x y = (x + j, y + j) /\
    (forall i, 0 <= i < j -> mt_rect (x + i) (y + i) = true) /\
    mt_rect (x + j) (y + j) = false.
Proof.
  revert x y. induction n as [|n IH]; intros x y Hn Hx Hy; simpl;
    rewrite <- (mt_rect_down x y) by done;
    destruct (mt_rect x y) eqn:E.
  - apply mt_rect_inside in E. lia.
  - exists 0. rewrite !Z.add_0_r. repeat split; try done; lia.
  - destruct (IH (x + 1) (y + 1)) as (j & Hj & Hs & Ht & Hf); [lia..|].
    exists (j + 1). split; [lia|]. split.
    { rewrite Hs. f_equal; lia. }
    split.
    + intros i Hi. destruct (decide (i = 0)) as [->|Hne].
      * by rewrite !Z.add_0_r.
      * specialize (Ht (i - 1)).
        replace (x + 1 + (i - 1)) with (x + i) in Ht by lia.
        replace (y + 1 + (i - 1)) with (y + i) in Ht by lia. apply Ht; lia.
    + rewrite <- Hf. f_equal; lia.
  - exists 0. rewrite !Z.add_0_r. repeat split; try done; lia.
Qed.

Lemma snake_up_spec (n : nat) x y :
  x - ll <= Z.of_nat n -> x <= lu -> y <= ru ->
  exists j, 0 <= j /\
    snake_up A ll B rl n x y = (x - j, y - j) /\
    (forall i, 0 <= i < j -> mt_rect (x - j + i) (y - j + i) = true) /\
    mt_rect (x - j - 1) (y - j - 1) = false.
Proof.
  revert x y. induction n as [|n IH]; intros x y Hn Hx Hy; simpl;
    rewrite <- (mt_rect_up x y) by done;
    destruct (mt_rect (x - 1) (y - 1)) eqn:E.
  - unfold mt_rect in E. repeat (apply andb_prop in E as [E ?]). lia.
  - exists 0. rewrite !Z.sub_0_r. repeat split; try done; lia.
  - destruct (IH (x - 1) (y - 1)) as (j & Hj & Hs & Ht & Hf); [lia..|].
    exists (j + 1). split; [lia|]. split.
    { rewrite Hs. f_equal; lia. }
    split.
    + intros i Hi. destruct (decide (i = j)) as [->|Hne].
      * replace (x - (j + 1) + j) with (x - 1) by lia.
        replace (y - (j + 1) + j) with (y - 1) by lia. done.
      * specialize (Ht i).
        replace (x - 1 - j + i) with (x - (j + 1) + i) in Ht by lia.
        replace (y - 1 - j + i) with (y - (j + 1) + i) in Ht by lia.
        apply Ht; lia.
    + rewrite <- Hf. f_equal; lia.
  - exists 0. rewrite !Z.sub_0_r. repeat split; try done; lia.
Qed.


(** ** Furthest reaching paths *)

Definition fr_spec (d k v : Z) : Prop :=
  P d ll rl v (v - k) /\ forall x, P d ll rl x (x - k) -> x <= v.

Definition bk_spec (d k u : Z) : Prop :=
  P d u (u - k) lu ru /\ forall x, P d x (x - k) lu ru -> u <= x.

(** After the forward pass for [d], [vector_d] holds the furthest
    reaching forward [d]-paths of the diagonals [kd - d, kd - d + 2, ..]. *)
Definition FInv (d : Z) (vd : gmap Z Z) : Prop :=
  forall i, 0 <= i <= d ->
    exists v, vd !! (od + (kd - d + 2 * i)) = Some v
              /\ fr_spec d (kd - d + 2 * i) v.

Definition BInv (d : Z) (vu : gmap Z Z) : Prop :=
  forall i, 0 <= i <= d ->
    exists u, vu !! (ou + (ku - d + 2 * i)) = Some u
              /\ bk_spec d (ku - d + 2 * i) u.

Definition FPre (d : Z) (vd : gmap Z Z) : Prop :=
  (d = 0 /\ vd !! (od + kd + 1) = Some ll) \/ (0 < d /\ FInv (d - 1) vd).

Definition BPre (d : Z) (vu : gmap Z Z) : Prop :=
  (d = 0 /\ vu !! (ou + ku - 1) = Some lu) \/ (0 < d /\ BInv (d - 1) vu).

Lemma odd_true : isodd = true -> exists m, ku - kd = 2 * m + 1.
Proof.
  unfold odd, delta, kup, kdown. intros H.
  apply negb_true_iff, Z.eqb_neq in H.
  change 1 with (Z.ones 1) in H. rewrite Z.land_ones in H by lia.
  exists ((lu - ll - (ru - rl)) / 2).
  pose proof (Z.div_mod (lu - ll - (ru - rl)) 2 ltac:(lia)).
  pose proof (Z.mod_pos_bound (lu - ll - (ru - rl)) 2 ltac:(lia)).
  change (2 ^ 1) with 2 in H. lia.
Qed.

Lemma odd_false : isodd = false -> exists m, ku - kd = 2 * m.
Proof.
  unfold odd, delta, kup, kdown. intros H.
  apply negb_false_iff, Z.eqb_eq in H.
  change 1 with (Z.ones 1) in H. rewrite Z.land_ones in H by lia.
  exists ((lu - ll - (ru - rl)) / 2).
  pose proof (Z.div_mod (lu - ll - (ru - rl)) 2 ltac:(lia)).
  change (2 ^ 1) with 2 in H. lia.
Qed.

Lemma kd_rl : ll - kd = rl.
Proof. unfold kdown. lia. Qed.

Lemma ku_ru : lu - ku = ru.
Proof. unfold kup. lia. Qed.

Lemma forward_start_spec d i vd :
  0 <= i <= d -> FPre d vd ->
  exists x0,
    forward_start lenA ll lenB rl d (kd - d + 2 * i) vd = Ok x0 /\
    P d ll rl x0 (x0 - (kd - d + 2 * i)) /\
    (d = 0 -> x0 = ll) /\
    (forall x, P (d - 1) ll rl (x - 1) (x - (kd - d + 2 * i)) -> x <= x0) /\
    (forall x, P (d - 1) ll rl x (x - (kd - d + 2 * i) - 1) -> x <= x0).
Proof.
  intros Hi Hpre. unfold forward_start, vget.
  destruct (Z.eqb_spec (kd - d + 2 * i) (kd - d)) as [E|E].
  - assert (i = 0) by lia. subst i.
    destruct Hpre as [(-> & Hl)|(Hd & Hinv)].
    + exists ll. replace (od + (kd - 0 + 2 * 0) + 1) with (od + kd + 1) by lia.
      rewrite Hl. split; [done|]. split.
      { eapply path_eq; [apply path_refl|pose proof kd_rl; lia..]. }
      split; [done|].
      split; intros x Hx; apply path_bounds in Hx; lia.
    + destruct (Hinv 0) as (v & Hv & Hp & Hmax); [lia|].
      exists v.
      replace (od + (kd - d + 2 * 0) + 1) with (od + (kd - (d - 1) + 2 * 0)) by lia.
      rewrite Hv. split; [done|]. split.
      { eapply path_eq; [apply path_down, Hp|lia..]. }
      split; [lia|]. split.
      * intros x Hx. apply path_bounds in Hx. pose proof kd_rl. lia.
      * intros x Hx. apply Hmax. eapply path_eq; [exact Hx|lia..].
  - assert (1 <= i) by lia.
    destruct Hpre as [(-> & Hl)|(Hd & Hinv)]; [lia|].
    destruct (Hinv (i - 1)) as (v0 & Hv0 & Hp0 & Hmax0); [lia|].
    replace (od + (kd - d + 2 * i) - 1)
      with (od + (kd - (d - 1) + 2 * (i - 1))) by lia.
    rewrite Hv0. simpl.
    assert (Hright : P d ll rl (v0 + 1) (v0 + 1 - (kd - d + 2 * i))).
    { eapply path_eq; [apply path_right, Hp0|lia..]. }
    assert (Hmaxr : forall x, P (d - 1) ll rl (x - 1) (x - (kd - d + 2 * i)) ->
                              x <= v0 + 1).
    { intros x Hx. enough (x - 1 <= v0) by lia. apply Hmax0.
      eapply path_eq; [exact Hx|lia..]. }
    destruct (Z.ltb_spec (kd - d + 2 * i) (kd + d)) as [Hlt|Hge].
    + destruct (Hinv i) as (v1 & Hv1 & Hp1 & Hmax1); [lia|].
      replace (od + (kd - d + 2 * i) + 1)
        with (od + (kd - (d - 1) + 2 * i)) by lia.
      rewrite Hv1. simpl.
      assert (Hdown : P d ll rl v1 (v1 - (kd - d + 2 * i))).
      { eapply path_eq; [apply path_down, Hp1|lia..]. }
      assert (Hmaxd : forall x, P (d - 1) ll rl x (x - (kd - d + 2 * i) - 1) ->
                                x <= v1).
      { intros x Hx. apply Hmax1. eapply path_eq; [exact Hx|lia..]. }
      destruct (Z.geb_spec v1 (v0 + 1)).
      * exists v1. repeat split; try done; try lia.
        intros x Hx. specialize (Hmaxr x Hx). lia.
      * exists (v0 + 1). repeat split; try done; try lia.
        intros x Hx. specialize (Hmaxd x Hx). lia.
    + exists (v0 + 1). repeat split; try done; try lia.
      intros x Hx. apply path_bounds in Hx. pose proof kd_rl. lia.
Qed.

(** The end of the snake from the start point is the furthest reaching
    point of the diagonal. *)
Lemma forward_point d i vd :
  0 <= i <= d -> FPre d vd ->
  exists x0 v,
    forward_start lenA ll lenB rl d (kd - d + 2 * i) vd = Ok x0 /\
    snake_down A lu B ru (Z.to_nat (lu - x0)) x0 (x0 - (kd - d + 2 * i))
      = (v, v - (kd - d + 2 * i)) /\
    fr_spec d (kd - d + 2 * i) v.
Proof.
  intros Hi Hpre.
  destruct (forward_start_spec d i vd Hi Hpre)
    as (x0 & Hs & Hp & H0 & Hmr & Hmd).
  set (k := kd - d + 2 * i) in *.
  pose proof (path_bounds _ _ _ _ _ _ Hp) as (_ & Hx0 & Hy0 & _).
  destruct (snake_down_spec (Z.to_nat (lu - x0)) x0 (x0 - k))
    as (j & Hj & Hsn & Ht & Hf); [lia..|].
  exists x0, (x0 + j). split; [done|]. split.
  { rewrite Hsn. f_equal; lia. }
  split.
  - clear Hf Hsn. 
    assert (forall n : nat, Z.of_nat n <= j ->
              P d ll rl (x0 + Z.of_nat n) (x0 + Z.of_nat n - k)) as Hsnake.
    { induction n as [|n IH]; intros Hn.
      - eapply path_eq; [exact Hp|lia..].
      - eapply path_eq; [apply path_diag; [apply IH; lia|]|lia..].
        replace (x0 + Z.of_nat n - k) with (x0 - k + Z.of_nat n) by lia.
        apply Ht; lia. }
    eapply path_eq; [apply (Hsnake (Z.to_nat j)); lia|lia..].
  - intros x Hx. destruct (Z.le_gt_cases x (x0 + j)) as [|Hgt]; [done|exfalso].
    destruct (path_last _ _ _ _ _ _ Hx) as (j' & Hj' & Ht' & Hlast).
    assert (Hstart : x - j' <= x0).
    { destruct Hlast as [(Hd0 & Hxs & _)|(Hd & [Hl|Hl])].
      - specialize (H0 Hd0). lia.
      - apply Hmr. eapply path_eq; [exact Hl|lia..].
      - apply Hmd. eapply path_eq; [exact Hl|lia..]. }
    specialize (Ht' (x0 + j - (x - j'))).
    replace (x - j' + (x0 + j - (x - j'))) with (x0 + j) in Ht' by lia.
    replace (x - k - j' + (x0 + j - (x - j'))) with (x0 - k + j) in Ht' by lia.
    rewrite Hf in Ht'. discriminate Ht'. lia.
Qed.


Lemma FPre_insert d i v vd :
  0 <= i <= d -> FPre d vd -> FPre d (<[od + (kd - d + 2 * i) := v]> vd).
Proof.
  intros Hi [(-> & Hl)|(Hd & Hinv)].
  - left. split; [done|]. rewrite lookup_insert_ne by lia. done.
  - right. split; [done|]. intros i' Hi'.
    destruct (Hinv i' Hi') as (v' & Hv' & Hs). exists v'. split; [|done].
    rewrite lookup_insert_ne by lia. done.
Qed.

(** What the forward pass for [d] establishes: either a midpoint, with
    the overlap that justifies it, or the new vector together with the
    fact that no checked diagonal overlaps. *)
Definition FPost (d : Z) (vu : gmap Z Z) (r : option Snake * gmap Z Z) : Prop :=
  match r.1 with
  | None =>
      FInv d r.2 /\
      (isodd = true ->
       forall i u v, 0 <= i <= d ->
         ku - d < kd - d + 2 * i < ku + d ->
         vu !! (ou + (kd - d + 2 * i)) = Some u ->
         r.2 !! (od + (kd - d + 2 * i)) = Some v -> v < u)
  | Some ret =>
      isodd = true /\
      exists k u v,
        0 < d /\ bk_spec (d - 1) k u /\
        fr_spec d k v /\ u <= v /\ ret = {| sms_x := v; sms_y := v - k |}
  end.

Lemma forward_loop_spec (n : nat) d i vu vd :
  0 <= i <= d + 1 -> d + 1 - i <= Z.of_nat n ->
  FPre d vd ->
  (isodd = true -> 0 < d -> BInv (d - 1) vu) ->
  (forall i', 0 <= i' < i ->
     exists v, vd !! (od + (kd - d + 2 * i')) = Some v /\
               fr_spec d (kd - d + 2 * i') v /\
               (isodd = true -> ku - d < kd - d + 2 * i' < ku + d ->
                forall u, vu !! (ou + (kd - d + 2 * i')) = Some u -> v < u)) ->
  exists r,
    forward_loop A lenA ll lu B lenB rl ru n d (kd - d + 2 * i) vu vd = Ok r /\
    FPost d vu r.
Proof.
  revert i vd. induction n as [|n IH]; intros i vd Hi Hn Hpre Hbk Hdone.
  - assert (i = d + 1) by lia. subst i. simpl.
    destruct (Z.leb_spec (kd - d + 2 * (d + 1)) (kd + d)); [lia|].
    exists (None, vd). split; [done|]. unfold FPost; simpl. split.
    + intros i Hi'. destruct (Hdone i) as (v & Hv & Hs & _); [lia|]. eauto.
    + intros Hodd i u v Hi' Hk Hu Hv.
      destruct (Hdone i) as (v' & Hv' & _ & Hno); [lia|].
      rewrite Hv in Hv'. injection Hv' as <-. eauto.
  - simpl. destruct (Z.leb_spec (kd - d + 2 * i) (kd + d)) as [Hle|Hgt].
    + assert (Hi' : 0 <= i <= d) by lia.
      destruct (forward_point d i vd Hi' Hpre) as (x0 & v & Hst & Hsn & Hspec).
      rewrite Hst. simpl. rewrite Hsn.
      set (k := kd - d + 2 * i) in *.
      set (vd1 := <[od + k := v]> vd).
      assert (Hpre1 : FPre d vd1) by (by apply FPre_insert).
      assert (Hk1 : kd - d + 2 * (i + 1) = k + 2) by lia.
      assert (Hnext : (isodd = true -> ku - d < k < ku + d ->
                       forall u, vu !! (ou + k) = Some u -> v < u) ->
                exists r, forward_loop A lenA ll lu B lenB rl ru n d (k + 2) vu vd1
                          = Ok r /\ FPost d vu r).
      { intros Hno. rewrite <- Hk1. apply IH; [lia|lia|done|done|].
        intros i' Hi2. destruct (decide (i' = i)) as [->|Hne].
        - exists v. unfold vd1. fold k. rewrite lookup_insert_eq. done.
        - destruct (Hdone i') as (v' & Hv' & Hs'); [lia|].
          exists v'. split; [|done]. unfold vd1, k.
          rewrite lookup_insert_ne by lia. done. }
      destruct (isodd && (ku - d <? k) && (k <? ku + d)) eqn:Echk.
      * apply andb_prop in Echk as [Echk Hk2].
        apply andb_prop in Echk as [Hodd Hk3].
        apply Z.ltb_lt in Hk2, Hk3.
        destruct (odd_true Hodd) as (m & Hm).
        assert (Hd : 0 < d) by lia.
        destruct (Hbk Hodd Hd (i - m - 1)) as (u & Hu & Hus); [lia|].
        replace (ku - (d - 1) + 2 * (i - m - 1)) with k in Hu, Hus by lia.
        assert (Hvd1 : vd1 !! (od + k) = Some v) by apply lookup_insert_eq.
        unfold vget. rewrite Hu. simpl. rewrite Hvd1. simpl.
        destruct (Z.leb_spec u v) as [Huv|Huv].
        -- exists (Some {| sms_x := v; sms_y := v - k |}, vd1).
           split; [done|]. unfold FPost; simpl. split; [done|].
           exists k, u, v.
           split; [lia|]. split; [exact Hus|]. split; [exact Hspec|].
           split; [lia|reflexivity].
        -- apply Hnext. intros _ _ u' Hu'. rewrite Hu in Hu'.
           injection Hu' as <-. done.
      * apply Hnext. intros Hodd Hk. exfalso.
        rewrite Hodd in Echk. simpl in Echk.
        destruct (Z.ltb_spec (ku - d) k), (Z.ltb_spec k (ku + d));
          first [lia|discriminate].
    + assert (i = d + 1) by lia. subst i.
      exists (None, vd). split; [done|]. unfold FPost; simpl. split.
      * intros i Hi'. destruct (Hdone i) as (v & Hv & Hs & _); [lia|]. eauto.
      * intros Hodd i u v Hi' Hk Hu Hv.
        destruct (Hdone i) as (v' & Hv' & _ & Hno); [lia|].
        rewrite Hv in Hv'. injection Hv' as <-. eauto.
Qed.


Lemma reverse_start_spec d i vu :
  0 <= i <= d -> BPre d vu ->
  exists x0,
    reverse_start lenA lu lenB ru d (ku - d + 2 * i) vu = Ok x0 /\
    P d x0 (x0 - (ku - d + 2 * i)) lu ru /\
    (d = 0 -> x0 = lu) /\
    (forall x, P (d - 1) (x + 1) (x - (ku - d + 2 * i)) lu ru -> x0 <= x) /\
    (forall x, P (d - 1) x (x - (ku - d + 2 * i) + 1) lu ru -> x0 <= x).
Proof.
  intros Hi Hpre. unfold reverse_start, vget.
  destruct (Z.eqb_spec (ku - d + 2 * i) (ku + d)) as [E|E].
  - assert (i = d) by lia. subst i.
    destruct Hpre as [(-> & Hl)|(Hd & Hinv)].
    + exists lu. replace (ou + (ku - 0 + 2 * 0) - 1) with (ou + ku - 1) by lia.
      rewrite Hl. split; [done|]. split.
      { pose proof ku_ru.
        eapply path_start_eq; [apply (path_refl lu ru)|lia..]. }
      split; [done|].
      split; intros x Hx; apply path_bounds in Hx; lia.
    + destruct (Hinv (d - 1)) as (u & Hu & Hp & Hmin); [lia|].
      exists u.
      replace (ou + (ku - d + 2 * d) - 1)
        with (ou + (ku - (d - 1) + 2 * (d - 1))) by lia.
      rewrite Hu. split; [done|]. split.
      { eapply path_eq;
          [apply path_cons_down; eapply path_start_eq; [exact Hp|lia..]|lia..]. }
      split; [lia|]. split.
      * intros x Hx. apply path_bounds in Hx. pose proof ku_ru. lia.
      * intros x Hx. apply Hmin. eapply path_start_eq; [exact Hx|lia..].
  - assert (i <= d - 1) by lia.
    destruct Hpre as [(-> & Hl)|(Hd & Hinv)]; [lia|].
    destruct (Hinv i) as (u1 & Hu1 & Hp1 & Hmin1); [lia|].
    replace (ou + (ku - d + 2 * i) + 1)
      with (ou + (ku - (d - 1) + 2 * i)) by lia.
    rewrite Hu1. simpl.
    assert (Hleft : P d (u1 - 1) (u1 - 1 - (ku - d + 2 * i)) lu ru).
    { eapply path_eq;
        [apply path_cons_right; eapply path_start_eq; [exact Hp1|lia..]|lia..]. }
    assert (Hminl : forall x, P (d - 1) (x + 1) (x - (ku - d + 2 * i)) lu ru ->
                              u1 - 1 <= x).
    { intros x Hx. enough (u1 <= x + 1) by lia. apply Hmin1.
      eapply path_start_eq; [exact Hx|lia..]. }
    destruct (Z.ltb_spec (ku - d) (ku - d + 2 * i)) as [Hlt|Hge].
    + destruct (Hinv (i - 1)) as (u0 & Hu0 & Hp0 & Hmin0); [lia|].
      replace (ou + (ku - d + 2 * i) - 1)
        with (ou + (ku - (d - 1) + 2 * (i - 1))) by lia.
      rewrite Hu0. simpl.
      assert (Hup : P d u0 (u0 - (ku - d + 2 * i)) lu ru).
      { eapply path_eq;
          [apply path_cons_down; eapply path_start_eq; [exact Hp0|lia..]|lia..]. }
      assert (Hminu : forall x, P (d - 1) x (x - (ku - d + 2 * i) + 1) lu ru ->
                                u0 <= x).
      { intros x Hx. apply Hmin0. eapply path_start_eq; [exact Hx|lia..]. }
      destruct (Z.ltb_spec u0 (u1 - 1)).
      * exists u0. repeat split; try done; try lia.
        intros x Hx. specialize (Hminl x Hx). lia.
      * exists (u1 - 1). repeat split; try done; try lia.
        intros x Hx. specialize (Hminu x Hx). lia.
    + exists (u1 - 1). repeat split; try done; try lia.
      intros x Hx. apply path_bounds in Hx. pose proof ku_ru. lia.
Qed.

Lemma reverse_point d i vu :
  0 <= i <= d -> BPre d vu ->
  exists x0 u,
    reverse_start lenA lu lenB ru d (ku - d + 2 * i) vu = Ok x0 /\
    snake_up A ll B rl (Z.to_nat (x0 - ll)) x0 (x0 - (ku - d + 2 * i))
      = (u, u - (ku - d + 2 * i)) /\
    bk_spec d (ku - d + 2 * i) u.
Proof.
  intros Hi Hpre.
  destruct (reverse_start_spec d i vu Hi Hpre)
    as (x0 & Hs & Hp & H0 & Hml & Hmu).
  set (k := ku - d + 2 * i) in *.
  pose proof (path_bounds _ _ _ _ _ _ Hp) as (_ & Hx0 & Hy0 & _).
  destruct (snake_up_spec (Z.to_nat (x0 - ll)) x0 (x0 - k))
    as (j & Hj & Hsn & Ht & Hf); [lia..|].
  exists x0, (x0 - j). split; [done|]. split.
  { rewrite Hsn. f_equal; lia. }
  split.
  - clear Hf Hsn.
    assert (forall n : nat, Z.of_nat n <= j ->
              P d (x0 - Z.of_nat n) (x0 - Z.of_nat n - k) lu ru) as Hsnake.
    { induction n as [|n IH]; intros Hn.
      - eapply path_start_eq; [exact Hp|lia..].
      - apply path_cons_diag.
        + specialize (Ht (j - Z.of_nat (S n))).
          rewrite <- Ht by lia. f_equal; lia.
        + eapply path_start_eq; [apply IH; lia|lia..]. }
    eapply path_start_eq; [apply (Hsnake (Z.to_nat j)); lia|lia..].
  - intros x Hx. destruct (Z.le_gt_cases (x0 - j) x) as [|Hgt]; [done|exfalso].
    destruct (path_first _ _ _ _ _ _ Hx) as (j' & Hj' & Ht' & Hfirst).
    assert (Hstart : x0 <= x + j').
    { destruct Hfirst as [(Hd0 & Hxs & _)|(Hd & [Hl|Hl])].
      - specialize (H0 Hd0). lia.
      - apply Hml. eapply path_start_eq; [exact Hl|lia..].
      - apply Hmu. eapply path_start_eq; [exact Hl|lia..]. }
    specialize (Ht' (x0 - j - 1 - x)).
    replace (x + (x0 - j - 1 - x)) with (x0 - j - 1) in Ht' by lia.
    replace (x - k + (x0 - j - 1 - x)) with (x0 - k - j - 1) in Ht' by lia.
    rewrite Hf in Ht'. discriminate Ht'. lia.
Qed.

Lemma BPre_insert d i v vu :
  0 <= i <= d -> BPre d vu -> BPre d (<[ou + (ku - d + 2 * i) := v]> vu).
Proof.
  intros Hi [(-> & Hl)|(Hd & Hinv)].
  - left. split; [done|]. rewrite lookup_insert_ne by lia. done.
  - right. split; [done|]. intros i' Hi'.
    destruct (Hinv i' Hi') as (v' & Hv' & Hs). exists v'. split; [|done].
    rewrite lookup_insert_ne by lia. done.
Qed.

Definition BPost (d : Z) (vd : gmap Z Z) (r : option Snake * gmap Z Z) : Prop :=
  match r.1 with
  | None =>
      BInv d r.2 /\
      (isodd = false ->
       forall i u v, 0 <= i <= d ->
         kd - d <= ku - d + 2 * i <= kd + d ->
         r.2 !! (ou + (ku - d + 2 * i)) = Some u ->
         vd !! (od + (ku - d + 2 * i)) = Some v -> v < u)
  | Some ret =>
      isodd = false /\
      exists k u v,
        bk_spec d k u /\ fr_spec d k v /\ u <= v /\
        ret = {| sms_x := v; sms_y := v - k |}
  end.

Lemma reverse_loop_spec (n : nat) d i vu vd :
  0 <= i <= d + 1 -> d + 1 - i <= Z.of_nat n ->
  BPre d vu ->
  (isodd = false -> FInv d vd) ->
  (forall i', 0 <= i' < i ->
     exists u, vu !! (ou + (ku - d + 2 * i')) = Some u /\
               bk_spec d (ku - d + 2 * i') u /\
               (isodd = false -> kd - d <= ku - d + 2 * i' <= kd + d ->
                forall v, vd !! (od + (ku - d + 2 * i')) = Some v -> v < u)) ->
  exists r,
    reverse_loop A lenA ll lu B lenB rl ru n d (ku - d + 2 * i) vu vd = Ok r /\
    BPost d vd r.
Proof.
  revert i vu. induction n as [|n IH]; intros i vu Hi Hn Hpre Hfw Hdone.
  - assert (i = d + 1) by lia. subst i. simpl.
    destruct (Z.leb_spec (ku - d + 2 * (d + 1)) (ku + d)); [lia|].
    exists (None, vu). split; [done|]. unfold BPost; simpl. split.
    + intros i Hi'. destruct (Hdone i) as (v & Hv & Hs & _); [lia|]. eauto.
    + intros Hodd i u v Hi' Hk Hu Hv.
      destruct (Hdone i) as (u' & Hu' & _ & Hno); [lia|].
      rewrite Hu in Hu'. injection Hu' as <-. eauto.
  - simpl. destruct (Z.leb_spec (ku - d + 2 * i) (ku + d)) as [Hle|Hgt].
    + assert (Hi' : 0 <= i <= d) by lia.
      destruct (reverse_point d i vu Hi' Hpre) as (x0 & u & Hst & Hsn & Hspec).
      rewrite Hst. simpl. rewrite Hsn.
      set (k := ku - d + 2 * i) in *.
      set (vu1 := <[ou + k := u]> vu).
      assert (Hpre1 : BPre d vu1) by (by apply BPre_insert).
      assert (Hk1 : ku - d + 2 * (i + 1) = k + 2) by lia.
      assert (Hnext : (isodd = false -> kd - d <= k <= kd + d ->
                       forall v, vd !! (od + k) = Some v -> v < u) ->
                exists r, reverse_loop A lenA ll lu B lenB rl ru n d (k + 2) vu1 vd
                          = Ok r /\ BPost d vd r).
      { intros Hno. rewrite <- Hk1. apply IH; [lia|lia|done|done|].
        intros i' Hi2. destruct (decide (i' = i)) as [->|Hne].
        - exists u. unfold vu1. fold k. rewrite lookup_insert_eq. done.
        - destruct (Hdone i') as (u' & Hu' & Hs'); [lia|].
          exists u'. split; [|done]. unfold vu1, k.
          rewrite lookup_insert_ne by lia. done. }
      destruct (negb isodd && (kd - d <=? k) && (k <=? kd + d)) eqn:Echk.
      * apply andb_prop in Echk as [Echk Hk2].
        apply andb_prop in Echk as [Hodd Hk3].
        apply Z.leb_le in Hk2, Hk3. apply negb_true_iff in Hodd.
        destruct (odd_false Hodd) as (m & Hm).
        destruct (Hfw Hodd (i + m)) as (v & Hv & Hvs); [lia|].
        replace (kd - d + 2 * (i + m)) with k in Hv, Hvs by lia.
        assert (Hvu1 : vu1 !! (ou + k) = Some u) by apply lookup_insert_eq.
        unfold vget. rewrite Hvu1. simpl. rewrite Hv. simpl.
        destruct (Z.leb_spec u v) as [Huv|Huv].
        -- exists (Some {| sms_x := v; sms_y := v - k |}, vu1).
           split; [done|]. unfold BPost; simpl. split; [done|].
           exists k, u, v.
           split; [exact Hspec|]. split; [exact Hvs|].
           split; [lia|reflexivity].
        -- apply Hnext. intros _ _ v' Hv'. rewrite Hv in Hv'.
           injection Hv' as <-. done.
      * apply Hnext. intros Hodd Hk. exfalso.
        rewrite Hodd in Echk. simpl in Echk.
        destruct (Z.leb_spec (kd - d) k), (Z.leb_spec k (kd + d));
          first [lia|discriminate].
    + assert (i = d + 1) by lia. subst i.
      exists (None, vu). split; [done|]. unfold BPost; simpl. split.
      * intros i Hi'. destruct (Hdone i) as (v & Hv & Hs & _); [lia|]. eauto.
      * intros Hodd i u v Hi' Hk Hu Hv.
        destruct (Hdone i) as (u' & Hu' & _ & Hno); [lia|].
        rewrite Hu in Hu'. injection Hu' as <-. eauto.
Qed.


(** ** The search over [d] *)

Hypothesis rect_x : ll <= lu.
Hypothesis rect_y : rl <= ru.

(** Edit distances already excluded when the round for [d] starts. *)
Definition LB (d : Z) : Prop :=
  forall e, P e ll rl lu ru -> (if isodd then 2 * d - 1 else 2 * d) <= e.

Lemma path_parity e :
  P e ll rl lu ru -> exists m, e = 2 * m + (if isodd then 1 else 0).
Proof.
  intros H. apply path_bounds in H as (_ & _ & _ & (j & _ & Hj) & _).
  destruct isodd eqn:E.
  - destruct (odd_true E) as (m & Hm). unfold kup, kdown in Hm.
    exists (m + (ru - rl) - j). lia.
  - destruct (odd_false E) as (m & Hm). unfold kup, kdown in Hm.
    exists (m + (ru - rl) - j). lia.
Qed.

(** A point reached by a forward [d]-path lies on a diagonal the forward
    pass for [d] visits. *)
Lemma forward_diagonal d a b :
  P d ll rl a b -> exists i, 0 <= i <= d /\ a - b = kd - d + 2 * i.
Proof.
  intros H. apply path_bounds in H as (_ & _ & _ & (j & _ & Hj) & Hk).
  unfold kdown in *. exists (d + j - (b - rl)). lia.
Qed.

Lemma reverse_diagonal d a b :
  P d a b lu ru -> exists i, 0 <= i <= d /\ a - b = ku - d + 2 * i.
Proof.
  intros H. apply path_bounds in H as (_ & _ & _ & (j & _ & Hj) & Hk).
  unfold kup in *. exists ((ru - b) - j). lia.
Qed.

Lemma forward_complete d vu vd' :
  isodd = true -> 0 < d -> BInv (d - 1) vu -> FPost d vu (None, vd') ->
  forall e, P e ll rl lu ru -> e <> 2 * d - 1.
Proof.
  intros Hodd Hd Hbk [Hinv Hno] e He ->. simpl in *.
  destruct (path_split mt_rect d (d - 1) ll rl lu ru) as (a & b & Ha & Hb);
    [lia|lia|eapply path_eq; [exact He|lia..]|].
  destruct (forward_diagonal _ _ _ Ha) as (i & Hi & Hk).
  destruct (reverse_diagonal _ _ _ Hb) as (i2 & Hi2 & Hk2).
  destruct (Hinv i Hi) as (v & Hv & _ & Hmax).
  destruct (Hbk i2 Hi2) as (u & Hu & _ & Hmin).
  assert (a <= v).
  { apply Hmax. eapply path_eq; [exact Ha|lia..]. }
  assert (u <= a).
  { apply Hmin. eapply path_start_eq; [exact Hb|lia..]. }
  replace (ku - (d - 1) + 2 * i2) with (kd - d + 2 * i) in Hu by lia.
  specialize (Hno Hodd i u v Hi ltac:(lia) Hu Hv). lia.
Qed.

Lemma reverse_complete d vd vu' :
  isodd = false -> FInv d vd -> BPost d vd (None, vu') ->
  forall e, P e ll rl lu ru -> e <> 2 * d.
Proof.
  intros Hodd Hfw [Hinv Hno] e He ->. simpl in *.
  pose proof (path_bounds _ _ _ _ _ _ He) as (Hd & _).
  destruct (path_split mt_rect d d ll rl lu ru) as (a & b & Ha & Hb);
    [lia|lia|eapply path_eq; [exact He|lia..]|].
  destruct (forward_diagonal _ _ _ Ha) as (i & Hi & Hk).
  destruct (reverse_diagonal _ _ _ Hb) as (i2 & Hi2 & Hk2).
  destruct (Hfw i Hi) as (v & Hv & _ & Hmax).
  destruct (Hinv i2 Hi2) as (u & Hu & _ & Hmin).
  assert (a <= v).
  { apply Hmax. eapply path_eq; [exact Ha|lia..]. }
  assert (u <= a).
  { apply Hmin. eapply path_start_eq; [exact Hb|lia..]. }
  replace (kd - d + 2 * i) with (ku - d + 2 * i2) in Hv by lia.
  specialize (Hno Hodd i2 u v Hi2 ltac:(lia) Hu Hv). lia.
Qed.

(** The midpoint lies on a shortest path, which it cuts in halves that
    differ by at most one edit. *)
Definition midpoint (ret : Snake) : Prop :=
  exists d1 d2,
    (d1 = d2 \/ d1 = d2 + 1) /\
    P d1 ll rl (sms_x ret) (sms_y ret) /\
    P d2 (sms_x ret) (sms_y ret) lu ru /\
    forall e, P e ll rl lu ru -> d1 + d2 <= e.

Lemma overlap_midpoint d1 d2 k u v :
  (d1 = d2 \/ d1 = d2 + 1) ->
  fr_spec d1 k v -> bk_spec d2 k u -> u <= v ->
  (forall e, P e ll rl lu ru -> d1 + d2 <= e) ->
  midpoint {| sms_x := v; sms_y := v - k |}.
Proof.
  intros Hd [Hf _] [Hb _] Huv Hopt.
  destruct (crossing_sound mt_rect ll rl lu ru rect_x rect_y mt_rect_inside
              d1 d2 v (v - k) u (u - k) Hf Hb ltac:(lia) Huv Hopt)
    as (_ & _ & Hp).
  exists d1, d2. simpl. done.
Qed.

Lemma search_loop_spec (n : nat) d vu vd :
  0 <= d ->
  (lu - ll + ru - rl) / 2 + 2 - d <= Z.of_nat n ->
  FPre d vd -> BPre d vu -> LB d ->
  exists ret vu' vd',
    search_loop A lenA ll lu B lenB rl ru n d vu vd = Ok (ret, vu', vd') /\
    midpoint ret.
Proof.
  revert d vu vd. induction n as [|n IH]; intros d vu vd Hd Hn Hf Hb Hlb.
  - exfalso. specialize (Hlb _ (path_straight mt_rect ll rl lu ru rect_x rect_y)).
    destruct isodd; Z.div_mod_to_equations; lia.
  - simpl. unfold within_maxd.
    destruct (Z.leb_spec (2 * d) (lu - ll + ru - rl + 2)) as [_|Hgt].
    2:{ exfalso.
        specialize (Hlb _ (path_straight mt_rect ll rl lu ru rect_x rect_y)).
        destruct isodd; lia. }
    destruct (forward_loop_spec (Z.to_nat (d + 1)) d 0 vu vd)
      as ([r vd'] & Hfl & Hpost); [lia|lia|done| | |].
    { intros _ Hd'. destruct Hb as [[? _]|[_ ?]]; [lia|done]. }
    { intros; lia. }
    replace (kd - d + 2 * 0) with (kd - d) in Hfl by lia.
    rewrite Hfl. simpl. destruct r as [ret|].
    + exists ret, vu, vd'. split; [done|].
      destruct Hpost as (Hodd & k & u & v & Hd' & Hbk & Hfr & Huv & ->).
      simpl in *. apply (overlap_midpoint d (d - 1) k u v); [lia|done..|].
      intros e He. specialize (Hlb e He). rewrite Hodd in Hlb. lia.
    + assert (Hlb1 : forall e, P e ll rl lu ru ->
                (if isodd then 2 * d + 1 else 2 * d) <= e).
      { intros e He. specialize (Hlb e He).
        destruct isodd eqn:Hodd; [|done].
        destruct (path_parity e He) as (m & Hm). rewrite Hodd in Hm.
        destruct (decide (0 < d)) as [Hpos|Hz].
        - assert (BInv (d - 1) vu) by (destruct Hb as [[? _]|[_ ?]]; [lia|done]).
          pose proof (forward_complete d vu vd' Hodd Hpos H Hpost e He). lia.
        - apply path_bounds in He. lia. }
      destruct Hpost as [Hinv _]. simpl in Hinv.
      destruct (reverse_loop_spec (Z.to_nat (d + 1)) d 0 vu vd')
        as ([r vu'] & Hrl & Hpost); [lia|lia|done|done| |].
      { intros; lia. }
      replace (ku - d + 2 * 0) with (ku - d) in Hrl by lia.
      rewrite Hrl. simpl. destruct r as [ret|].
      * exists ret, vu', vd'. split; [done|].
        destruct Hpost as (Hodd & k & u & v & Hbk & Hfr & Huv & ->).
        simpl in *. apply (overlap_midpoint d d k u v); [lia|done..|].
        intros e He. specialize (Hlb e He). rewrite Hodd in Hlb. lia.
      * apply IH; [lia|lia| | |].
        -- right. split; [lia|]. by replace (d + 1 - 1) with d by lia.
        -- right. split; [lia|]. replace (d + 1 - 1) with d by lia.
           by destruct Hpost.
        -- intros e He. specialize (Hlb1 e He).
           destruct isodd eqn:Hodd; [lia|].
           pose proof (reverse_complete d vd' vu' Hodd Hinv Hpost e He).
           destruct (path_parity e He) as (m & Hm). rewrite Hodd in Hm. lia.
Qed.

(** The search finds a midpoint and never reaches the final [throw]. *)
Lemma getShortestMiddleSnake_spec vu vd :
  exists ret vu' vd',
    getShortestMiddleSnake A lenA ll lu B lenB rl ru vu vd = Ok (ret, vu', vd') /\
    midpoint ret.
Proof.
  unfold getShortestMiddleSnake. apply search_loop_spec; [lia|lia| | |].
  - left. split; [done|]. rewrite lookup_insert_eq. done.
  - left. split; [done|]. rewrite lookup_insert_eq. done.
  - intros e He. apply path_bounds in He. destruct isodd; lia.
Qed.


(** In a rectangle that is not empty on either side and whose corner
    items differ, the two halves of the shortest path are not empty:
    the midpoint is neither corner. *)
Lemma trimmed_distance e :
  ll < lu -> rl < ru ->
  mt_rect ll rl = false -> mt_rect (lu - 1) (ru - 1) = false ->
  P e ll rl lu ru -> 2 <= e.
Proof.
  intros Hx Hy Hlo Hhi He.
  pose proof (path_bounds _ _ _ _ _ _ He) as (He0 & _).
  destruct (path_first _ _ _ _ _ _ He) as (j & Hj & Ht & Hfirst).
  assert (j = 0) as ->.
  { destruct (decide (j = 0)) as [|Hne]; [done|exfalso].
    specialize (Ht 0 ltac:(lia)). rewrite !Z.add_0_r in Ht. congruence. }
  destruct Hfirst as [(_ & ? & ?)|(Hpos & Hrest)]; [lia|].
  destruct (decide (e = 1)) as [->|]; [exfalso|lia].
  assert (forall a b, P 0 a b lu ru -> a < lu -> a = lu /\ b = ru) as Hend.
  { intros a b H0 Ha. destruct (path_last _ _ _ _ _ _ H0) as (j & Hj' & Ht' & Hl).
    destruct Hl as [(_ & ? & ?)|(? & _)]; [|lia].
    destruct (decide (j = 0)) as [|Hne]; [lia|exfalso].
    specialize (Ht' (j - 1) ltac:(lia)).
    replace (lu - j + (j - 1)) with (lu - 1) in Ht' by lia.
    replace (ru - j + (j - 1)) with (ru - 1) in Ht' by lia. congruence. }
  destruct Hrest as [H0|H0]; simpl in H0.
  - pose proof (path_bounds _ _ _ _ _ _ H0) as (_ & ? & ? & _).
    destruct (decide (ll + 0 + 1 < lu)) as [Hlt|Hge].
    + destruct (Hend _ _ H0 Hlt). lia.
    + destruct (path_last _ _ _ _ _ _ H0) as (j & Hj' & Ht' & Hl).
      destruct Hl as [(_ & ? & ?)|(? & _)]; lia.
  - destruct (Hend _ _ H0 ltac:(lia)). lia.
Qed.

Lemma midpoint_progress ret :
  ll < lu -> rl < ru ->
  mt_rect ll rl = false -> mt_rect (lu - 1) (ru - 1) = false ->
  midpoint ret ->
  ll <= sms_x ret <= lu /\ rl <= sms_y ret <= ru /\
  0 < (sms_x ret - ll) + (sms_y ret - rl) < (lu - ll) + (ru - rl).
Proof.
  intros Hx Hy Hlo Hhi (d1 & d2 & Hd & H1 & H2 & Hopt).
  pose proof (trimmed_distance _ Hx Hy Hlo Hhi
                (path_trans _ _ _ _ _ _ _ _ _ H1 H2)).
  apply path_bounds in H1 as (_ & ? & ? & (j1 & ? & ?) & _).
  apply path_bounds in H2 as (_ & ? & ? & (j2 & ? & ?) & _).
  lia.
Qed.

End SmsProof.

(** * Code sequences *)

(** The items at the positions [a .. c - 1]. *)
Definition slice (l : list code) (a c : Z) : list code :=
  take (Z.to_nat (c - a)) (drop (Z.to_nat a) l).

(** The items at the positions of [a .. c - 1] that are not marked
    modified, in increasing position order. *)
Definition unmarked (m : gmap Z bool) (l : list code) (a c : Z) : list code :=
  omap (fun i => if marked m i then None else code_at l i) (seqZ a (c - a)).

Definition common (s l1 l2 : list code) : Prop :=
  s `sublist_of` l1 /\ s `sublist_of` l2.

Lemma code_at_Some l x :
  0 <= x < Z.of_nat (length l) -> exists c, code_at l x = Some c.
Proof.
  intros Hx. unfold code_at. destruct (Z.ltb_spec x 0); [lia|].
  apply lookup_lt_is_Some. lia.
Qed.

Lemma slice_empty l a c : c <= a -> slice l a c = [].
Proof. intros H. unfold slice. by replace (Z.to_nat (c - a)) with O by lia. Qed.

Lemma slice_length l a c :
  0 <= a <= c -> c <= Z.of_nat (length l) ->
  Z.of_nat (length (slice l a c)) = c - a.
Proof. intros Ha Hc. unfold slice. rewrite length_take, length_drop. lia. Qed.

Lemma slice_cons l a c x :
  0 <= a < c -> code_at l a = Some x -> slice l a c = x :: slice l (a + 1) c.
Proof.
  intros Ha Hx. unfold slice, code_at in *.
  destruct (Z.ltb_spec a 0); [lia|].
  replace (Z.to_nat (c - a)) with (S (Z.to_nat (c - (a + 1)))) by lia.
  rewrite (drop_S _ _ _ Hx). simpl.
  by replace (Z.to_nat (a + 1)) with (S (Z.to_nat a)) by lia.
Qed.

Lemma slice_app l a b c :
  0 <= a <= b -> b <= c -> slice l a c = slice l a b ++ slice l b c.
Proof.
  intros Ha Hb. unfold slice.
  replace (Z.to_nat (c - a)) with (Z.to_nat (b - a) + Z.to_nat (c - b))%nat by lia.
  rewrite <- take_take_drop. f_equal. rewrite drop_drop. do 2 f_equal. lia.
Qed.

Lemma slice_one l a x :
  0 <= a -> code_at l a = Some x -> slice l a (a + 1) = [x].
Proof.
  intros Ha Hx. rewrite (slice_cons l a (a + 1) x) by (done || lia).
  by rewrite slice_empty by lia.
Qed.

Lemma slice_full l : slice l 0 (Z.of_nat (length l)) = l.
Proof.
  unfold slice. simpl. rewrite Z.sub_0_r, Nat2Z.id. apply firstn_all.
Qed.

(** ** Paths and common subsequences *)

Section Bridge.

Variables (A B : list code) (ll lu rl ru : Z).
Hypothesis boundA : 0 <= ll /\ lu <= Z.of_nat (length A).
Hypothesis boundB : 0 <= rl /\ ru <= Z.of_nat (length B).

Local Notation "'P'" := (path (mt_rect A ll lu B rl ru)).

Lemma mt_rect_true x y :
  mt_rect A ll lu B rl ru x y = true ->
  ll <= x < lu /\ rl <= y < ru /\
  exists c, code_at A x = Some c /\ code_at B y = Some c.
Proof.
  unfold mt_rect. intros H. repeat (apply andb_prop in H as [H ?]).
  assert (Hx : ll <= x < lu) by lia. assert (Hy : rl <= y < ru) by lia.
  split; [done|]. split; [done|].
  destruct (code_at_Some A x) as (c & Hc); [lia|]. exists c. split; [done|].
  unfold js_eq in *. apply bool_decide_eq_true in H0. congruence.
Qed.

Lemma mt_rect_intro x y c :
  ll <= x < lu -> rl <= y < ru ->
  code_at A x = Some c -> code_at B y = Some c ->
  mt_rect A ll lu B rl ru x y = true.
Proof.
  intros Hx Hy Ha Hb. unfold mt_rect, js_eq. rewrite Ha, Hb.
  rewrite bool_decide_eq_true_2 by done.
  destruct (Z.leb_spec ll x), (Z.ltb_spec x lu), (Z.leb_spec rl y),
    (Z.ltb_spec y ru); first [lia|done].
Qed.

(** A path with [d] edits spells out a common subsequence. *)
Lemma path_common d a b c e :
  P d a b c e -> ll <= a -> rl <= b -> c <= lu -> e <= ru ->
  exists s, common s (slice A a c) (slice B b e) /\
            2 * Z.of_nat (length s) + d = (c - a) + (e - b).
Proof.
  induction 1 as [x y|d x y x' y' H IH|d x y x' y' H IH|d x y x' y' H IH Hm];
    intros Ha Hb Hc He.
  - exists []. rewrite !slice_empty by lia. split; [by split|]. simpl. lia.
  - destruct IH as (s & [Hs1 Hs2] & Hlen); [lia..|].
    pose proof (path_bounds _ _ _ _ _ _ H) as (_ & ? & ? & _).
    exists s. split; [split; [|done]|lia].
    rewrite (slice_app A x x' (x' + 1)) by lia. by apply sublist_inserts_r.
  - destruct IH as (s & [Hs1 Hs2] & Hlen); [lia..|].
    pose proof (path_bounds _ _ _ _ _ _ H) as (_ & ? & ? & _).
    exists s. split; [split; [done|]|lia].
    rewrite (slice_app B y y' (y' + 1)) by lia. by apply sublist_inserts_r.
  - destruct IH as (s & [Hs1 Hs2] & Hlen); [lia..|].
    pose proof (path_bounds _ _ _ _ _ _ H) as (_ & ? & ? & _).
    destruct (mt_rect_true _ _ Hm) as (Hx' & Hy' & z & Hza & Hzb).
    exists (s ++ [z]). split; [split|].
    + rewrite (slice_app A x x' (x' + 1)) by lia.
      rewrite (slice_one A x' z) by (done || lia). by apply sublist_app.
    + rewrite (slice_app B y y' (y' + 1)) by lia.
      rewrite (slice_one B y' z) by (done || lia). by apply sublist_app.
    + rewrite length_app. simpl. lia.
Qed.

(** A common subsequence is spelled out by a path. *)
Lemma common_path (n : nat) a b c e s :
  (c - a) + (e - b) <= Z.of_nat n ->
  ll <= a <= c -> c <= lu -> rl <= b <= e -> e <= ru ->
  common s (slice A a c) (slice B b e) ->
  P ((c - a) + (e - b) - 2 * Z.of_nat (length s)) a b c e.
Proof.
  revert a b s. induction n as [|n IH]; intros a b s Hn Ha Hc Hb He [Hs1 Hs2].
  - assert (a = c) by lia. assert (b = e) by lia. subst.
    rewrite slice_empty in Hs1 by lia. apply sublist_nil_r in Hs1 as ->.
    eapply path_eq; [apply path_refl|simpl; lia..].
  - destruct (decide (a = c)) as [->|Hac].
    { rewrite slice_empty in Hs1 by lia. apply sublist_nil_r in Hs1 as ->.
      eapply path_eq; [apply (path_straight _ c b c e); lia|simpl; lia..]. }
    destruct (decide (b = e)) as [->|Hbe].
    { rewrite slice_empty in Hs2 by lia. apply sublist_nil_r in Hs2 as ->.
      eapply path_eq; [apply (path_straight _ a e c e); lia|simpl; lia..]. }
    destruct (code_at_Some A a) as (x & Hx); [lia|].
    destruct (code_at_Some B b) as (y & Hy); [lia|].
    rewrite (slice_cons A a c x) in Hs1 by (done || lia).
    rewrite (slice_cons B b e y) in Hs2 by (done || lia).
    apply sublist_cons_r in Hs1 as [Hs1|(s1 & -> & Hs1)].
    { eapply path_eq; [apply path_cons_right, (IH (a + 1) b s)|lia..];
        [lia|lia|lia|lia|lia|].
      split; [done|]. by rewrite (slice_cons B b e y) by (done || lia). }
    apply sublist_cons_r in Hs2 as [Hs2|(s2 & E & Hs2)].
    { eapply path_eq; [apply path_cons_down, (IH a (b + 1) (x :: s1))|lia..];
        [lia|lia|lia|lia|lia|].
      split; [|done]. rewrite (slice_cons A a c x) by (done || lia).
      by apply sublist_skip. }
    injection E as -> ->.
    eapply path_eq;
      [apply path_cons_diag;
         [apply (mt_rect_intro a b y); [lia|lia|done|done]
         |apply (IH (a + 1) (b + 1) s2); [lia|lia|lia|lia|lia|by split]]
      |simpl; lia..].
Qed.

End Bridge.

(** ** Unmarked positions *)

Lemma unmarked_empty m l a c : c <= a -> unmarked m l a c = [].
Proof. intros H. unfold unmarked. by rewrite seqZ_nil by lia. Qed.

Lemma unmarked_app m l a b c :
  a <= b <= c ->
  unmarked m l a c = unmarked m l a b ++ unmarked m l b c.
Proof.
  intros H. unfold unmarked.
  replace (c - a) with ((b - a) + (c - b)) by lia.
  rewrite seqZ_app by lia. rewrite omap_app.
  by replace (a + (b - a)) with b by lia.
Qed.

Lemma unmarked_cons m l a c :
  a < c ->
  unmarked m l a c
  = (if marked m a then [] else option_list (code_at l a))
    ++ unmarked m l (a + 1) c.
Proof.
  intros H. unfold unmarked. rewrite seqZ_cons by lia. simpl.
  replace (Z.pred (c - a)) with (c - (a + 1)) by lia.
  replace (Z.succ a) with (a + 1) by lia.
  destruct (marked m a); [done|]. by destruct (code_at l a).
Qed.

Lemma unmarked_ext m m' l a c :
  (forall i, a <= i < c -> marked m i = marked m' i) ->
  unmarked m l a c = unmarked m' l a c.
Proof.
  intros H. remember (Z.to_nat (c - a)) as n eqn:En. revert a H En.
  induction n as [|n IH]; intros a H En.
  - by rewrite !unmarked_empty by lia.
  - rewrite !(unmarked_cons _ l a c) by lia. rewrite (H a) by lia.
    f_equal. apply IH; [intros; apply H|]; lia.
Qed.

Lemma unmarked_clear m l a c :
  0 <= a -> c <= Z.of_nat (length l) ->
  (forall i, a <= i < c -> marked m i = false) ->
  unmarked m l a c = slice l a c.
Proof.
  intros Ha Hc H. remember (Z.to_nat (c - a)) as n eqn:En. revert a Ha H En.
  induction n as [|n IH]; intros a Ha H En.
  - by rewrite unmarked_empty, slice_empty by lia.
  - rewrite unmarked_cons by lia. rewrite (H a) by lia.
    destruct (code_at_Some l a) as (x & Hx); [lia|].
    rewrite (slice_cons l a c x) by (done || lia). rewrite Hx. simpl.
    f_equal. apply IH; [lia|intros; apply H; lia|lia].
Qed.

Lemma unmarked_all m l a c :
  (forall i, a <= i < c -> marked m i = true) -> unmarked m l a c = [].
Proof.
  intros H. remember (Z.to_nat (c - a)) as n eqn:En. revert a H En.
  induction n as [|n IH]; intros a H En.
  - by rewrite unmarked_empty by lia.
  - rewrite unmarked_cons by lia. rewrite (H a) by lia. simpl.
    apply IH; [intros; apply H|]; lia.
Qed.

Lemma unmarked_sublist m l a c :
  0 <= a -> c <= Z.of_nat (length l) ->
  unmarked m l a c `sublist_of` slice l a c.
Proof.
  intros Ha Hc. remember (Z.to_nat (c - a)) as n eqn:En. revert a Ha En.
  induction n as [|n IH]; intros a Ha En.
  - by rewrite unmarked_empty, slice_empty by lia.
  - rewrite unmarked_cons by lia.
    destruct (code_at_Some l a) as (x & Hx); [lia|].
    rewrite (slice_cons l a c x) by (done || lia). rewrite Hx.
    destruct (marked m a); simpl.
    + apply sublist_cons, IH; lia.
    + apply sublist_skip, IH; lia.
Qed.

Lemma slice_eq l1 l2 a b (t : nat) :
  0 <= a -> a + Z.of_nat t <= Z.of_nat (length l1) ->
  0 <= b -> b + Z.of_nat t <= Z.of_nat (length l2) ->
  (forall i, 0 <= i < Z.of_nat t ->
     js_eq (code_at l1 (a + i)) (code_at l2 (b + i)) = true) ->
  slice l1 a (a + Z.of_nat t) = slice l2 b (b + Z.of_nat t).
Proof.
  revert a b. induction t as [|t IH]; intros a b Ha Ha' Hb Hb' H.
  - by rewrite !slice_empty by lia.
  - destruct (code_at_Some l1 a) as (x & Hx); [lia|].
    destruct (code_at_Some l2 b) as (y & Hy); [lia|].
    rewrite (slice_cons l1 a _ x), (slice_cons l2 b _ y) by (done || lia).
    pose proof (H 0 ltac:(lia)) as H0. rewrite !Z.add_0_r, Hx, Hy in H0.
    apply bool_decide_eq_true in H0. injection H0 as ->. f_equal.
    replace (a + Z.of_nat (S t)) with (a + 1 + Z.of_nat t) by lia.
    replace (b + Z.of_nat (S t)) with (b + 1 + Z.of_nat t) by lia.
    apply IH; [lia..|]. intros i Hi. specialize (H (i + 1) ltac:(lia)).
    by replace (a + (i + 1)) with (a + 1 + i) in H by lia;
       replace (b + (i + 1)) with (b + 1 + i) in H by lia.
Qed.

Lemma mark_range_spec (n : nat) m lo hi :
  hi - lo <= Z.of_nat n ->
  (forall i, lo <= i < hi -> marked (mark_range n m lo hi) i = true) /\
  (forall i, ~ lo <= i < hi -> mark_range n m lo hi !! i = m !! i).
Proof.
  revert m lo. induction n as [|n IH]; intros m lo Hn; simpl.
  - destruct (Z.ltb_spec lo hi); [lia|]. split; [intros; lia|done].
  - destruct (Z.ltb_spec lo hi) as [Hlt|Hge]; [|split; [intros; lia|done]].
    destruct (IH (<[lo := true]> m) (lo + 1)) as [H1 H2]; [lia|]. split.
    + intros i Hi. destruct (decide (i = lo)) as [->|Hne].
      * unfold marked. rewrite H2 by lia. by rewrite lookup_insert_eq.
      * apply H1. lia.
    + intros i Hi. rewrite H2 by lia. apply lookup_insert_ne. lia.
Qed.

Section Trim.

Variables (A B : list code).

Lemma trim_head_spec (n : nat) ll lu rl ru :
  lu - ll <= Z.of_nat n ->
  exists t, 0 <= t /\
    trim_head A B n ll lu rl ru = (ll + t, rl + t) /\
    (ll <= lu -> ll + t <= lu) /\
    (rl <= ru -> rl + t <= ru) /\
    (forall i, 0 <= i < t ->
       js_eq (code_at A (ll + i)) (code_at B (rl + i)) = true) /\
    (ll + t < lu -> rl + t < ru ->
     js_eq (code_at A (ll + t)) (code_at B (rl + t)) = false).
Proof.
  revert ll rl. induction n as [|n IH]; intros ll rl Hn; simpl.
  - destruct (Z.ltb_spec ll lu); [lia|]. simpl.
    exists 0. rewrite !Z.add_0_r. repeat split; try done; intros; lia.
  - destruct ((ll <? lu) && (rl <? ru)
              && js_eq (code_at A ll) (code_at B rl)) eqn:E.
    + apply andb_prop in E as [E Heq]. apply andb_prop in E as [Hl Hr].
      apply Z.ltb_lt in Hl, Hr.
      destruct (IH (ll + 1) (rl + 1)) as (t & Ht & Hs & H2 & H3 & H4 & H5);
        [lia|].
      exists (t + 1). split; [lia|]. split; [rewrite Hs; f_equal; lia|].
      split; [intros; lia|]. split; [intros; lia|]. split.
      * intros i Hi. destruct (decide (i = 0)) as [->|Hne].
        -- by rewrite !Z.add_0_r.
        -- specialize (H4 (i - 1) ltac:(lia)).
           by replace (ll + 1 + (i - 1)) with (ll + i) in H4 by lia;
              replace (rl + 1 + (i - 1)) with (rl + i) in H4 by lia.
      * intros Ha Hb. specialize (H5 ltac:(lia) ltac:(lia)).
        by replace (ll + 1 + t) with (ll + (t + 1)) in H5 by lia;
           replace (rl + 1 + t) with (rl + (t + 1)) in H5 by lia.
    + exists 0. rewrite !Z.add_0_r. split; [lia|]. split; [done|].
      split; [lia|]. split; [lia|]. split; [intros; lia|].
      intros Ha Hb. destruct (Z.ltb_spec ll lu), (Z.ltb_spec rl ru); try lia.
      done.
Qed.

Lemma trim_tail_spec (n : nat) ll lu rl ru :
  lu - ll <= Z.of_nat n ->
  exists t, 0 <= t /\
    trim_tail A B n ll lu rl ru = (lu - t, ru - t) /\
    (ll <= lu -> ll <= lu - t) /\ (rl <= ru -> rl <= ru - t) /\
    (forall i, 0 <= i < t ->
       js_eq (code_at A (lu - t + i)) (code_at B (ru - t + i)) = true) /\
    (ll < lu - t -> rl < ru - t ->
     js_eq (code_at A (lu - t - 1)) (code_at B (ru - t - 1)) = false).
Proof.
  revert lu ru. induction n as [|n IH]; intros lu ru Hn; simpl.
  - destruct (Z.ltb_spec ll lu); [lia|]. simpl.
    exists 0. rewrite !Z.sub_0_r. repeat split; try done; intros; lia.
  - destruct ((ll <? lu) && (rl <? ru)
              && js_eq (code_at A (lu - 1)) (code_at B (ru - 1))) eqn:E.
    + apply andb_prop in E as [E Heq]. apply andb_prop in E as [Hl Hr].
      apply Z.ltb_lt in Hl, Hr.
      destruct (IH (lu - 1) (ru - 1)) as (t & Ht & Hs & H1 & H2 & H4 & H5);
        [lia|].
      exists (t + 1). split; [lia|]. split; [rewrite Hs; f_equal; lia|].
      split; [intros; lia|]. split; [intros; lia|]. split.
      * intros i Hi. destruct (decide (i = t)) as [->|Hne].
        -- by replace (lu - (t + 1) + t) with (lu - 1) by lia;
              replace (ru - (t + 1) + t) with (ru - 1) by lia.
        -- specialize (H4 i ltac:(lia)).
           by replace (lu - 1 - t + i) with (lu - (t + 1) + i) in H4 by lia;
              replace (ru - 1 - t + i) with (ru - (t + 1) + i) in H4 by lia.
      * intros Ha Hb. specialize (H5 ltac:(lia) ltac:(lia)).
        by replace (lu - 1 - t - 1) with (lu - (t + 1) - 1) in H5 by lia;
           replace (ru - 1 - t - 1) with (ru - (t + 1) - 1) in H5 by lia.
    + exists 0. rewrite !Z.sub_0_r. split; [lia|]. split; [done|].
      split; [lia|]. split; [lia|]. split; [intros; lia|].
      intros Ha Hb. destruct (Z.ltb_spec ll lu), (Z.ltb_spec rl ru); try lia.
      done.
Qed.

End Trim.

(** * The recursion *)

Section LcsProof.

Variables (A B : list code) (lenA lenB : Z).

(** What a call on the rectangle [[ll, lu) x [rl, ru)] achieves: it marks
    inside the rectangle only, and the unmarked items of the two sides
    are one longest common subsequence of the two ranges. *)
Definition lcs_post (w w' : Work) (ll lu rl ru : Z) : Prop :=
  (forall i, ~ ll <= i < lu -> lhs_modified w' !! i = lhs_modified w !! i) /\
  (forall j, ~ rl <= j < ru -> rhs_modified w' !! j = rhs_modified w !! j) /\
  unmarked (lhs_modified w') A ll lu = unmarked (rhs_modified w') B rl ru /\
  (forall s, common s (slice A ll lu) (slice B rl ru) ->
             (length s <= length (unmarked (lhs_modified w') A ll lu))%nat).

Definition clear (m : gmap Z bool) (a c : Z) : Prop :=
  forall i, a <= i < c -> marked m i = false.

Lemma marked_eq m m' i : m' !! i = m !! i -> marked m' i = marked m i.
Proof. unfold marked. by intros ->. Qed.

(** Common items at the two ends of the ranges belong to every longest
    common subsequence. *)
Lemma trim_bound ll lu rl ru (t t' : nat) s :
  0 <= ll -> lu <= Z.of_nat (length A) ->
  0 <= rl -> ru <= Z.of_nat (length B) ->
  ll + Z.of_nat t <= lu - Z.of_nat t' ->
  rl + Z.of_nat t <= ru - Z.of_nat t' ->
  common s (slice A ll lu) (slice B rl ru) ->
  exists s',
    common s' (slice A (ll + Z.of_nat t) (lu - Z.of_nat t'))
              (slice B (rl + Z.of_nat t) (ru - Z.of_nat t')) /\
    (length s <= length s' + t + t')%nat.
Proof.
  intros Hll Hlu Hrl Hru Hx Hy Hs.
  pose proof (common_path A B ll lu rl ru (conj Hll Hlu) (conj Hrl Hru)
                (Z.to_nat ((lu - ll) + (ru - rl))) ll rl lu ru s
                ltac:(lia) ltac:(lia) ltac:(lia) ltac:(lia) ltac:(lia) Hs) as Hp.
  destruct (path_diag_fwd_n _ t _ _ _ _ _ Hp) as (e1 & He1 & Hp1); [lia..|].
  destruct (path_diag_back_n _ t' _ _ _ _ _ Hp1) as (e2 & He2 & Hp2); [lia..|].
  destruct (path_common A B ll lu rl ru (conj Hll Hlu) (conj Hrl Hru)
              _ _ _ _ _ Hp2) as (s' & Hs' & Hlen); [lia..|].
  exists s'. split; [done|]. lia.
Qed.

Lemma lcs_post_trim w w' ll lu rl ru (t t' : nat) :
  0 <= ll -> lu <= Z.of_nat (length A) ->
  0 <= rl -> ru <= Z.of_nat (length B) ->
  ll + Z.of_nat t <= lu - Z.of_nat t' ->
  rl + Z.of_nat t <= ru - Z.of_nat t' ->
  clear (lhs_modified w) ll lu -> clear (rhs_modified w) rl ru ->
  (forall i, 0 <= i < Z.of_nat t ->
     js_eq (code_at A (ll + i)) (code_at B (rl + i)) = true) ->
  (forall i, 0 <= i < Z.of_nat t' ->
     js_eq (code_at A (lu - Z.of_nat t' + i)) (code_at B (ru - Z.of_nat t' + i))
     = true) ->
  lcs_post w w' (ll + Z.of_nat t) (lu - Z.of_nat t')
                (rl + Z.of_nat t) (ru - Z.of_nat t') ->
  lcs_post w w' ll lu rl ru.
Proof.
  intros Hll Hlu Hrl Hru Hx Hy Hcl Hcr Hhead Htail (Hfl & Hfr & Heq & Hmax).
  assert (Hul : unmarked (lhs_modified w') A ll lu
                = slice A ll (ll + Z.of_nat t)
                  ++ unmarked (lhs_modified w') A (ll + Z.of_nat t) (lu - Z.of_nat t')
                  ++ slice A (lu - Z.of_nat t') lu).
  { rewrite (unmarked_app _ A ll (ll + Z.of_nat t) lu) by lia.
    rewrite (unmarked_app _ A (ll + Z.of_nat t) (lu - Z.of_nat t') lu) by lia.
    rewrite (unmarked_clear _ A ll (ll + Z.of_nat t)); [|lia|lia|].
    2:{ intros i Hi. rewrite (marked_eq (lhs_modified w)) by (apply Hfl; lia).
        apply Hcl; lia. }
    rewrite (unmarked_clear _ A (lu - Z.of_nat t') lu); [done|lia|lia|].
    intros i Hi. rewrite (marked_eq (lhs_modified w)) by (apply Hfl; lia).
    apply Hcl; lia. }
  assert (Hur : unmarked (rhs_modified w') B rl ru
                = slice B rl (rl + Z.of_nat t)
                  ++ unmarked (rhs_modified w') B (rl + Z.of_nat t) (ru - Z.of_nat t')
                  ++ slice B (ru - Z.of_nat t') ru).
  { rewrite (unmarked_app _ B rl (rl + Z.of_nat t) ru) by lia.
    rewrite (unmarked_app _ B (rl + Z.of_nat t) (ru - Z.of_nat t') ru) by lia.
    rewrite (unmarked_clear _ B rl (rl + Z.of_nat t)); [|lia|lia|].
    2:{ intros i Hi. rewrite (marked_eq (rhs_modified w)) by (apply Hfr; lia).
        apply Hcr; lia. }
    rewrite (unmarked_clear _ B (ru - Z.of_nat t') ru); [done|lia|lia|].
    intros i Hi. rewrite (marked_eq (rhs_modified w)) by (apply Hfr; lia).
    apply Hcr; lia. }
  split; [intros; apply Hfl; lia|]. split; [intros; apply Hfr; lia|]. split.
  - rewrite Hul, Hur, Heq. f_equal; [|f_equal].
    + apply slice_eq; [lia..|done].
    + replace lu with (lu - Z.of_nat t' + Z.of_nat t') at 2 by lia.
      replace ru with (ru - Z.of_nat t' + Z.of_nat t') at 2 by lia.
      apply slice_eq; [lia..|done].
  - intros s Hs.
    destruct (trim_bound ll lu rl ru t t' s) as (s' & Hs' & Hlen); [done..|].
    specialize (Hmax s' Hs'). rewrite Hul. rewrite !length_app.
    pose proof (slice_length A ll (ll + Z.of_nat t) ltac:(lia) ltac:(lia)).
    pose proof (slice_length A (lu - Z.of_nat t') lu ltac:(lia) ltac:(lia)).
    lia.
Qed.

Lemma getLCS_unfold fuel ll lu rl ru w :
  getLongestCommonSubsequence A lenA B lenB (S fuel) ll lu rl ru w
  = let '(ll', rl') := trim_head A B (Z.to_nat (lu - ll)) ll lu rl ru in
    let '(lu', ru') := trim_tail A B (Z.to_nat (lu - ll')) ll' lu rl' ru in
    if bool_decide (ll' = lu') then
      Ok {| lhs_modified := lhs_modified w;
            rhs_modified :=
              mark_range (Z.to_nat (ru' - rl')) (rhs_modified w) rl' ru';
            vector_u := vector_u w;
            vector_d := vector_d w |}
    else if bool_decide (rl' = ru') then
      Ok {| lhs_modified :=
              mark_range (Z.to_nat (lu' - ll')) (lhs_modified w) ll' lu';
            rhs_modified := rhs_modified w;
            vector_u := vector_u w;
            vector_d := vector_d w |}
    else
      '(sms, vu, vd) ←
        getShortestMiddleSnake A lenA ll' lu' B lenB rl' ru'
          (vector_u w) (vector_d w);
      w1 ← getLongestCommonSubsequence A lenA B lenB fuel
             ll' (sms_x sms) rl' (sms_y sms)
             {| lhs_modified := lhs_modified w;
                rhs_modified := rhs_modified w;
                vector_u := vu;
                vector_d := vd |};
      getLongestCommonSubsequence A lenA B lenB fuel
        (sms_x sms) lu' (sms_y sms) ru' w1.
Proof. reflexivity. Qed.


Lemma lcs_post_split w0 w1 w2 ll lu rl ru ret :
  0 <= ll -> lu <= Z.of_nat (length A) ->
  0 <= rl -> ru <= Z.of_nat (length B) ->
  ll <= sms_x ret <= lu -> rl <= sms_y ret <= ru ->
  midpoint A ll lu B rl ru ret ->
  lcs_post w0 w1 ll (sms_x ret) rl (sms_y ret) ->
  lcs_post w1 w2 (sms_x ret) lu (sms_y ret) ru ->
  lcs_post w0 w2 ll lu rl ru.
Proof.
  intros Hll Hlu Hrl Hru Hx Hy (d1 & d2 & _ & Hp1 & Hp2 & Hopt)
    (Hfl1 & Hfr1 & Heq1 & Hmax1) (Hfl2 & Hfr2 & Heq2 & Hmax2).
  set (x := sms_x ret) in *. set (y := sms_y ret) in *.
  assert (Hul : unmarked (lhs_modified w2) A ll lu
                = unmarked (lhs_modified w1) A ll x
                  ++ unmarked (lhs_modified w2) A x lu).
  { rewrite (unmarked_app _ A ll x lu) by lia. f_equal.
    apply unmarked_ext. intros i Hi. apply marked_eq, Hfl2. lia. }
  assert (Hur : unmarked (rhs_modified w2) B rl ru
                = unmarked (rhs_modified w1) B rl y
                  ++ unmarked (rhs_modified w2) B y ru).
  { rewrite (unmarked_app _ B rl y ru) by lia. f_equal.
    apply unmarked_ext. intros i Hi. apply marked_eq, Hfr2. lia. }
  split; [|split; [|split]].
  - intros i Hi. rewrite Hfl2 by lia. apply Hfl1. lia.
  - intros i Hi. rewrite Hfr2 by lia. apply Hfr1. lia.
  - by rewrite Hul, Hur, Heq1, Heq2.
  - intros s Hs.
    pose proof (common_path A B ll lu rl ru (conj Hll Hlu) (conj Hrl Hru)
                  (Z.to_nat ((lu - ll) + (ru - rl))) ll rl lu ru s
                  ltac:(lia) ltac:(lia) ltac:(lia) ltac:(lia) ltac:(lia) Hs) as Hp.
    specialize (Hopt _ Hp).
    destruct (path_common A B ll lu rl ru (conj Hll Hlu) (conj Hrl Hru)
                _ _ _ _ _ Hp1) as (s1 & Hs1 & Hl1); [lia..|].
    destruct (path_common A B ll lu rl ru (conj Hll Hlu) (conj Hrl Hru)
                _ _ _ _ _ Hp2) as (s2 & Hs2 & Hl2); [lia..|].
    specialize (Hmax1 s1 Hs1). specialize (Hmax2 s2 Hs2).
    rewrite Hul, length_app. lia.
Qed.

(** The recursion returns, and the unmarked items are a longest common
    subsequence of the two ranges. *)
Lemma getLongestCommonSubsequence_spec (fuel : nat) ll lu rl ru w :
  0 <= ll <= lu -> lu <= Z.of_nat (length A) ->
  0 <= rl <= ru -> ru <= Z.of_nat (length B) ->
  (lu - ll) + (ru - rl) < Z.of_nat fuel ->
  clear (lhs_modified w) ll lu -> clear (rhs_modified w) rl ru ->
  exists w',
    getLongestCommonSubsequence A lenA B lenB fuel ll lu rl ru w = Ok w' /\
    lcs_post w w' ll lu rl ru.
Proof.
  revert ll lu rl ru w.
  induction fuel as [|fuel IH]; intros ll lu rl ru w Hl Hlu Hr Hru Hf Hcl Hcr;
    [lia|].
  rewrite getLCS_unfold.
  destruct (trim_head_spec A B (Z.to_nat (lu - ll)) ll lu rl ru)
    as (t & Ht & Hth & Htl & Htr & Hhead & Hhne); [lia|].
  rewrite Hth.
  destruct (trim_tail_spec A B (Z.to_nat (lu - (ll + t))) (ll + t) lu (rl + t) ru)
    as (t' & Ht' & Htt & Htl' & Htr' & Htail & Htne); [lia|].
  rewrite Htt.
  destruct (Z_of_nat_complete t Ht) as [tn ->].
  destruct (Z_of_nat_complete t' Ht') as [tn' ->].
  specialize (Htl ltac:(lia)). specialize (Htr ltac:(lia)).
  specialize (Htl' ltac:(lia)). specialize (Htr' ltac:(lia)).
  set (ll' := ll + Z.of_nat tn) in *. set (rl' := rl + Z.of_nat tn) in *.
  set (lu' := lu - Z.of_nat tn') in *. set (ru' := ru - Z.of_nat tn') in *.
  enough (Hin : exists w',
             (if bool_decide (ll' = lu')
              then Ok {| lhs_modified := lhs_modified w;
                         rhs_modified :=
                           mark_range (Z.to_nat (ru' - rl')) (rhs_modified w) rl' ru';
                         vector_u := vector_u w; vector_d := vector_d w |}
              else if bool_decide (rl' = ru')
              then Ok {| lhs_modified :=
                           mark_range (Z.to_nat (lu' - ll')) (lhs_modified w) ll' lu';
                         rhs_modified := rhs_modified w;
                         vector_u := vector_u w; vector_d := vector_d w |}
              else
                '(sms, vu, vd) ←
                  getShortestMiddleSnake A lenA ll' lu' B lenB rl' ru'
                    (vector_u w) (vector_d w);
                w1 ← getLongestCommonSubsequence A lenA B lenB fuel
                       ll' (sms_x sms) rl' (sms_y sms)
                       {| lhs_modified := lhs_modified w;
                          rhs_modified := rhs_modified w;
                          vector_u := vu; vector_d := vd |};
                getLongestCommonSubsequence A lenA B lenB fuel
                  (sms_x sms) lu' (sms_y sms) ru' w1) = Ok w' /\
             lcs_post w w' ll' lu' rl' ru').
  { destruct Hin as (w' & Hw' & Hpost). exists w'. split; [done|].
    apply (lcs_post_trim w w' ll lu rl ru tn tn'); try done; lia. }
  assert (Hcl' : clear (lhs_modified w) ll' lu') by (intros i Hi; apply Hcl; lia).
  assert (Hcr' : clear (rhs_modified w) rl' ru') by (intros i Hi; apply Hcr; lia).
  case_bool_decide as E1; [|case_bool_decide as E2].
  - eexists. split; [done|]. simpl.
    destruct (mark_range_spec (Z.to_nat (ru' - rl')) (rhs_modified w) rl' ru')
      as [Hm1 Hm2]; [lia|].
    split; [done|]. split; [done|]. split; simpl.
    + rewrite unmarked_empty by lia. symmetry. by apply unmarked_all.
    + intros s [Hs _]. rewrite slice_empty in Hs by lia.
      apply sublist_nil_r in Hs as ->. simpl. lia.
  - eexists. split; [done|]. simpl.
    destruct (mark_range_spec (Z.to_nat (lu' - ll')) (lhs_modified w) ll' lu')
      as [Hm1 Hm2]; [lia|].
    split; [done|]. split; [done|]. split; simpl.
    + rewrite (unmarked_empty _ B) by lia. by apply unmarked_all.
    + intros s [_ Hs]. rewrite slice_empty in Hs by lia.
      apply sublist_nil_r in Hs as ->. simpl. lia.
  - destruct (getShortestMiddleSnake_spec A lenA ll' lu' B lenB rl' ru'
                ltac:(lia) ltac:(lia) (vector_u w) (vector_d w))
      as (ret & vu & vd & Hsms & Hmid).
    rewrite Hsms. simpl.
    assert (Hlo : mt_rect A ll' lu' B rl' ru' ll' rl' = false).
    { unfold mt_rect. rewrite Hhne by lia. apply andb_false_r. }
    assert (Hhi : mt_rect A ll' lu' B rl' ru' (lu' - 1) (ru' - 1) = false).
    { unfold mt_rect. rewrite Htne by lia. apply andb_false_r. }
    destruct (midpoint_progress A ll' lu' B rl' ru' ret ltac:(lia) ltac:(lia)
                Hlo Hhi Hmid) as (Hx & Hy & Hprog).
    set (w0 := {| lhs_modified := lhs_modified w; rhs_modified := rhs_modified w;
                  vector_u := vu; vector_d := vd |}).
    destruct (IH ll' (sms_x ret) rl' (sms_y ret) w0) as (w1 & Hw1 & Hpost1);
      [lia|lia|lia|lia|lia| | |].
    { intros i Hi. apply Hcl'. lia. }
    { intros i Hi. apply Hcr'. lia. }
    rewrite Hw1. simpl.
    destruct (IH (sms_x ret) lu' (sms_y ret) ru' w1) as (w2 & Hw2 & Hpost2);
      [lia|lia|lia|lia|lia| | |].
    { intros i Hi. destruct Hpost1 as (Hfl & _).
      rewrite (marked_eq (lhs_modified w0)) by (apply Hfl; lia). apply Hcl'. lia. }
    { intros i Hi. destruct Hpost1 as (_ & Hfr & _).
      rewrite (marked_eq (rhs_modified w0)) by (apply Hfr; lia). apply Hcr'. lia. }
    exists w2. split; [done|].
    assert (Hpost : lcs_post w0 w2 ll' lu' rl' ru').
    { apply (lcs_post_split w0 w1 w2 ll' lu' rl' ru' ret); try done; lia. }
    exact Hpost.
Qed.

End LcsProof.


(** * The change builder *)

(** The number of positions of [a .. c - 1] that are not marked
    modified. *)
Definition unmarked_count (m : gmap Z bool) (a c : Z) : Z :=
  Z.of_nat (length (filter (fun i => marked m i = false) (seqZ a (c - a)))).

Definition all_marked (m : gmap Z bool) (a c : Z) : Prop :=
  forall i, a <= i < c -> marked m i = true.

Lemma unmarked_count_empty m a c : c <= a -> unmarked_count m a c = 0.
Proof. intros H. unfold unmarked_count. by rewrite seqZ_nil by lia. Qed.

Lemma unmarked_count_cons m a c :
  a < c ->
  unmarked_count m a c
  = (if marked m a then 0 else 1) + unmarked_count m (a + 1) c.
Proof.
  intros H. unfold unmarked_count. rewrite seqZ_cons by lia.
  replace (Z.pred (c - a)) with (c - (a + 1)) by lia.
  replace (Z.succ a) with (a + 1) by lia.
  rewrite filter_cons. destruct (marked m a) eqn:E.
  - rewrite decide_False by done. lia.
  - rewrite decide_True by done. simpl. lia.
Qed.

Lemma unmarked_count_nonneg m a c : 0 <= unmarked_count m a c.
Proof. unfold unmarked_count. lia. Qed.

Lemma unmarked_count_app m a b c :
  a <= b <= c ->
  unmarked_count m a c = unmarked_count m a b + unmarked_count m b c.
Proof.
  intros H. unfold unmarked_count.
  replace (c - a) with ((b - a) + (c - b)) by lia.
  rewrite seqZ_app by lia. rewrite filter_app, length_app.
  replace (a + (b - a)) with b by lia. lia.
Qed.

Lemma unmarked_count_zero m a c :
  unmarked_count m a c = 0 -> all_marked m a c.
Proof.
  intros H i Hi. remember (Z.to_nat (c - a)) as n eqn:En. revert a H Hi En.
  induction n as [|n IH]; intros a H Hi En; [lia|].
  rewrite unmarked_count_cons in H by lia.
  pose proof (unmarked_count_nonneg m (a + 1) c).
  destruct (decide (i = a)) as [->|Hne].
  - destruct (marked m a); [done|lia].
  - apply (IH (a + 1)); [destruct (marked m a)|..]; lia.
Qed.

Lemma unmarked_count_all m a c :
  all_marked m a c -> unmarked_count m a c = 0.
Proof.
  intros H. remember (Z.to_nat (c - a)) as n eqn:En. revert a H En.
  induction n as [|n IH]; intros a H En.
  - apply unmarked_count_empty. lia.
  - rewrite unmarked_count_cons by lia. rewrite (H a) by lia.
    rewrite IH; [lia| |lia]. intros i Hi. apply H. lia.
Qed.

Lemma unmarked_count_clear m a c :
  a <= c -> clear m a c -> unmarked_count m a c = c - a.
Proof.
  intros Hac H. remember (Z.to_nat (c - a)) as n eqn:En. revert a Hac H En.
  induction n as [|n IH]; intros a Hac H En.
  - rewrite unmarked_count_empty; lia.
  - rewrite unmarked_count_cons by lia. rewrite (H a) by lia.
    rewrite IH; [lia|lia| |lia]. intros i Hi. apply H. lia.
Qed.

(** The count of unmarked positions is the length of the unmarked
    sequence. *)
Lemma unmarked_length m l a c :
  0 <= a -> c <= Z.of_nat (length l) ->
  Z.of_nat (length (unmarked m l a c)) = unmarked_count m a c.
Proof.
  intros Ha Hc. remember (Z.to_nat (c - a)) as n eqn:En. revert a Ha En.
  induction n as [|n IH]; intros a Ha En.
  - by rewrite unmarked_empty, unmarked_count_empty by lia.
  - rewrite unmarked_cons, unmarked_count_cons by lia.
    destruct (code_at_Some l a) as (x & Hx); [lia|]. rewrite Hx.
    rewrite length_app, Nat2Z.inj_add, IH by lia.
    by destruct (marked m a).
Qed.

Lemma skip_modified_spec (n : nat) m len stop line :
  len - line <= Z.of_nat n ->
  exists line',
    skip_modified n m len stop line = line' /\
    line <= line' /\ (line <= len -> line' <= len) /\
    (forall i, line <= i < line' -> stop = true \/ marked m i = true) /\
    (line' < len -> stop = false /\ marked m line' = false) /\
    (line < len -> (stop = true \/ marked m line = true) -> line < line').
Proof.
  revert line. induction n as [|n IH]; intros line Hn; simpl.
  - destruct (Z.ltb_spec line len); [lia|]. simpl.
    exists line. repeat split; try done; intros; lia.
  - destruct ((line <? len) && (stop || marked m line)) eqn:E.
    + apply andb_prop in E as [Hl Hs]. apply Z.ltb_lt in Hl.
      apply orb_prop in Hs.
      destruct (IH (line + 1)) as (line' & Hr & H1 & H2 & H3 & H4 & H5); [lia|].
      exists line'. split; [done|]. split; [lia|]. split; [intros; lia|].
      split; [|split; [done|intros; lia]].
      intros i Hi. destruct (decide (i = line)) as [->|Hne]; [done|].
      apply H3. lia.
    + exists line. split; [done|]. split; [lia|]. split; [done|].
      split; [intros; lia|].
      apply andb_false_iff in E. split.
      * intros Hl. destruct E as [E|E]; [apply Z.ltb_ge in E; lia|].
        apply orb_false_elim in E. done.
      * intros Hl [Hs|Hs]; destruct E as [E|E];
          try (apply Z.ltb_ge in E; lia);
          apply orb_false_elim in E as [E1 E2]; congruence.
Qed.

(** ** Reading a change list *)

Definition covers_lhs (c : Change) (i : Z) : bool :=
  (lhs_at c <=? i) && (i <? lhs_at c + lhs_del c).

Definition covers_rhs (c : Change) (i : Z) : bool :=
  (rhs_at c <=? i) && (i <? rhs_at c + rhs_add c).

(** The number of records whose span contains position [i]. *)
Definition cover_count (cov : Change -> Z -> bool) (cs : list Change) (i : Z)
  : nat :=
  length (filter (fun c => cov c i = true) cs).

Definition sum_del (cs : list Change) : Z := foldr (fun c a => lhs_del c + a) 0 cs.
Definition sum_add (cs : list Change) : Z := foldr (fun c a => rhs_add c + a) 0 cs.

(** The positions of a side of length [len] that no record covers. *)
Definition uncovered (cov : Change -> Z -> bool) (cs : list Change) (len : Z)
  : list Z :=
  filter (fun i => cover_count cov cs i = O) (seqZ 0 len).

Definition proper_change (c : Change) : Prop :=
  0 <= lhs_del c /\ 0 <= rhs_add c /\ (0 < lhs_del c \/ 0 < rhs_add c).

(** [c] is reported before [c'], for sides of [L] and [R] tokens: the
    spans do not overlap, [at] does not decrease, it increases on one
    side at least, and on a side it stays the same only where the later
    record starts past the end of that side, with [at] clamped to the
    last index. *)
Definition before (L R : Z) (c c' : Change) : Prop :=
  lhs_at c + lhs_del c <= lhs_at c' /\
  rhs_at c + rhs_add c <= rhs_at c' /\
  (lhs_at c < lhs_at c' \/ (lhs_del c' = 0 /\ lhs_at c' = L - 1)) /\
  (rhs_at c < rhs_at c' \/ (rhs_add c' = 0 /\ rhs_at c' = R - 1)) /\
  (lhs_at c < lhs_at c' \/ rhs_at c < rhs_at c').

Section CompareProof.

Variables (lm rm : gmap Z bool) (L R : Z).

(** The positions [(start, line)] of one emitted item, on either side. *)
Definition quad : Type := Z * Z * Z * Z.

Definition item_of (q : quad) : Change :=
  let '(sl, el, sr, er) := q in make_item L R sl el sr er.

(** The shape of the emitted items from the positions [(l, r)] on: a
    stretch of [g >= gmin] unmarked positions on both sides, a change
    made of marked positions, and so on, up to both ends. *)
Fixpoint runs (gmin l r : Z) (qs : list quad) : Prop :=
  match qs with
  | [] => 0 <= L - l /\ L - l = R - r /\ clear lm l L /\ clear rm r R
  | (sl, el, sr, er) :: qs' =>
      gmin <= sl - l /\ sl - l = sr - r /\
      clear lm l sl /\ clear rm r sr /\
      sl <= el <= L /\ sr <= er <= R /\ (sl < el \/ sr < er) /\
      all_marked lm sl el /\ all_marked rm sr er /\
      runs 1 el er qs'
  end.

Lemma runs_step g l r qs :
  marked lm l = false -> marked rm r = false -> 0 <= g ->
  runs g (l + 1) (r + 1) qs -> l < L -> r < R -> runs (g + 1) l r qs.
Proof.
  intros Hl Hr Hg H HlL HrR. destruct qs as [|[[[sl el] sr] er] qs]; simpl in *.
  - destruct H as (H1 & H2 & H3 & H4). repeat split; try lia.
    + intros i Hi. destruct (decide (i = l)) as [->|]; [done|apply H3; lia].
    + intros i Hi. destruct (decide (i = r)) as [->|]; [done|apply H4; lia].
  - destruct H as (H1 & H2 & H3 & H4 & H5).
    split; [lia|]. split; [lia|]. split; [|split; [|done]].
    + intros i Hi. destruct (decide (i = l)) as [->|]; [done|apply H3; lia].
    + intros i Hi. destruct (decide (i = r)) as [->|]; [done|apply H4; lia].
Qed.

Lemma runs_weaken g g' l r qs : g' <= g -> runs g l r qs -> runs g' l r qs.
Proof.
  intros Hg H. destruct qs as [|[[[sl el] sr] er] qs]; simpl in *; [done|].
  destruct H as (H1 & H2). split; [lia|done].
Qed.

Lemma runs_strict l r qs :
  runs 0 l r qs ->
  (l < L /\ r < R /\ marked lm l = false /\ marked rm r = false) \/
  (L <= l /\ R <= r) ->
  runs 1 l r qs.
Proof.
  intros H Hc. destruct qs as [|[[[sl el] sr] er] qs]; simpl in *; [done|].
  destruct H as (H1 & H2 & H3 & H4 & H5 & H6 & H7 & H8 & H9 & H10).
  split; [|done].
  destruct (decide (sl = l)) as [->|]; [exfalso|lia].
  assert (sr = r) as -> by lia.
  destruct Hc as [(? & ? & Hl & Hr)|[? ?]]; [|lia].
  destruct H7 as [H7|H7].
  - specialize (H8 l ltac:(lia)). congruence.
  - specialize (H9 r ltac:(lia)). congruence.
Qed.

Context {St : Type}.
Variable callback : Change -> St -> St.

Definition emit (acc : St) (qs : list quad) : St :=
  foldl (fun a q => callback (item_of q) a) acc qs.

(** The loop returns, and what it hands to the callback has the shape
    [runs], provided the two sides have equally many unmarked positions
    left. *)
Lemma compare_loop_spec (n : nat) l r acc :
  0 <= l <= L -> 0 <= r <= R ->
  (L - l) + (R - r) <= Z.of_nat n ->
  unmarked_count lm l L = unmarked_count rm r R ->
  exists qs,
    compare_loop lm L rm R callback n l r acc = Ok (emit acc qs) /\
    runs 0 l r qs.
Proof.
  revert l r acc. induction n as [|n IH]; intros l r acc Hl Hr Hn Hbal.
  - assert (l = L) by lia. assert (r = R) by lia. subst. simpl.
    destruct (Z.ltb_spec L L), (Z.ltb_spec R R); try lia. simpl.
    exists []. split; [done|]. simpl. repeat split; try lia; intros i Hi; lia.
  - simpl. destruct ((l <? L) || (r <? R)) eqn:Eg.
    2:{ apply orb_false_elim in Eg as [E1 E2].
        apply Z.ltb_ge in E1, E2. assert (l = L) by lia. assert (r = R) by lia.
        subst. exists []. split; [done|]. simpl.
        repeat split; try lia; intros i Hi; lia. }
    destruct ((l <? L) && negb (marked lm l) && (r <? R) && negb (marked rm r))
      eqn:Ee.
    + apply andb_prop in Ee as [Ee Hmr]. apply andb_prop in Ee as [Ee HrR].
      apply andb_prop in Ee as [HlL Hml].
      apply Z.ltb_lt in HlL, HrR. apply negb_true_iff in Hml, Hmr.
      destruct (IH (l + 1) (r + 1) acc) as (qs & Hq & Hruns); [lia|lia|lia| |].
      { rewrite (unmarked_count_cons lm l L), (unmarked_count_cons rm r R) in Hbal
          by lia. rewrite Hml, Hmr in Hbal. lia. }
      exists qs. split; [done|].
      apply (runs_weaken 1); [lia|]. by apply (runs_step 0).
    + destruct (skip_modified_spec (Z.to_nat (L - l)) lm L
                  (bool_decide (R <= r)) l) as (el & -> & Hel1 & Hel2 & Hel3 & Hel4 & Hel5);
        [lia|].
      destruct (skip_modified_spec (Z.to_nat (R - r)) rm R
                  (bool_decide (L <= el)) r) as (er & -> & Her1 & Her2 & Her3 & Her4 & Her5);
        [lia|].
      specialize (Hel2 ltac:(lia)). specialize (Her2 ltac:(lia)).
      assert (Hml : all_marked lm l el).
      { destruct (decide (R <= r)) as [HR|HR].
        - assert (Hz : unmarked_count lm l L = 0).
          { rewrite Hbal. apply unmarked_count_empty. lia. }
          intros i Hi. apply (unmarked_count_zero _ _ _ Hz). lia.
        - intros i Hi. destruct (Hel3 i Hi) as [Hs|Hs]; [|done].
          apply bool_decide_eq_true in Hs. lia. }
      assert (Hbl : unmarked_count lm el L = unmarked_count lm l L).
      { rewrite (unmarked_count_app lm l el L) by lia.
        rewrite (unmarked_count_all lm l el) by done. lia. }
      assert (Hmr : all_marked rm r er).
      { destruct (decide (L <= el)) as [HL|HL].
        - assert (Hz : unmarked_count rm r R = 0).
          { rewrite <- Hbal, <- Hbl. apply unmarked_count_empty. lia. }
          intros i Hi. apply (unmarked_count_zero _ _ _ Hz). lia.
        - intros i Hi. destruct (Her3 i Hi) as [Hs|Hs]; [|done].
          apply bool_decide_eq_true in Hs. lia. }
      assert (Hbr : unmarked_count rm er R = unmarked_count rm r R).
      { rewrite (unmarked_count_app rm r er R) by lia.
        rewrite (unmarked_count_all rm r er) by done. lia. }
      assert (Hprog : l < el \/ r < er).
      { apply orb_prop in Eg.
        destruct (decide (l < L)) as [HlL|HlL].
        - destruct (marked lm l) eqn:Em; [left; apply Hel5; auto|].
          destruct (decide (r < R)) as [HrR|HrR].
          + destruct (marked rm r) eqn:Em'; [right; apply Her5; auto|].
            exfalso. destruct (Z.ltb_spec l L), (Z.ltb_spec r R);
              first [lia|simpl in Ee; discriminate].
          + left. apply Hel5; [done|]. left. apply bool_decide_eq_true. lia.
        - assert (r < R) by (destruct Eg as [E|E]; apply Z.ltb_lt in E; lia).
          right. apply Her5; [done|]. left. apply bool_decide_eq_true. lia. }
      replace ((l <? el) || (r <? er)) with true.
      2:{ symmetry. apply orb_true_iff. destruct Hprog; [left|right];
            apply Z.ltb_lt; lia. }
      destruct (IH el er (callback (make_item L R l el r er) acc))
        as (qs & Hq & Hruns); [lia|lia|lia|congruence|].
      exists ((l, el, r, er) :: qs). split; [done|]. simpl.
      split; [lia|]. split; [lia|]. split; [intros i Hi; lia|].
      split; [intros i Hi; lia|]. split; [lia|]. split; [lia|].
      split; [done|]. split; [done|]. split; [done|].
      apply runs_strict; [done|].
      destruct (decide (el < L)) as [HeL|HeL]; [|right].
      * left. destruct (Hel4 HeL) as [Hs Hm].
        destruct (decide (er < R)) as [HeR|HeR].
        -- destruct (Her4 HeR) as [_ Hm']. done.
        -- exfalso. assert (er = R) by lia. subst er.
           rewrite (unmarked_count_empty rm R R) in Hbr by lia.
           rewrite (unmarked_count_cons lm el L) in Hbl by lia.
           rewrite Hm in Hbl. pose proof (unmarked_count_nonneg lm (el + 1) L).
           lia.
      * split; [lia|]. destruct (decide (er < R)) as [HeR|HeR]; [|lia].
        destruct (Her4 HeR) as [Hs _].
        apply bool_decide_eq_false in Hs. lia.
Qed.


(** ** What the shape [runs] says about the records *)

Definition quad_ok (lo_l lo_r : Z) (q : quad) : Prop :=
  let '(sl, el, sr, er) := q in
  lo_l <= sl /\ lo_r <= sr /\ sl <= el <= L /\ sr <= er <= R /\
  (sl < el \/ sr < er).

Lemma runs_quads g l r qs :
  0 <= g -> runs g l r qs -> Forall (quad_ok (l + g) (r + g)) qs.
Proof.
  revert g l r. induction qs as [|[[[sl el] sr] er] qs IH]; intros g l r Hg H.
  - constructor.
  - simpl in H. destruct H as (H1 & H2 & H3 & H4 & H5 & H6 & H7 & H8 & H9 & H10).
    constructor; [simpl; lia|].
    eapply Forall_impl; [apply (IH 1 el er); [lia|done]|].
    intros [[[sl' el'] sr'] er']; simpl. lia.
Qed.

Lemma item_lhs_del q : lhs_del (item_of q) = q.1.1.2 - q.1.1.1.
Proof. by destruct q as [[[sl el] sr] er]. Qed.

Lemma item_rhs_add q : rhs_add (item_of q) = q.2 - q.1.2.
Proof. by destruct q as [[[sl el] sr] er]. Qed.

Lemma item_lhs_at q :
  lhs_at (item_of q) = Z.min q.1.1.1 (if bool_decide (L = 0) then 0 else L - 1).
Proof. by destruct q as [[[sl el] sr] er]. Qed.

Lemma item_rhs_at q :
  rhs_at (item_of q) = Z.min q.1.2 (if bool_decide (R = 0) then 0 else R - 1).
Proof. by destruct q as [[[sl el] sr] er]. Qed.

Lemma item_covers_lhs sl el sr er i :
  0 <= sl <= el -> el <= L ->
  covers_lhs (item_of (sl, el, sr, er)) i = (sl <=? i) && (i <? el).
Proof.
  intros H1 H2. unfold covers_lhs. rewrite item_lhs_del, item_lhs_at. simpl.
  case_bool_decide;
    destruct (Z.leb_spec sl i), (Z.ltb_spec i el),
      (Z.leb_spec (Z.min sl 0) i), (Z.leb_spec (Z.min sl (L - 1)) i),
      (Z.ltb_spec i (Z.min sl 0 + (el - sl))),
      (Z.ltb_spec i (Z.min sl (L - 1) + (el - sl))); simpl; lia.
Qed.

Lemma item_covers_rhs sl el sr er i :
  0 <= sr <= er -> er <= R ->
  covers_rhs (item_of (sl, el, sr, er)) i = (sr <=? i) && (i <? er).
Proof.
  intros H1 H2. unfold covers_rhs. rewrite item_rhs_add, item_rhs_at. simpl.
  case_bool_decide;
    destruct (Z.leb_spec sr i), (Z.ltb_spec i er),
      (Z.leb_spec (Z.min sr 0) i), (Z.leb_spec (Z.min sr (R - 1)) i),
      (Z.ltb_spec i (Z.min sr 0 + (er - sr))),
      (Z.ltb_spec i (Z.min sr (R - 1) + (er - sr))); simpl; lia.
Qed.

Lemma runs_proper g l r qs :
  runs g l r qs -> Forall proper_change (item_of <$> qs).
Proof.
  revert g l r. induction qs as [|[[[sl el] sr] er] qs IH]; intros g l r H.
  - constructor.
  - simpl in H. destruct H as (H1 & H2 & H3 & H4 & H5 & H6 & H7 & H8 & H9 & H10).
    rewrite fmap_cons. constructor; [|by eapply IH].
    unfold proper_change. rewrite item_lhs_del, item_rhs_add. simpl. lia.
Qed.

(** A marked position lies in exactly one span, an unmarked one in
    none. *)
Lemma runs_cover_lhs g l r qs i :
  0 <= l -> 0 <= g -> runs g l r qs ->
  cover_count covers_lhs (item_of <$> qs) i
  = if (l <=? i) && (i <? L) && marked lm i then 1%nat else 0%nat.
Proof.
  revert g l r. induction qs as [|[[[sl el] sr] er] qs IH]; intros g l r Hl Hg H.
  - simpl in H. destruct H as (H1 & H2 & H3 & H4). unfold cover_count. simpl.
    destruct (Z.leb_spec l i), (Z.ltb_spec i L); simpl; try done.
    by rewrite H3 by lia.
  - simpl in H. destruct H as (H1 & H2 & H3 & H4 & H5 & H6 & H7 & H8 & H9 & H10).
    specialize (IH 1 el er ltac:(lia) ltac:(lia) H10).
    unfold cover_count in *. rewrite fmap_cons.
    pose proof (item_covers_lhs sl el sr er i ltac:(lia) ltac:(lia)) as Hc.
    destruct (Z.leb_spec sl i), (Z.ltb_spec i el).
    + rewrite filter_cons_True by (by rewrite Hc). simpl. rewrite IH.
      destruct (Z.leb_spec el i), (Z.leb_spec l i), (Z.ltb_spec i L); try lia.
      simpl. by rewrite H8 by lia.
    + rewrite filter_cons_False by (rewrite Hc; simpl; done). rewrite IH.
      destruct (Z.leb_spec el i), (Z.leb_spec l i), (Z.ltb_spec i L); try lia;
        done.
    + rewrite filter_cons_False by (rewrite Hc; simpl; done). rewrite IH.
      destruct (Z.leb_spec el i), (Z.leb_spec l i), (Z.ltb_spec i L); try lia;
        simpl; try done. by rewrite H3 by lia.
    + lia.
Qed.

Lemma runs_cover_rhs g l r qs i :
  0 <= r -> 0 <= g -> runs g l r qs ->
  cover_count covers_rhs (item_of <$> qs) i
  = if (r <=? i) && (i <? R) && marked rm i then 1%nat else 0%nat.
Proof.
  revert g l r. induction qs as [|[[[sl el] sr] er] qs IH]; intros g l r Hl Hg H.
  - simpl in H. destruct H as (H1 & H2 & H3 & H4). unfold cover_count. simpl.
    destruct (Z.leb_spec r i), (Z.ltb_spec i R); simpl; try done.
    by rewrite H4 by lia.
  - simpl in H. destruct H as (H1 & H2 & H3 & H4 & H5 & H6 & H7 & H8 & H9 & H10).
    specialize (IH 1 el er ltac:(lia) ltac:(lia) H10).
    unfold cover_count in *. rewrite fmap_cons.
    pose proof (item_covers_rhs sl el sr er i ltac:(lia) ltac:(lia)) as Hc.
    destruct (Z.leb_spec sr i), (Z.ltb_spec i er).
    + rewrite filter_cons_True by (by rewrite Hc). simpl. rewrite IH.
      destruct (Z.leb_spec er i), (Z.leb_spec r i), (Z.ltb_spec i R); try lia.
      simpl. by rewrite H9 by lia.
    + rewrite filter_cons_False by (rewrite Hc; simpl; done). rewrite IH.
      destruct (Z.leb_spec er i), (Z.leb_spec r i), (Z.ltb_spec i R); try lia;
        done.
    + rewrite filter_cons_False by (rewrite Hc; simpl; done). rewrite IH.
      destruct (Z.leb_spec er i), (Z.leb_spec r i), (Z.ltb_spec i R); try lia;
        simpl; try done. by rewrite H4 by lia.
    + lia.
Qed.

Lemma runs_sum_del g l r qs :
  l <= L -> 0 <= g -> runs g l r qs ->
  sum_del (item_of <$> qs) = (L - l) - unmarked_count lm l L.
Proof.
  revert g l r. induction qs as [|[[[sl el] sr] er] qs IH]; intros g l r Hl Hg H.
  - simpl in H. destruct H as (H1 & H2 & H3 & H4). simpl.
    rewrite unmarked_count_clear; [lia|lia|done].
  - simpl in H. destruct H as (H1 & H2 & H3 & H4 & H5 & H6 & H7 & H8 & H9 & H10).
    rewrite fmap_cons. simpl. rewrite (IH 1 el er) by (done || lia).
    rewrite (unmarked_count_app lm l sl L) by lia.
    rewrite (unmarked_count_app lm sl el L) by lia.
    rewrite (unmarked_count_clear lm l sl) by (done || lia).
    rewrite (unmarked_count_all lm sl el) by done. lia.
Qed.

Lemma runs_sum_add g l r qs :
  r <= R -> 0 <= g -> runs g l r qs ->
  sum_add (item_of <$> qs) = (R - r) - unmarked_count rm r R.
Proof.
  revert g l r. induction qs as [|[[[sl el] sr] er] qs IH]; intros g l r Hl Hg H.
  - simpl in H. destruct H as (H1 & H2 & H3 & H4). simpl.
    rewrite unmarked_count_clear; [lia|lia|done].
  - simpl in H. destruct H as (H1 & H2 & H3 & H4 & H5 & H6 & H7 & H8 & H9 & H10).
    rewrite fmap_cons. simpl. rewrite (IH 1 el er) by (done || lia).
    rewrite (unmarked_count_app rm r sr R) by lia.
    rewrite (unmarked_count_app rm sr er R) by lia.
    rewrite (unmarked_count_clear rm r sr) by (done || lia).
    rewrite (unmarked_count_all rm sr er) by done. lia.
Qed.

Lemma runs_sorted g l r qs :
  0 <= l -> 0 <= r -> 0 <= g -> runs g l r qs ->
  StronglySorted (before L R) (item_of <$> qs).
Proof.
  revert g l r. induction qs as [|[[[sl el] sr] er] qs IH]; intros g l r Hl Hr Hg H.
  - constructor.
  - simpl in H. destruct H as (H1 & H2 & H3 & H4 & H5 & H6 & H7 & H8 & H9 & H10).
    rewrite fmap_cons. constructor; [apply (IH 1 el er); (done || lia)|].
    apply Forall_fmap.
    eapply Forall_impl; [apply (runs_quads 1 el er); [lia|done]|].
    intros [[[sl' el'] sr'] er'] Hq. simpl in Hq. unfold before.
    rewrite !item_lhs_del, !item_rhs_add, !item_lhs_at, !item_rhs_at. simpl.
    repeat case_bool_decide; lia.
Qed.

End CompareProof.


(** * The encoder *)

(** The encoder's table is well formed: the codes handed out are
    [1 .. enc_code], no two keys share a code, and no inherited property
    name is an own key. *)
Record encoder_wf (e : Encoder) : Prop := {
  wf_nonneg : 0 <= enc_code e;
  wf_range : forall k n, diff_codes e !! k = Some n -> 1 <= n <= enc_code e;
  wf_inj : forall k1 k2 n,
    diff_codes e !! k1 = Some n -> diff_codes e !! k2 = Some n -> k1 = k2;
  wf_own : forall k, k ∈ object_prototype_keys -> diff_codes e !! k = None
}.

Lemma Encoder_new_wf : encoder_wf Encoder_new.
Proof. split; simpl; intros; try done; by rewrite lookup_empty in *. Qed.

Lemma getCode_None e k :
  getCode e k = None -> diff_codes e !! k = None /\ k ∉ object_prototype_keys.
Proof.
  unfold getCode. destruct (diff_codes e !! k); [done|].
  case_bool_decide; [done|]. done.
Qed.

Lemma getCode_CNum e k n :
  getCode e k = Some (CNum n) <-> diff_codes e !! k = Some n.
Proof.
  unfold getCode. destruct (diff_codes e !! k) as [m|].
  - split; congruence.
  - case_bool_decide; split; congruence.
Qed.

Lemma getCode_CInherited e k name :
  encoder_wf e ->
  getCode e k = Some (CInherited name) <-> k = name /\ k ∈ object_prototype_keys.
Proof.
  intros Hwf. unfold getCode.
  destruct (diff_codes e !! k) as [m|] eqn:E.
  - split; [done|]. intros [_ Hk]. rewrite (wf_own e Hwf k Hk) in E. done.
  - case_bool_decide as Hk; split.
    + by intros [= <-].
    + by intros [-> _].
    + done.
    + by intros [_ ?].
Qed.

(** Two keys get the same code exactly when they are the same key. *)
Lemma getCode_inj e k1 k2 c :
  encoder_wf e -> getCode e k1 = Some c -> getCode e k2 = Some c -> k1 = k2.
Proof.
  intros Hwf H1 H2. destruct c as [n|name].
  - apply getCode_CNum in H1, H2. by eapply wf_inj.
  - apply getCode_CInherited in H1 as [-> _]; [|done].
    apply getCode_CInherited in H2 as [-> _]; done.
Qed.

Lemma newCode_wf e line :
  encoder_wf e -> getCode e line = None -> encoder_wf (newCode e line).2.
Proof.
  intros Hwf Hnone. apply getCode_None in Hnone as [Hown Hproto].
  pose proof (wf_nonneg e Hwf). unfold newCode; simpl. split; simpl.
  - lia.
  - intros k n. rewrite lookup_insert. case_decide.
    + intros [= <-]. lia.
    + intros Hk. pose proof (wf_range e Hwf k n Hk). lia.
  - intros k1 k2 n. rewrite !lookup_insert. repeat case_decide; subst.
    + done.
    + intros [= <-] Hk. pose proof (wf_range e Hwf k2 _ Hk). lia.
    + intros Hk [= <-]. pose proof (wf_range e Hwf k1 _ Hk). lia.
    + apply (wf_inj e Hwf).
  - intros k Hk. rewrite lookup_insert_ne by congruence. by apply (wf_own e Hwf).
Qed.

Lemma newCode_getCode e line k c :
  getCode e line = None -> getCode e k = Some c ->
  getCode (newCode e line).2 k = Some c.
Proof.
  intros Hnone Hk. assert (line <> k) by congruence.
  unfold getCode, newCode in *; simpl. by rewrite lookup_insert_ne.
Qed.

Lemma newCode_getCode_eq e line :
  getCode (newCode e line).2 line = Some (CNum (newCode e line).1).
Proof. unfold getCode, newCode; simpl. by rewrite lookup_insert_eq. Qed.

Lemma init_loop_cons strip ws e l lines :
  init_loop strip ws e (l :: lines)
  = let line := if ws then strip l else l in
    match getCode e line with
    | Some aCode =>
        let r := init_loop strip ws e lines in (aCode :: r.1, r.2)
    | None =>
        let r := init_loop strip ws (newCode e line).2 lines in
        (CNum (newCode e line).1 :: r.1, r.2)
    end.
Proof.
  simpl. destruct (getCode e (if ws then strip l else l)).
  - by destruct (init_loop strip ws e lines).
  - by destruct (init_loop strip ws _ lines).
Qed.

(** The loop of [_init] keeps the table well formed and the codes
    already handed out, and the code stored for each line is the code
    the final table gives for it. *)
Lemma init_loop_spec strip ws e lines :
  encoder_wf e ->
  encoder_wf (init_loop strip ws e lines).2 /\
  (forall k c, getCode e k = Some c ->
               getCode (init_loop strip ws e lines).2 k = Some c) /\
  Forall2 (fun l c => getCode (init_loop strip ws e lines).2
                        (if ws then strip l else l) = Some c)
    lines (init_loop strip ws e lines).1.
Proof.
  revert e. induction lines as [|l lines IH]; intros e Hwf.
  - simpl. split; [done|]. split; [done|constructor].
  - rewrite init_loop_cons. cbv zeta.
    set (line := if ws then strip l else l).
    destruct (getCode e line) as [aCode|] eqn:Ec; simpl.
    + destruct (IH e Hwf) as (Hwf1 & Hmono & Hall).
      split; [done|]. split; [done|]. constructor; [|done]. by apply Hmono.
    + destruct (IH (newCode e line).2) as (Hwf1 & Hmono & Hall).
      { by apply newCode_wf. }
      split; [done|]. split; [|constructor; [|done]].
      * intros k c' Hk. apply Hmono. by apply newCode_getCode.
      * apply Hmono. apply newCode_getCode_eq.
Qed.

Lemma init_loop_length strip ws e lines :
  length (init_loop strip ws e lines).1 = length lines.
Proof.
  revert e. induction lines as [|l lines IH]; intros e; [done|].
  rewrite init_loop_cons. cbv zeta.
  destruct (getCode e (if ws then strip l else l)); simpl; by rewrite IH.
Qed.

(** [getLine] finds the key of a code: the key under which the line was
    interned. *)
Lemma key_of_code_spec (m : gmap string Z) k n :
  (forall k1 k2 n, m !! k1 = Some n -> m !! k2 = Some n -> k1 = k2) ->
  m !! k = Some n -> key_of_code m (CNum n) = Some k.
Proof.
  intros Hinj Hk. unfold key_of_code.
  destruct (List.find (fun kv => bool_decide (kv.2 = n)) (map_to_list m))
    as [[k' n']|] eqn:Ef.
  - apply List.find_some in Ef as [Hin Heq]. simpl in Heq.
    apply bool_decide_eq_true in Heq. subst n'.
    apply list_elem_of_In, elem_of_map_to_list in Hin. simpl. f_equal.
    by eapply Hinj.
  - exfalso. assert (Hin : In (k, n) (map_to_list m)).
    { apply list_elem_of_In, elem_of_map_to_list. done. }
    pose proof (List.find_none _ _ Ef (k, n) Hin) as Hf. simpl in Hf.
    by apply bool_decide_eq_false in Hf.
Qed.

(** ** Numbering in first-seen order *)

(** The place of [t] among the distinct tokens seen so far. *)
Fixpoint index_of (t : string) (seen : list string) : option nat :=
  match seen with
  | [] => None
  | s :: rest => if bool_decide (s = t) then Some O else S <$> index_of t rest
  end.

(** The numbering the specification describes: a token seen before
    keeps the number it got, a new one gets the next integer, from 1.
    The result is the numbers of [ts] and the tokens seen after them. *)
Fixpoint first_seen (seen ts : list string) : list Z * list string :=
  match ts with
  | [] => ([], seen)
  | t :: rest =>
      match index_of t seen with
      | Some i =>
          let r := first_seen seen rest in (Z.of_nat (S i) :: r.1, r.2)
      | None =>
          let r := first_seen (seen ++ [t]) rest in
          (Z.of_nat (S (length seen)) :: r.1, r.2)
      end
  end.

(** The encoder's table holds the first-seen numbering of [seen]. *)
Definition table_of (e : Encoder) (seen : list string) : Prop :=
  enc_code e = Z.of_nat (length seen) /\
  forall k, diff_codes e !! k = (fun i => Z.of_nat (S i)) <$> index_of k seen.

Lemma index_of_app_other k t seen :
  k <> t -> index_of k (seen ++ [t]) = index_of k seen.
Proof.
  intros Hne. induction seen as [|s seen IH]; simpl.
  - by rewrite bool_decide_eq_false_2 by congruence.
  - case_bool_decide; [done|]. by rewrite IH.
Qed.

Lemma index_of_app_fresh t seen :
  index_of t seen = None -> index_of t (seen ++ [t]) = Some (length seen).
Proof.
  induction seen as [|s seen IH]; simpl.
  - intros _. by rewrite bool_decide_eq_true_2.
  - case_bool_decide; [done|]. destruct (index_of t seen); [done|].
    intros _. by rewrite IH.
Qed.

Lemma table_of_new : table_of Encoder_new [].
Proof. split; [done|]. intros k. simpl. by rewrite lookup_empty. Qed.

Lemma table_of_newCode e seen t :
  table_of e seen -> index_of t seen = None ->
  table_of (newCode e t).2 (seen ++ [t]).
Proof.
  intros [Hc Ht] Hn. split; simpl.
  - rewrite Hc, length_app. simpl. lia.
  - intros k. rewrite lookup_insert. case_decide as Hk.
    + subst k. rewrite index_of_app_fresh by done. simpl. f_equal. lia.
    + rewrite index_of_app_other by congruence. apply Ht.
Qed.

(** On tokens none of which names an inherited property, the loop of
    [_init] computes the first-seen numbering. *)
Lemma init_loop_first_seen (strip : string -> string) (ws : bool) e seen
    (lines : list string) :
  table_of e seen ->
  Forall (fun l => (if ws then strip l else l) ∉ object_prototype_keys) lines ->
  (init_loop strip ws e lines).1
  = CNum <$> (first_seen seen ((fun l => if ws then strip l else l) <$> lines)).1 /\
  table_of (init_loop strip ws e lines).2
    (first_seen seen ((fun l => if ws then strip l else l) <$> lines)).2.
Proof.
  revert e seen. induction lines as [|l lines IH]; intros e seen Ht Hall.
  - done.
  - apply Forall_cons in Hall as [Hl Hall].
    rewrite init_loop_cons, fmap_cons. cbv zeta. simpl first_seen.
    set (line := if ws then strip l else l) in *.
    unfold getCode. destruct Ht as [Hc Hk]. rewrite Hk.
    destruct (index_of line seen) as [i|] eqn:Ei.
    + destruct (IH e seen (conj Hc Hk) Hall) as [H1 H2]. simpl. by rewrite H1.
    + destruct (IH (newCode e line).2 (seen ++ [line])
                  (table_of_newCode e seen line (conj Hc Hk) Ei) Hall) as [H1 H2].
      cbn [fmap option_fmap option_map]. rewrite bool_decide_eq_false_2 by done.
      cbn [fst snd]. rewrite H1. split; [|done].
      rewrite fmap_cons. do 2 f_equal. unfold newCode. simpl. lia.
Qed.

Lemma first_seen_app seen a b :
  first_seen seen (a ++ b)
  = ((first_seen seen a).1 ++ (first_seen (first_seen seen a).2 b).1,
     (first_seen (first_seen seen a).2 b).2).
Proof.
  revert seen. induction a as [|t a IH]; intros seen; simpl.
  - by destruct (first_seen seen b).
  - destruct (index_of t seen); simpl; by rewrite IH.
Qed.


(** * The whole comparison *)

(** [s] is a longest common subsequence of [l1] and [l2]. *)
Definition is_lcs (s l1 l2 : list code) : Prop :=
  common s l1 l2 /\ forall t, common t l1 l2 -> (length t <= length s)%nat.

Lemma marked_empty i : marked ∅ i = false.
Proof. unfold marked. by rewrite lookup_empty. Qed.

(** [LCS] on fresh marker objects returns, and the unmarked items of the
    two sides are one longest common subsequence. *)
Lemma LCS_spec (A B : list code) :
  exists lm rm,
    LCS ∅ A (Z.of_nat (length A)) ∅ B (Z.of_nat (length B)) = Ok (lm, rm) /\
    unmarked lm A 0 (Z.of_nat (length A)) = unmarked rm B 0 (Z.of_nat (length B)) /\
    is_lcs (unmarked lm A 0 (Z.of_nat (length A))) A B.
Proof.
  unfold LCS.
  destruct (getLongestCommonSubsequence_spec A B
              (Z.of_nat (length A)) (Z.of_nat (length B))
              (S (Z.to_nat (Z.of_nat (length A)) + Z.to_nat (Z.of_nat (length B))))
              0 (Z.of_nat (length A)) 0 (Z.of_nat (length B))
              {| lhs_modified := ∅; rhs_modified := ∅;
                 vector_u := ∅; vector_d := ∅ |})
    as (w & Hw & _ & _ & Heq & Hmax); [lia..| | |].
  { intros i _. apply marked_empty. }
  { intros i _. apply marked_empty. }
  rewrite Hw. simpl. exists (lhs_modified w), (rhs_modified w).
  split; [done|]. split; [done|]. rewrite !slice_full in Hmax.
  pose proof (unmarked_sublist (lhs_modified w) A 0 (Z.of_nat (length A))
                ltac:(lia) ltac:(lia)) as Ha.
  pose proof (unmarked_sublist (rhs_modified w) B 0 (Z.of_nat (length B))
                ltac:(lia) ltac:(lia)) as Hb.
  rewrite slice_full in Ha, Hb. rewrite <- Heq in Hb. by split.
Qed.

Lemma optimize_identity ctx : optimize ctx = Ok ctx.
Proof. by destruct ctx. Qed.

Lemma emit_push lctx rctx L R acc qs :
  emit L R (push_item lctx rctx) acc qs
  = match qs with
    | [] => acc
    | _ => Some (default [] acc ++ (add_context lctx rctx <$> (item_of L R <$> qs)))
    end.
Proof.
  revert acc. induction qs as [|q qs IH]; intros acc; [done|].
  unfold emit in *. simpl. rewrite IH. unfold push_item.
  destruct qs as [|q' qs]; simpl; [done|]. by rewrite <- app_assoc.
Qed.

(** Adding the contexts does not change what a record says. *)
Lemma cover_count_lhs_context lctx rctx cs i :
  cover_count covers_lhs (add_context lctx rctx <$> cs) i
  = cover_count covers_lhs cs i.
Proof.
  unfold cover_count. induction cs as [|c cs IH]; [done|].
  rewrite fmap_cons, !filter_cons. change (covers_lhs (add_context lctx rctx c) i)
    with (covers_lhs c i). case_decide; simpl; by rewrite IH.
Qed.

Lemma cover_count_rhs_context lctx rctx cs i :
  cover_count covers_rhs (add_context lctx rctx <$> cs) i
  = cover_count covers_rhs cs i.
Proof.
  unfold cover_count. induction cs as [|c cs IH]; [done|].
  rewrite fmap_cons, !filter_cons. change (covers_rhs (add_context lctx rctx c) i)
    with (covers_rhs c i). case_decide; simpl; by rewrite IH.
Qed.

Lemma sum_del_context lctx rctx cs :
  sum_del (add_context lctx rctx <$> cs) = sum_del cs.
Proof.
  unfold sum_del. induction cs as [|c cs IH]; [done|].
  rewrite fmap_cons. simpl. by rewrite IH.
Qed.

Lemma sum_add_context lctx rctx cs :
  sum_add (add_context lctx rctx <$> cs) = sum_add cs.
Proof.
  unfold sum_add. induction cs as [|c cs IH]; [done|].
  rewrite fmap_cons. simpl. by rewrite IH.
Qed.

Lemma proper_context lctx rctx cs :
  Forall proper_change cs -> Forall proper_change (add_context lctx rctx <$> cs).
Proof. intros H. apply Forall_fmap. eapply Forall_impl; [exact H|]. by intros c. Qed.

Lemma sorted_context L R lctx rctx cs :
  StronglySorted (before L R) cs ->
  StronglySorted (before L R) (add_context lctx rctx <$> cs).
Proof.
  induction 1 as [|c cs Hs IH Hall]; [constructor|].
  rewrite fmap_cons. constructor; [done|].
  apply Forall_fmap. eapply Forall_impl; [exact Hall|]. by intros c'.
Qed.

Lemma filter_interval_length (P Q : Z -> Prop)
    `{!forall i, Decision (P i)} `{!forall i, Decision (Q i)} a c :
  (forall i, a <= i < c -> (P i <-> Q i)) ->
  length (filter P (seqZ a (c - a))) = length (filter Q (seqZ a (c - a))).
Proof.
  intros Hpq. remember (Z.to_nat (c - a)) as n eqn:En. revert a Hpq En.
  induction n as [|n IH]; intros a Hpq En.
  - by rewrite seqZ_nil by lia.
  - rewrite seqZ_cons by lia.
    replace (Z.pred (c - a)) with (c - (a + 1)) by lia.
    replace (Z.succ a) with (a + 1) by lia.
    rewrite !filter_cons. specialize (IH (a + 1)).
    destruct (decide (P a)) as [Hp|Hp], (decide (Q a)) as [Hq|Hq]; simpl.
    + f_equal. apply IH; [intros; apply Hpq|]; lia.
    + exfalso. apply Hq, Hpq; [lia|done].
    + exfalso. apply Hp, Hpq; [lia|done].
    + apply IH; [intros; apply Hpq|]; lia.
Qed.

(** The uncovered positions are as many as the unmarked ones when the
    spans cover the marked positions and nothing else. *)
Lemma uncovered_length cov cs m len :
  (forall i, 0 <= i < len ->
     cover_count cov cs i = if marked m i then 1%nat else 0%nat) ->
  Z.of_nat (length (uncovered cov cs len)) = unmarked_count m 0 len.
Proof.
  intros H. unfold uncovered, unmarked_count. f_equal.
  rewrite <- (Z.sub_0_r len) at 1. apply filter_interval_length.
  intros i Hi. rewrite (H i Hi). by destruct (marked m i).
Qed.

Lemma unmarked_count_le m a c : a <= c -> unmarked_count m a c <= c - a.
Proof.
  intros Hac. remember (Z.to_nat (c - a)) as n eqn:En. revert a Hac En.
  induction n as [|n IH]; intros a Hac En.
  - rewrite unmarked_count_empty; lia.
  - rewrite unmarked_count_cons by lia. specialize (IH (a + 1) ltac:(lia) ltac:(lia)).
    destruct (marked m a); lia.
Qed.

Lemma unmarked_count_full m a c :
  a <= c -> unmarked_count m a c = c - a -> clear m a c.
Proof.
  intros Hac H i Hi. remember (Z.to_nat (c - a)) as n eqn:En.
  revert a Hac H Hi En. induction n as [|n IH]; intros a Hac H Hi En; [lia|].
  rewrite unmarked_count_cons in H by lia.
  pose proof (unmarked_count_le m (a + 1) c ltac:(lia)).
  destruct (decide (i = a)) as [->|Hne].
  - destruct (marked m a); [lia|done].
  - apply (IH (a + 1)); [lia|destruct (marked m a); lia|lia|lia].
Qed.

(** Without a marked position there is no record. *)
Lemma runs_clear lm rm L R g l r qs :
  runs lm rm L R g l r qs -> clear lm l L -> clear rm r R -> 0 <= g -> qs = [].
Proof.
  intros H Hl Hr Hg. destruct qs as [|[[[sl el] sr] er] qs]; [done|exfalso].
  simpl in H. destruct H as (H1 & H2 & H3 & H4 & H5 & H6 & H7 & H8 & H9 & H10).
  destruct H7 as [H7|H7].
  - specialize (H8 sl ltac:(lia)). rewrite Hl in H8 by lia. done.
  - specialize (H9 sr ltac:(lia)). rewrite Hr in H9 by lia. done.
Qed.

(** With an empty left side, all of the right side is one insertion;
    and the other way round. *)
Lemma runs_left_empty lm rm R qs :
  0 < R -> runs lm rm 0 R 0 0 0 qs -> qs = [(0, 0, 0, R)].
Proof.
  intros HR H. destruct qs as [|[[[sl el] sr] er] qs]; simpl in H.
  - lia.
  - destruct H as (H1 & H2 & H3 & H4 & H5 & H6 & H7 & H8 & H9 & H10).
    assert (sl = 0) by lia. assert (el = 0) by lia. assert (sr = 0) by lia.
    subst. destruct qs as [|[[[sl' el'] sr'] er'] qs]; simpl in H10.
    + assert (er = R) by lia. by subst.
    + lia.
Qed.

Lemma runs_right_empty lm rm L qs :
  0 < L -> runs lm rm L 0 0 0 0 qs -> qs = [(0, L, 0, 0)].
Proof.
  intros HL H. destruct qs as [|[[[sl el] sr] er] qs]; simpl in H.
  - lia.
  - destruct H as (H1 & H2 & H3 & H4 & H5 & H6 & H7 & H8 & H9 & H10).
    assert (sr = 0) by lia. assert (er = 0) by lia. assert (sl = 0) by lia.
    subst. destruct qs as [|[[[sl' el'] sr'] er'] qs]; simpl in H10.
    + assert (el = L) by lia. by subst.
    + lia.
Qed.

Section DiffProof.

Variable regex_split : string -> string -> list string.
Variable strip : string -> string.

(** The settings in force, the tokens of a text, and the form of a
    token that is interned. *)
Definition settings_of (options : Options) : Settings :=
  assign _getDefaultSettings options.

Definition tokens (text : js_text) (options : Options) : list string :=
  split_text regex_split text (settings_of options).

Definition normalize (options : Options) (l : string) : string :=
  if ignoreWhitespace (settings_of options) then strip l else l.

(** The two contexts as [diff] builds them, before [LCS] runs. *)
Definition lhs_encoded (lhs : js_text) (options : Options) : EncodeContext :=
  encode regex_split strip Encoder_new lhs (settings_of options).

Definition rhs_encoded (lhs rhs : js_text) (options : Options) : EncodeContext :=
  encode regex_split strip (encoder (lhs_encoded lhs options)) rhs
    (settings_of options).

(** The two contexts as the change records hold them. *)
Definition lhs_final (lhs rhs : js_text) (options : Options)
    (lm : gmap Z bool) : EncodeContext :=
  {| encoder := encoder (rhs_encoded lhs rhs options);
     _codes := _codes (lhs_encoded lhs options);
     _modified := lm |}.

Definition rhs_final (lhs rhs : js_text) (options : Options)
    (rm : gmap Z bool) : EncodeContext :=
  {| encoder := encoder (rhs_encoded lhs rhs options);
     _codes := _codes (rhs_encoded lhs rhs options);
     _modified := rm |}.

Lemma lhs_encoded_modified lhs options : _modified (lhs_encoded lhs options) = ∅.
Proof.
  unfold lhs_encoded, encode, EncodeContext_new, _init.
  by destruct (init_loop _ _ _ _).
Qed.

Lemma rhs_encoded_modified lhs rhs options :
  _modified (rhs_encoded lhs rhs options) = ∅.
Proof.
  unfold rhs_encoded, encode, EncodeContext_new, _init.
  by destruct (init_loop _ _ _ _).
Qed.

(** A comparison of two given texts runs to its end; its records are
    what [compare_lcs] reads off the markers [LCS] has set. *)
Lemma diff_run lhs rhs options :
  lhs <> JUndefined -> rhs <> JUndefined ->
  exists lm rm qs,
    LCS ∅ (_codes (lhs_encoded lhs options)) (ctx_length (lhs_encoded lhs options))
        ∅ (_codes (rhs_encoded lhs rhs options))
        (ctx_length (rhs_encoded lhs rhs options)) = Ok (lm, rm) /\
    unmarked lm (_codes (lhs_encoded lhs options)) 0
      (ctx_length (lhs_encoded lhs options))
    = unmarked rm (_codes (rhs_encoded lhs rhs options)) 0
        (ctx_length (rhs_encoded lhs rhs options)) /\
    is_lcs (unmarked lm (_codes (lhs_encoded lhs options)) 0
              (ctx_length (lhs_encoded lhs options)))
           (_codes (lhs_encoded lhs options))
           (_codes (rhs_encoded lhs rhs options)) /\
    runs lm rm (ctx_length (lhs_encoded lhs options))
         (ctx_length (rhs_encoded lhs rhs options)) 0 0 0 qs /\
    diff regex_split strip lhs rhs options
    = Ok (add_context (lhs_final lhs rhs options lm) (rhs_final lhs rhs options rm)
          <$> (item_of (ctx_length (lhs_encoded lhs options))
                       (ctx_length (rhs_encoded lhs rhs options)) <$> qs)).
Proof.
  intros Hl Hr.
  set (lctx := lhs_encoded lhs options). set (rctx := rhs_encoded lhs rhs options).
  destruct (LCS_spec (_codes lctx) (_codes rctx)) as (lm & rm & HLCS & Heq & Hlcs).
  fold (ctx_length lctx) in *. fold (ctx_length rctx) in *.
  assert (Hbal : unmarked_count lm 0 (ctx_length lctx)
                 = unmarked_count rm 0 (ctx_length rctx)).
  { rewrite <- (unmarked_length lm (_codes lctx)), <- (unmarked_length rm (_codes rctx))
      by (unfold ctx_length; lia). by rewrite Heq. }
  destruct (compare_loop_spec lm rm (ctx_length lctx) (ctx_length rctx)
              (push_item (lhs_final lhs rhs options lm) (rhs_final lhs rhs options rm))
              (Z.to_nat (ctx_length lctx) + Z.to_nat (ctx_length rctx)) 0 0 None)
    as (qs & Hcmp & Hruns); [unfold ctx_length; lia..|done|].
  exists lm, rm, qs. split; [done|]. split; [done|]. split; [done|].
  split; [done|].
  assert (Hd : diff regex_split strip lhs rhs options
               = '(lm, rm) ← LCS (_modified lctx) (_codes lctx) (ctx_length lctx)
                                 (_modified rctx) (_codes rctx) (ctx_length rctx);
                 lhsCtx ← optimize (lhs_final lhs rhs options lm);
                 rhsCtx ← optimize (rhs_final lhs rhs options rm);
                 items ← CompareLCS (_modified lhsCtx) (ctx_length lhsCtx)
                           (_modified rhsCtx) (ctx_length rhsCtx)
                           (push_item lhsCtx rhsCtx) None;
                 match items with None => Ok [] | Some l => Ok l end).
  { unfold diff. destruct lhs, rhs; try done. }
  rewrite Hd. unfold lctx at 1, rctx at 1.
  rewrite lhs_encoded_modified, rhs_encoded_modified. fold lctx rctx.
  rewrite HLCS. cbn [mbind result_bind]. rewrite !optimize_identity.
  cbn [mbind result_bind]. unfold CompareLCS, compare_lcs.
  change (ctx_length (lhs_final lhs rhs options lm)) with (ctx_length lctx).
  change (ctx_length (rhs_final lhs rhs options rm)) with (ctx_length rctx).
  cbn [_modified lhs_final rhs_final].
  rewrite Hcmp. cbn [mbind result_bind]. rewrite emit_push. by destruct qs.
Qed.


(** ** What the contexts hold *)

Lemma lhs_encoded_codes lhs options :
  _codes (lhs_encoded lhs options)
  = (init_loop strip (ignoreWhitespace (settings_of options)) Encoder_new
       (tokens lhs options)).1.
Proof.
  unfold lhs_encoded, encode, EncodeContext_new, _init, tokens.
  by destruct (init_loop _ _ _ _).
Qed.

Lemma lhs_encoded_encoder lhs options :
  encoder (lhs_encoded lhs options)
  = (init_loop strip (ignoreWhitespace (settings_of options)) Encoder_new
       (tokens lhs options)).2.
Proof.
  unfold lhs_encoded, encode, EncodeContext_new, _init, tokens.
  by destruct (init_loop _ _ _ _).
Qed.

Lemma rhs_encoded_codes lhs rhs options :
  _codes (rhs_encoded lhs rhs options)
  = (init_loop strip (ignoreWhitespace (settings_of options))
       (encoder (lhs_encoded lhs options)) (tokens rhs options)).1.
Proof.
  unfold rhs_encoded, encode, EncodeContext_new, _init, tokens.
  by destruct (init_loop _ _ (encoder _) _).
Qed.

Lemma rhs_encoded_encoder lhs rhs options :
  encoder (rhs_encoded lhs rhs options)
  = (init_loop strip (ignoreWhitespace (settings_of options))
       (encoder (lhs_encoded lhs options)) (tokens rhs options)).2.
Proof.
  unfold rhs_encoded, encode, EncodeContext_new, _init, tokens.
  by destruct (init_loop _ _ (encoder _) _).
Qed.

Lemma lhs_encoded_length lhs options :
  ctx_length (lhs_encoded lhs options) = Z.of_nat (length (tokens lhs options)).
Proof.
  unfold ctx_length. by rewrite lhs_encoded_codes, init_loop_length.
Qed.

Lemma rhs_encoded_length lhs rhs options :
  ctx_length (rhs_encoded lhs rhs options) = Z.of_nat (length (tokens rhs options)).
Proof.
  unfold ctx_length. by rewrite rhs_encoded_codes, init_loop_length.
Qed.

Lemma lhs_encoder_wf lhs options : encoder_wf (encoder (lhs_encoded lhs options)).
Proof.
  rewrite lhs_encoded_encoder. apply init_loop_spec, Encoder_new_wf.
Qed.

Lemma rhs_encoder_wf lhs rhs options :
  encoder_wf (encoder (rhs_encoded lhs rhs options)).
Proof.
  rewrite rhs_encoded_encoder. apply init_loop_spec, lhs_encoder_wf.
Qed.

(** Every code stored on either side is the code the shared table
    finally gives for the interned form of the token. *)
Lemma codes_of_tokens lhs rhs options :
  Forall2 (fun t c => getCode (encoder (rhs_encoded lhs rhs options))
                        (normalize options t) = Some c)
    (tokens lhs options) (_codes (lhs_encoded lhs options)) /\
  Forall2 (fun t c => getCode (encoder (rhs_encoded lhs rhs options))
                        (normalize options t) = Some c)
    (tokens rhs options) (_codes (rhs_encoded lhs rhs options)).
Proof.
  pose proof (init_loop_spec strip (ignoreWhitespace (settings_of options))
                Encoder_new (tokens lhs options) Encoder_new_wf) as (_ & _ & Hl).
  pose proof (init_loop_spec strip (ignoreWhitespace (settings_of options))
                (encoder (lhs_encoded lhs options)) (tokens rhs options)
                (lhs_encoder_wf lhs options)) as (_ & Hmono & Hr).
  rewrite <- lhs_encoded_codes, <- lhs_encoded_encoder in Hl.
  rewrite <- rhs_encoded_codes, <- rhs_encoded_encoder in Hr.
  rewrite <- rhs_encoded_encoder in Hmono.
  split; [|exact Hr].
  eapply Forall2_impl; [exact Hl|]. intros t c Hc. by apply Hmono.
Qed.

Lemma Forall2_functional {X Y} (f : X -> option Y) (l : list X) (k1 k2 : list Y) :
  Forall2 (fun x y => f x = Some y) l k1 ->
  Forall2 (fun x y => f x = Some y) l k2 -> k1 = k2.
Proof.
  intros H1. revert k2. induction H1 as [|x y l k1 Hxy _ IH]; intros k2 H2.
  - by inversion H2.
  - inversion H2 as [|x' y' l' k2' Hxy' H2']; subst. f_equal; [congruence|auto].
Qed.

(** Equal texts are encoded by equal code sequences. *)
Lemma same_text_same_codes x options :
  _codes (rhs_encoded x x options) = _codes (lhs_encoded x options).
Proof.
  destruct (codes_of_tokens x x options) as [Hl Hr].
  symmetry.
  exact (Forall2_functional
           (fun t => getCode (encoder (rhs_encoded x x options)) (normalize options t))
           _ _ _ Hl Hr).
Qed.

End DiffProof.

(** * The comparison in terms of tokens *)

(** The interned forms of the tokens of a text, in order. *)
Definition interned (regex_split : string -> string -> list string)
    (strip : string -> string) (text : js_text) (options : Options) : list string :=
  normalize strip options <$> tokens regex_split text options.

(** What a context stores for an interned token: the code the shared
    table gives for it. *)
Definition code_of (e : Encoder) (t : string) : code :=
  default (CInherited EmptyString) (getCode e t).

(** The tokens of a side at the positions no record covers, in
    increasing position order. *)
Definition kept (cov : Change -> Z -> bool) (cs : list Change)
    (toks : list string) : list string :=
  omap (fun i => toks !! Z.to_nat i) (uncovered cov cs (Z.of_nat (length toks))).

(** [s] is a longest common subsequence of the token lists [l1] and
    [l2]. *)
Definition longest_common (s l1 l2 : list string) : Prop :=
  s `sublist_of` l1 /\ s `sublist_of` l2 /\
  forall t, t `sublist_of` l1 -> t `sublist_of` l2 -> (length t <= length s)%nat.

Lemma Forall2_fmap_default {X Y} (g : X -> option Y) (d : Y) (l : list X) (k : list Y) :
  Forall2 (fun t c => g t = Some c) l k -> k = (fun t => default d (g t)) <$> l.
Proof.
  induction 1 as [|t c l k Htc _ IH]; [done|].
  rewrite fmap_cons, Htc. simpl. by rewrite IH.
Qed.

Lemma code_of_inj e t1 t2 :
  encoder_wf e -> is_Some (getCode e t1) -> is_Some (getCode e t2) ->
  code_of e t1 = code_of e t2 -> t1 = t2.
Proof.
  intros Hwf [c1 H1] [c2 H2]. unfold code_of. rewrite H1, H2. simpl.
  intros <-. by eapply getCode_inj.
Qed.

(** A map that is injective on the members of two lists reflects
    equality and the sublist order. *)
Lemma fmap_inj_on {X Y} (f : X -> Y) (D : X -> Prop) (a b : list X) :
  (forall x y, D x -> D y -> f x = f y -> x = y) ->
  Forall D a -> Forall D b -> f <$> a = f <$> b -> a = b.
Proof.
  intros Hinj Ha. revert b. induction Ha as [|x a Hx _ IH]; intros b Hb Heq.
  - destruct b; [done|discriminate].
  - destruct Hb as [|y b Hy Hb]; [discriminate|].
    simpl in Heq. injection Heq as Hxy Heq.
    f_equal; [by apply Hinj|by apply IH].
Qed.

Lemma sublist_fmap_inj_on {X Y} (f : X -> Y) (D : X -> Prop) (a b : list X) :
  (forall x y, D x -> D y -> f x = f y -> x = y) ->
  Forall D a -> Forall D b -> (f <$> a) `sublist_of` (f <$> b) -> a `sublist_of` b.
Proof.
  intros Hinj Ha Hb. revert a Ha. induction Hb as [|y b Hy _ IH]; intros a Ha Hs.
  - apply sublist_nil_r in Hs. destruct a; [done|discriminate].
  - rewrite fmap_cons in Hs. apply sublist_cons_r in Hs as [Hs|(k & Hk & Hs)].
    + apply sublist_cons. by apply IH.
    + destruct Ha as [|x a Hx Ha]; [discriminate|].
      simpl in Hk. injection Hk as Hxy <-.
      apply Hinj in Hxy as ->; [|done..]. apply sublist_skip. by apply IH.
Qed.

Lemma omap_lookup_take (toks : list string) (n : nat) :
  (n <= length toks)%nat ->
  omap (fun i => toks !! Z.to_nat i) (seqZ 0 (Z.of_nat n)) = take n toks.
Proof.
  induction n as [|n IH]; intros Hn; [done|].
  rewrite Nat2Z.inj_succ, <- Z.add_1_r.
  rewrite (seqZ_app 0 (Z.of_nat n) 1) by lia.
  rewrite omap_app, IH by lia.
  destruct (lookup_lt_is_Some_2 toks n ltac:(lia)) as [t Ht].
  rewrite (take_S_r _ _ _ Ht). f_equal.
  rewrite seqZ_cons, seqZ_nil by lia. simpl.
  by rewrite Z.add_0_l, Nat2Z.id, Ht.
Qed.

Lemma omap_lookup_all (toks : list string) :
  omap (fun i => toks !! Z.to_nat i) (seqZ 0 (Z.of_nat (length toks))) = toks.
Proof. rewrite omap_lookup_take by done. apply firstn_all. Qed.

Lemma uncovered_nil cov len : uncovered cov [] len = seqZ 0 len.
Proof.
  unfold uncovered. induction (seqZ 0 len) as [|i js IH]; [done|].
  rewrite filter_cons_True by done. by rewrite IH.
Qed.

Lemma kept_nil cov toks : kept cov [] toks = toks.
Proof. unfold kept. rewrite uncovered_nil. apply omap_lookup_all. Qed.

Lemma kept_elem_of cov cs toks t : t ∈ kept cov cs toks -> t ∈ toks.
Proof.
  unfold kept. intros (i & _ & Hi)%list_elem_of_omap.
  by eapply list_elem_of_lookup_2.
Qed.

(** The tokens at the uncovered positions are, code for code, the
    unmarked items, when the spans cover the marked positions and
    nothing else. *)
Lemma kept_unmarked (f : string -> code) cov cs m (toks : list string) :
  (forall i, 0 <= i < Z.of_nat (length toks) ->
     cover_count cov cs i = if marked m i then 1%nat else 0%nat) ->
  f <$> kept cov cs toks = unmarked m (f <$> toks) 0 (Z.of_nat (length toks)).
Proof.
  intros H. unfold kept, unmarked, uncovered. rewrite Z.sub_0_r.
  assert (Hin : Forall (fun i => 0 <= i < Z.of_nat (length toks))
                  (seqZ 0 (Z.of_nat (length toks)))).
  { apply Forall_forall. intros i Hi. apply elem_of_seqZ in Hi. lia. }
  induction Hin as [|i js Hi _ IH]; [done|].
  rewrite filter_cons. cbn [omap list_omap]. rewrite (H i Hi).
  destruct (marked m i).
  - rewrite decide_False by done. exact IH.
  - rewrite decide_True by done. cbn [omap list_omap].
    destruct (lookup_lt_is_Some_2 toks (Z.to_nat i) ltac:(lia)) as [t Ht].
    rewrite Ht. unfold code_at. destruct (Z.ltb_spec i 0); [lia|].
    rewrite list_lookup_fmap, Ht. simpl. f_equal. exact IH.
Qed.

Lemma sum_del_nonneg cs : Forall proper_change cs -> 0 <= sum_del cs.
Proof.
  induction 1 as [|c cs (Hd & _) _ IH]; simpl; [done|]. unfold sum_del in *. simpl. lia.
Qed.

Lemma sum_add_nonneg cs : Forall proper_change cs -> 0 <= sum_add cs.
Proof.
  induction 1 as [|c cs (_ & Ha & _) _ IH]; simpl; [done|]. unfold sum_add in *. simpl. lia.
Qed.

(** Records that delete and add nothing in total: there is none. *)
Lemma no_change cs :
  Forall proper_change cs -> sum_del cs = 0 -> sum_add cs = 0 -> cs = [].
Proof.
  intros H Hd Ha. destruct H as [|c cs (H1 & H2 & H3) H]; [done|exfalso].
  pose proof (sum_del_nonneg cs H). pose proof (sum_add_nonneg cs H).
  unfold sum_del, sum_add in *. simpl in *. lia.
Qed.

(** With every position marked on both sides, all is one record. *)
Lemma runs_all_marked lm rm L R qs :
  0 < L -> 0 < R -> all_marked lm 0 L -> all_marked rm 0 R ->
  runs lm rm L R 0 0 0 qs -> qs = [(0, L, 0, R)].
Proof.
  intros HL HR Hl Hr H. destruct qs as [|[[[sl el] sr] er] qs]; simpl in H.
  - destruct H as (_ & _ & Hc & _). specialize (Hc 0 ltac:(lia)).
    rewrite Hl in Hc by lia. done.
  - destruct H as (H1 & H2 & H3 & H4 & H5 & H6 & H7 & H8 & H9 & H10).
    assert (sl = 0) as ->.
    { destruct (decide (sl = 0)); [done|exfalso].
      specialize (H3 0 ltac:(lia)). rewrite Hl in H3 by lia. done. }
    assert (sr = 0) as -> by lia.
    destruct qs as [|[[[sl' el'] sr'] er'] qs]; simpl in H10.
    + destruct H10 as (G1 & G2 & G3 & G4).
      assert (el = L) as ->.
      { destruct (decide (el = L)); [done|exfalso].
        specialize (G3 el ltac:(lia)). rewrite Hl in G3 by lia. done. }
      assert (er = R) as -> by lia. done.
    + exfalso. destruct H10 as (G1 & G2 & G3 & G4 & G5 & G6 & _).
      specialize (G3 el ltac:(lia)). rewrite Hl in G3 by lia. done.
Qed.

Section TokenProof.

Variable regex_split : string -> string -> list string.
Variable strip : string -> string.

Lemma interned_length text options :
  length (interned regex_split strip text options)
  = length (tokens regex_split text options).
Proof. unfold interned. by rewrite length_fmap. Qed.

(** The codes of the two sides are the codes of their interned tokens
    in the final table, and every interned token has one. *)
Lemma codes_interned lhs rhs options :
  let e := encoder (rhs_encoded regex_split strip lhs rhs options) in
  _codes (lhs_encoded regex_split strip lhs options)
  = code_of e <$> interned regex_split strip lhs options /\
  _codes (rhs_encoded regex_split strip lhs rhs options)
  = code_of e <$> interned regex_split strip rhs options /\
  Forall (fun t => is_Some (getCode e t)) (interned regex_split strip lhs options) /\
  Forall (fun t => is_Some (getCode e t)) (interned regex_split strip rhs options).
Proof.
  intros e. destruct (codes_of_tokens regex_split strip lhs rhs options) as [Hl Hr].
  fold e in Hl, Hr. unfold interned.
  apply (proj2 (Forall2_fmap_l (normalize strip options)
                 (fun t c => getCode e t = Some c) _ _)) in Hl, Hr.
  split; [|split; [|split]].
  - exact (Forall2_fmap_default (getCode e) _ _ _ Hl).
  - exact (Forall2_fmap_default (getCode e) _ _ _ Hr).
  - eapply Forall2_Forall_l; [exact Hl|]. apply Forall_true. intros c t Ht. by eexists.
  - eapply Forall2_Forall_l; [exact Hr|]. apply Forall_true. intros c t Ht. by eexists.
Qed.

(** A comparison in terms of tokens: what the records leave uncovered
    is the same token sequence on both sides, a longest common
    subsequence of the two sides' interned tokens, and the deletions
    and additions are the rest. *)
Lemma diff_tokens lhs rhs options :
  lhs <> JUndefined -> rhs <> JUndefined ->
  let TL := interned regex_split strip lhs options in
  let TR := interned regex_split strip rhs options in
  let L := Z.of_nat (length TL) in
  let R := Z.of_nat (length TR) in
  exists cs lm rm qs,
    diff regex_split strip lhs rhs options = Ok cs /\
    spans cs = spans (item_of L R <$> qs) /\
    runs lm rm L R 0 0 0 qs /\
    Forall proper_change cs /\
    kept covers_lhs cs TL = kept covers_rhs cs TR /\
    longest_common (kept covers_lhs cs TL) TL TR /\
    Z.of_nat (length (kept covers_lhs cs TL)) = unmarked_count lm 0 L /\
    Z.of_nat (length (kept covers_lhs cs TL)) = unmarked_count rm 0 R /\
    sum_del cs = L - Z.of_nat (length (kept covers_lhs cs TL)) /\
    sum_add cs = R - Z.of_nat (length (kept covers_lhs cs TL)).
Proof.
  intros Hl Hr TL TR L R.
  destruct (diff_run regex_split strip lhs rhs options Hl Hr)
    as (lm & rm & qs & _ & Heq & [[HsA HsB] Hmax] & Hruns & Hd).
  destruct (codes_interned lhs rhs options) as (HA & HB & HDl & HDr).
  set (e := encoder (rhs_encoded regex_split strip lhs rhs options)) in *.
  fold TL in HA, HDl. fold TR in HB, HDr.
  assert (HLl : ctx_length (lhs_encoded regex_split strip lhs options) = L).
  { unfold L, TL. by rewrite interned_length, lhs_encoded_length. }
  assert (HRl : ctx_length (rhs_encoded regex_split strip lhs rhs options) = R).
  { unfold R, TR. by rewrite interned_length, rhs_encoded_length. }
  rewrite HLl, HRl, HA, HB in *.
  set (cs := add_context (lhs_final regex_split strip lhs rhs options lm)
               (rhs_final regex_split strip lhs rhs options rm)
             <$> (item_of L R <$> qs)) in *.
  assert (HcovL : forall i, 0 <= i < L ->
            cover_count covers_lhs cs i = if marked lm i then 1%nat else 0%nat).
  { intros i Hi. unfold cs. rewrite cover_count_lhs_context.
    rewrite (runs_cover_lhs lm rm L R 0 0 0 qs i) by (done || lia).
    destruct (Z.leb_spec 0 i), (Z.ltb_spec i L); try lia. done. }
  assert (HcovR : forall i, 0 <= i < R ->
            cover_count covers_rhs cs i = if marked rm i then 1%nat else 0%nat).
  { intros i Hi. unfold cs. rewrite cover_count_rhs_context.
    rewrite (runs_cover_rhs lm rm L R 0 0 0 qs i) by (done || lia).
    destruct (Z.leb_spec 0 i), (Z.ltb_spec i R); try lia. done. }
  pose proof (kept_unmarked (code_of e) covers_lhs cs lm TL HcovL) as HkL.
  pose proof (kept_unmarked (code_of e) covers_rhs cs rm TR HcovR) as HkR.
  fold L in HkL. fold R in HkR.
  assert (Hinj : forall x y, is_Some (getCode e x) -> is_Some (getCode e y) ->
                   code_of e x = code_of e y -> x = y).
  { intros x y Hx Hy. apply code_of_inj; [|done..].
    apply rhs_encoder_wf. }
  assert (HkDl : Forall (fun t => is_Some (getCode e t)) (kept covers_lhs cs TL)).
  { apply Forall_forall. intros t Ht%kept_elem_of.
    by apply (proj1 (Forall_forall _ _) HDl). }
  assert (HkDr : Forall (fun t => is_Some (getCode e t)) (kept covers_rhs cs TR)).
  { apply Forall_forall. intros t Ht%kept_elem_of.
    by apply (proj1 (Forall_forall _ _) HDr). }
  assert (Hk : kept covers_lhs cs TL = kept covers_rhs cs TR).
  { eapply fmap_inj_on; [exact Hinj|done..|]. by rewrite HkL, HkR. }
  assert (HlenL : Z.of_nat (length (kept covers_lhs cs TL)) = unmarked_count lm 0 L).
  { rewrite <- (length_fmap (code_of e)), HkL.
    apply unmarked_length; [lia|]. rewrite length_fmap. unfold L. lia. }
  assert (HlenR : Z.of_nat (length (kept covers_lhs cs TL)) = unmarked_count rm 0 R).
  { rewrite Hk, <- (length_fmap (code_of e)), HkR.
    apply unmarked_length; [lia|]. rewrite length_fmap. unfold R. lia. }
  exists cs, lm, rm, qs. split; [exact Hd|].
  split; [|split; [done|split; [|split; [done|split; [|split; [done|split; [done|]]]]]]].
  - unfold cs, spans. by rewrite <- !list_fmap_compose.
  - apply proper_context. by apply (runs_proper lm rm L R 0 0 0).
  - split; [|split].
    + eapply sublist_fmap_inj_on; [exact Hinj|done..|]. by rewrite HkL.
    + rewrite Hk. eapply sublist_fmap_inj_on; [exact Hinj|done..|].
      rewrite HkR, <- Heq. done.
    + intros t Ht1 Ht2.
      rewrite <- (length_fmap (code_of e) t), <- (length_fmap (code_of e) (kept _ _ _)).
      rewrite HkL. apply Hmax. split; by apply fmap_sublist.
  - assert (Hsd : sum_del cs = L - unmarked_count lm 0 L).
    { unfold cs. rewrite sum_del_context.
      rewrite (runs_sum_del lm rm L R 0 0 0 qs) by (done || lia). lia. }
    assert (Hsa : sum_add cs = R - unmarked_count rm 0 R).
    { unfold cs. rewrite sum_add_context.
      rewrite (runs_sum_add lm rm L R 0 0 0 qs) by (done || lia). lia. }
    split; lia.
Qed.

End TokenProof.

(** ** Records do not touch *)

(** [c'] starts after [c] has ended and a token has been passed, on
    either side; a [c'] that is empty on a side may sit on that
    token. *)
Definition apart (c c' : Change) : Prop :=
  (lhs_at c + lhs_del c < lhs_at c' \/
   (lhs_del c' = 0 /\ lhs_at c + lhs_del c <= lhs_at c')) /\
  (rhs_at c + rhs_add c < rhs_at c' \/
   (rhs_add c' = 0 /\ rhs_at c + rhs_add c <= rhs_at c')).

Lemma runs_apart lm rm L R g l r qs :
  0 <= l -> 0 <= r -> 0 <= g -> runs lm rm L R g l r qs ->
  StronglySorted apart (item_of L R <$> qs).
Proof.
  revert g l r. induction qs as [|[[[sl el] sr] er] qs IH]; intros g l r Hl Hr Hg H.
  - constructor.
  - simpl in H. destruct H as (H1 & H2 & H3 & H4 & H5 & H6 & H7 & H8 & H9 & H10).
    rewrite fmap_cons. constructor; [apply (IH 1 el er); (done || lia)|].
    apply Forall_fmap.
    eapply Forall_impl; [apply (runs_quads lm rm L R 1 el er); [lia|done]|].
    intros [[[sl' el'] sr'] er'] Hq. simpl in Hq. unfold apart.
    rewrite !item_lhs_del, !item_rhs_add, !item_lhs_at, !item_rhs_at. simpl.
    repeat case_bool_decide; lia.
Qed.

Lemma apart_context lctx rctx cs :
  StronglySorted apart cs ->
  StronglySorted apart (add_context lctx rctx <$> cs).
Proof.
  induction 1 as [|c cs Hs IH Hall]; [constructor|].
  rewrite fmap_cons. constructor; [done|].
  apply Forall_fmap. eapply Forall_impl; [exact Hall|]. by intros c'.
Qed.

(** ** The comparison depends on the interned tokens only *)

Lemma init_loop_interned (strip : string -> string) (ws : bool) e (lines : list string) :
  init_loop strip ws e lines
  = init_loop strip false e ((fun l => if ws then strip l else l) <$> lines).
Proof.
  revert e. induction lines as [|l lines IH]; intros e; [done|].
  rewrite fmap_cons, !init_loop_cons. cbv zeta.
  destruct (getCode e (if ws then strip l else l)); by rewrite IH.
Qed.

(** What [diff] does once the two contexts are built. *)
Definition compare_contexts (lctx rctx : EncodeContext) : result (list Change) :=
  let lhsCtx :=
    {| encoder := encoder rctx; _codes := _codes lctx;
       _modified := _modified lctx |} in
  '(lm, rm) ← LCS (_modified lhsCtx) (_codes lhsCtx) (ctx_length lhsCtx)
                  (_modified rctx) (_codes rctx) (ctx_length rctx);
  let lhsCtx := with_modified lhsCtx lm in
  let rhsCtx := with_modified rctx rm in
  lhsCtx ← optimize lhsCtx;
  rhsCtx ← optimize rhsCtx;
  items ← CompareLCS
            (_modified lhsCtx) (ctx_length lhsCtx)
            (_modified rhsCtx) (ctx_length rhsCtx)
            (push_item lhsCtx rhsCtx) None;
  match items with
  | None => Ok []
  | Some l => Ok l
  end.

Section Interned.

Variable regex_split : string -> string -> list string.
Variable strip : string -> string.

Lemma diff_compare_contexts lhs rhs options :
  lhs <> JUndefined -> rhs <> JUndefined ->
  diff regex_split strip lhs rhs options
  = compare_contexts (lhs_encoded regex_split strip lhs options)
      (rhs_encoded regex_split strip lhs rhs options).
Proof. intros Hl Hr. unfold diff. destruct lhs, rhs; done. Qed.

Lemma encode_interned e text options :
  encode regex_split strip e text (settings_of options)
  = _init strip e (interned regex_split strip text options) _getDefaultSettings.
Proof.
  unfold encode, EncodeContext_new, _init, interned, tokens, normalize.
  rewrite init_loop_interned. done.
Qed.

End Interned.

(** ** Counting the uncovered positions *)

Lemma kept_length cov cs (toks : list string) :
  length (kept cov cs toks) = length (uncovered cov cs (Z.of_nat (length toks))).
Proof.
  unfold kept, uncovered.
  assert (Hin : Forall (fun i => 0 <= i < Z.of_nat (length toks))
                  (filter (fun i => cover_count cov cs i = 0%nat)
                     (seqZ 0 (Z.of_nat (length toks))))).
  { apply Forall_forall. intros i Hi%list_elem_of_filter.
    destruct Hi as [_ Hi]. apply elem_of_seqZ in Hi. lia. }
  induction Hin as [|i js Hi _ IH]; [done|].
  cbn [omap list_omap].
  destruct (lookup_lt_is_Some_2 toks (Z.to_nat i) ltac:(lia)) as [t Ht].
  rewrite Ht. simpl. by rewrite IH.
Qed.

(** ** Records and the positions they are built from *)

(** A record and the starts and ends [(sl, el, sr, er)] of its two
    spans: the counts are the lengths of the spans, and [at] is the
    start, except that a start past the last index is reported as the
    last index (as 0 on a side without tokens). *)
Definition record_of (L R : Z) (c : Change) (q : quad) : Prop :=
  let '(sl, el, sr, er) := q in
  lhs_at c = Z.min sl (if bool_decide (L = 0) then 0 else L - 1) /\
  lhs_del c = el - sl /\
  rhs_at c = Z.min sr (if bool_decide (R = 0) then 0 else R - 1) /\
  rhs_add c = er - sr.

Lemma records_of_items lctx rctx L R qs :
  Forall2 (record_of L R) (add_context lctx rctx <$> (item_of L R <$> qs)) qs.
Proof.
  induction qs as [|[[[sl el] sr] er] qs IH]; [constructor|].
  rewrite !fmap_cons. constructor; [|done]. by repeat split.
Qed.

(** Only the last record can start at the end of a side. *)
Lemma runs_inner_starts lm rm L R g l r qs (i : nat) sl el sr er :
  runs lm rm L R g l r qs -> qs !! i = Some (sl, el, sr, er) ->
  (S i < length qs)%nat -> sl < L /\ sr < R.
Proof.
  revert g l r i. induction qs as [|[[[sl0 el0] sr0] er0] qs IH];
    intros g l r i H Hi Hlen; [done|].
  simpl in H. destruct H as (H1 & H2 & H3 & H4 & H5 & H6 & H7 & H8 & H9 & H10).
  destruct i as [|i].
  - injection Hi as -> -> -> ->.
    destruct qs as [|[[[sl' el'] sr'] er'] qs]; [simpl in Hlen; lia|].
    simpl in H10. lia.
  - simpl in Hi, Hlen. eapply (IH 1 el0 er0 i); [done|done|lia].
Qed.

(** ** The exceptions of the regular-expression facility *)

Section RegExpProof.

Variable RegExp_split : string -> string -> result (list (option string)).
Variable strip : string -> string.

(** Where nothing is thrown, the loop of [_init] on the array is the
    loop on its elements read as keys. *)
Lemma init_lines_init_loop ws e (lines : list (option string)) :
  ws = false \/ Forall is_Some lines ->
  init_lines strip ws e lines
  = Ok (init_loop strip ws e (property_key <$> lines)).
Proof.
  revert e. induction lines as [|l lines IH]; intros e Hok; [done|].
  assert (Hrest : ws = false \/ Forall is_Some lines).
  { destruct Hok as [?|Hall]; [by left|right]. by apply Forall_cons in Hall as [_ ?]. }
  rewrite fmap_cons, init_loop_cons. cbv zeta. cbn [init_lines].
  assert (Hline : match l with
                  | Some s => Ok (if ws then strip s else s)
                  | None => if ws then Err TypeError else Ok (property_key l)
                  end = Ok (if ws then strip (property_key l) else property_key l)).
  { destruct l as [s|]; [done|].
    destruct Hok as [->|Hall]; [done|].
    apply Forall_cons in Hall as [[? ?] _]. done. }
  rewrite Hline. cbn [mbind result_bind].
  destruct (getCode e (if ws then strip (property_key l) else property_key l)).
  - rewrite IH by done. cbn [mbind result_bind]. by destruct (init_loop _ _ _ _).
  - unfold newCode at 1. cbv zeta. rewrite IH by done. cbn [mbind result_bind].
    by destruct (init_loop _ _ _ _).
Qed.

(** With [ignoreWhitespace], an [undefined] element makes [_init]
    throw. *)
Lemma init_lines_TypeError e (lines : list (option string)) :
  ~ Forall is_Some lines -> init_lines strip true e lines = Err TypeError.
Proof.
  revert e. induction lines as [|l lines IH]; intros e Hno.
  - exfalso. apply Hno. constructor.
  - cbn [init_lines]. destruct l as [s|]; [|done].
    assert (Hrest : ~ Forall is_Some lines).
    { intros Hall. apply Hno. constructor; [by eexists|done]. }
    cbn [mbind result_bind].
    destruct (getCode e (strip s)).
    + by rewrite IH.
    + unfold newCode. cbv zeta. by rewrite IH.
Qed.

Lemma constructor_lines_split_text text settings lines :
  constructor_lines RegExp_split text settings = Ok lines ->
  split_text (strings_split RegExp_split) text settings = property_key <$> lines.
Proof.
  unfold constructor_lines, split_text, strings_split.
  destruct text as [| |s]; try (by intros [= <-]).
  repeat case_bool_decide; try (by intros [= <-]); by intros ->.
Qed.

Lemma EncodeContext_constructor_encode e text settings lines :
  constructor_lines RegExp_split text settings = Ok lines ->
  ignoreWhitespace settings = false \/ Forall is_Some lines ->
  EncodeContext_constructor RegExp_split strip e text settings
  = Ok (encode (strings_split RegExp_split) strip e text settings).
Proof.
  intros Hlines Hok.
  unfold EncodeContext_constructor, encode, EncodeContext_new, _init.
  rewrite Hlines. cbn [mbind result_bind].
  rewrite init_lines_init_loop by done. cbn [mbind result_bind].
  rewrite (constructor_lines_split_text _ _ _ Hlines).
  by destruct (init_loop _ _ _ _).
Qed.

(** [Myers_diff] is [diff] on the split read as strings, whenever the
    two constructor calls throw nothing. *)
Lemma Myers_diff_diff lhs rhs options ll lr :
  constructor_lines RegExp_split lhs (assign _getDefaultSettings options) = Ok ll ->
  constructor_lines RegExp_split rhs (assign _getDefaultSettings options) = Ok lr ->
  ignoreWhitespace (assign _getDefaultSettings options) = false \/
  (Forall is_Some ll /\ Forall is_Some lr) ->
  Myers_diff RegExp_split strip lhs rhs options
  = diff (strings_split RegExp_split) strip lhs rhs options.
Proof.
  intros Hl Hr Hok. unfold Myers_diff, diff.
  destruct lhs as [| |l]; [done|..]; (destruct rhs as [| |r]; [done|..]);
    rewrite (EncodeContext_constructor_encode _ _ _ ll Hl)
      by (destruct Hok as [?|[? ?]]; auto);
    cbn [mbind result_bind];
    rewrite (EncodeContext_constructor_encode _ _ _ lr Hr)
      by (destruct Hok as [?|[? ?]]; auto);
    reflexivity.
Qed.

(** What the first constructor call throws, [Myers_diff] throws. *)
Lemma Myers_diff_throws lhs rhs options e :
  lhs <> JUndefined -> rhs <> JUndefined ->
  EncodeContext_constructor RegExp_split strip Encoder_new lhs
    (assign _getDefaultSettings options) = Err e ->
  Myers_diff RegExp_split strip lhs rhs options = Err e.
Proof.
  intros Hl Hr He. unfold Myers_diff.
  destruct lhs; [done|..]; (destruct rhs; [done|..]); by rewrite He.
Qed.

End RegExpProof.

(** The markers determine the shape: no other list of positions is
    [runs] from the same place. *)
Lemma runs_unique lm rm L R g l r qs qs' :
  0 <= g -> runs lm rm L R g l r qs -> runs lm rm L R g l r qs' -> qs = qs'.
Proof.
  revert g l r qs'.
  induction qs as [|[[[sl el] sr] er] qs IH]; intros g l r qs' Hg H H'.
  - destruct qs' as [|[[[sl' el'] sr'] er'] qs']; [done|exfalso].
    simpl in H, H'. destruct H as (G1 & G2 & G3 & G4).
    destruct H' as (H1 & H2 & H3 & H4 & H5 & H6 & H7 & H8 & H9 & H10).
    destruct H7 as [H7|H7].
    + specialize (H8 sl' ltac:(lia)). rewrite G3 in H8 by lia. done.
    + specialize (H9 sr' ltac:(lia)). rewrite G4 in H9 by lia. done.
  - destruct qs' as [|[[[sl' el'] sr'] er'] qs'].
    + exfalso. simpl in H, H'. destruct H' as (G1 & G2 & G3 & G4).
      destruct H as (H1 & H2 & H3 & H4 & H5 & H6 & H7 & H8 & H9 & H10).
      destruct H7 as [H7|H7].
      * specialize (H8 sl ltac:(lia)). rewrite G3 in H8 by lia. done.
      * specialize (H9 sr ltac:(lia)). rewrite G4 in H9 by lia. done.
    + simpl in H, H'.
      destruct H as (H1 & H2 & H3 & H4 & H5 & H6 & H7 & H8 & H9 & H10).
      destruct H' as (H1' & H2' & H3' & H4' & H5' & H6' & H7' & H8' & H9' & H10').
      assert (sl = sl') as <-.
      { destruct (Z.lt_trichotomy sl sl') as [Hlt|[?|Hlt]]; [exfalso|done|exfalso].
        - destruct H7 as [H7|H7].
          + specialize (H8 sl ltac:(lia)). rewrite H3' in H8 by lia. done.
          + specialize (H9 sr ltac:(lia)). rewrite H4' in H9 by lia. done.
        - destruct H7' as [H7'|H7'].
          + specialize (H8' sl' ltac:(lia)). rewrite H3 in H8' by lia. done.
          + specialize (H9' sr' ltac:(lia)). rewrite H4 in H9' by lia. done. }
      assert (sr = sr') as <- by lia.
      assert (Hnext : forall e q, runs lm rm L R 1 e q.1 q.2 ->
                forall i, e <= i < L -> i = e -> marked lm i = false).
      { intros e [o rest] Hq i Hi ->. simpl in Hq.
        destruct rest as [|[[[a b] c] d] rest]; simpl in Hq.
        - destruct Hq as (_ & _ & Hc & _). apply Hc. lia.
        - destruct Hq as (? & ? & Hc & _). apply Hc. lia. }
      assert (Hnext' : forall e q, runs lm rm L R 1 q.1 e q.2 ->
                forall i, e <= i < R -> i = e -> marked rm i = false).
      { intros e [o rest] Hq i Hi ->. simpl in Hq.
        destruct rest as [|[[[a b] c] d] rest]; simpl in Hq.
        - destruct Hq as (_ & _ & _ & Hc). apply Hc. lia.
        - destruct Hq as (? & ? & _ & Hc & _). apply Hc. lia. }
      assert (el = el') as <-.
      { destruct (Z.lt_trichotomy el el') as [Hlt|[?|Hlt]]; [exfalso|done|exfalso].
        - pose proof (Hnext el (er, qs) H10 el ltac:(lia) eq_refl) as Hc.
          rewrite H8' in Hc by lia. done.
        - pose proof (Hnext el' (er', qs') H10' el' ltac:(lia) eq_refl) as Hc.
          rewrite H8 in Hc by lia. done. }
      assert (er = er') as <-.
      { destruct (Z.lt_trichotomy er er') as [Hlt|[?|Hlt]]; [exfalso|done|exfalso].
        - pose proof (Hnext' er (el, qs) H10 er ltac:(lia) eq_refl) as Hc.
          rewrite H9' in Hc by lia. done.
        - pose proof (Hnext' er' (el, qs') H10' er' ltac:(lia) eq_refl) as Hc.
          rewrite H9 in Hc by lia. done. }
      f_equal. by eapply (IH 1 el er).
Qed.


(** * The properties of the specification *)

(** C1. For every pair of inputs and options, after [Myers.LCS] has run
    on the two interned code sequences, the positions not marked
    modified on the left side and those not marked modified on the
    right side, read in increasing position order, yield the same
    sequence of codes, and that sequence is a longest common
    subsequence of the two code sequences. *)
Theorem LCS_longest_common_subsequence
    (regex_split : string -> string -> list string) (strip : string -> string)
    (lhs rhs : js_text) (options : Options) :
  let lhsCtx := lhs_encoded regex_split strip lhs options in
  let rhsCtx := rhs_encoded regex_split strip lhs rhs options in
  exists lm rm,
    LCS (_modified lhsCtx) (_codes lhsCtx) (ctx_length lhsCtx)
        (_modified rhsCtx) (_codes rhsCtx) (ctx_length rhsCtx) = Ok (lm, rm) /\
    unmarked lm (_codes lhsCtx) 0 (ctx_length lhsCtx)
    = unmarked rm (_codes rhsCtx) 0 (ctx_length rhsCtx) /\
    is_lcs (unmarked lm (_codes lhsCtx) 0 (ctx_length lhsCtx))
           (_codes lhsCtx) (_codes rhsCtx).
Proof.
  intros lhsCtx rhsCtx. unfold lhsCtx, rhsCtx.
  rewrite lhs_encoded_modified, rhs_encoded_modified. apply LCS_spec.
Qed.

(** C9. Called with valid bounds (in particular as [diff] calls it, on
    ranges that are not empty after trimming),
    [getShortestMiddleSnake] finds a midpoint at an edit distance [d]
    with [d <= maxd] and returns it: the final [throw] is not reached.
    The midpoint lies on a shortest edit path. *)
Theorem getShortestMiddleSnake_finds_midpoint
    (A : list code) (lenA ll lu : Z) (B : list code) (lenB rl ru : Z)
    (vu vd : gmap Z Z) :
  ll <= lu -> rl <= ru ->
  exists ret vu' vd' d,
    getShortestMiddleSnake A lenA ll lu B lenB rl ru vu vd = Ok (ret, vu', vd') /\
    within_maxd ll lu rl ru d = true /\
    path (mt_rect A ll lu B rl ru) d ll rl (sms_x ret) (sms_y ret) /\
    midpoint A ll lu B rl ru ret.
Proof.
  intros Hx Hy.
  destruct (getShortestMiddleSnake_spec A lenA ll lu B lenB rl ru Hx Hy vu vd)
    as (ret & vu' & vd' & Hs & Hmid).
  exists ret, vu', vd'.
  destruct Hmid as (d1 & d2 & Hd & H1 & H2 & Hopt).
  exists d1. split; [done|]. split; [|split; [done|]].
  - pose proof (Hopt _ (path_straight _ ll rl lu ru Hx Hy)).
    unfold within_maxd. apply Z.leb_le. lia.
  - by exists d1, d2.
Qed.

Lemma getShortestMiddleSnake_example :
  exists ret vu' vd' d,
    getShortestMiddleSnake [CNum 1] 1 0 1 [CNum 2] 1 0 1 ∅ ∅ = Ok (ret, vu', vd') /\
    within_maxd 0 1 0 1 d = true /\
    path (mt_rect [CNum 1] 0 1 [CNum 2] 0 1) d 0 0 (sms_x ret) (sms_y ret) /\
    midpoint [CNum 1] 0 1 [CNum 2] 0 1 ret.
Proof.
  apply (getShortestMiddleSnake_finds_midpoint [CNum 1] 1 0 1 [CNum 2] 1 0 1 ∅ ∅);
    lia.
Defined.

(** C8. [diff] fails with the illegal-argument error exactly when
    [lhs] or [rhs] is [undefined]; the error is raised before either
    input is looked at (whatever the other input, the options and the
    tokenizer are), and every other pair of inputs is compared to the
    end. *)
Theorem diff_illegal_argument
    (regex_split : string -> string -> list string) (strip : string -> string) :
  (forall rhs options,
     diff regex_split strip JUndefined rhs options = Err (IllegalArgument "lhs")) /\
  (forall lhs options, lhs <> JUndefined ->
     diff regex_split strip lhs JUndefined options = Err (IllegalArgument "rhs")) /\
  (forall lhs rhs options, lhs <> JUndefined -> rhs <> JUndefined ->
     exists cs, diff regex_split strip lhs rhs options = Ok cs).
Proof.
  split; [done|]. split.
  - intros lhs options Hl. by destruct lhs.
  - intros lhs rhs options Hl Hr.
    destruct (diff_run regex_split strip lhs rhs options Hl Hr)
      as (lm & rm & qs & _ & _ & _ & _ & Hd). eauto.
Qed.

Lemma diff_illegal_argument_example :
  diff example_split example_strip JUndefined (JString "a") no_options
  = Err (IllegalArgument "lhs") /\
  diff example_split example_strip (JString "a") JUndefined no_options
  = Err (IllegalArgument "rhs") /\
  exists cs, diff example_split example_strip JNull (JString "a") no_options = Ok cs.
Proof.
  destruct (diff_illegal_argument example_split example_strip) as (H1 & H2 & H3).
  split; [apply H1|]. split; [apply H2; discriminate|]. apply H3; discriminate.
Defined.

(** The options [{ignoreWhitespace: true}]. *)
Definition ignore_whitespace : Options :=
  {| opt_compare := None; opt_ignoreWhitespace := Some true;
     opt_splitLinesRegex := None; opt_splitWordsRegex := None;
     opt_splitCharsRegex := None |}.

(** Comparing a text with itself by [diff]: no record. *)
Lemma same_text_no_change
    (regex_split : string -> string -> list string) (strip : string -> string)
    (x : string) (options : Options) :
  diff regex_split strip (JString x) (JString x) options = Ok [].
Proof.
  destruct (diff_run regex_split strip (JString x) (JString x) options)
    as (lm & rm & qs & _ & Heq & [Hc Hmax] & Hruns & Hd); [done..|].
  rewrite Hd. clear Hd.
  pose proof (same_text_same_codes regex_split strip (JString x) options) as Hsame.
  set (A := _codes (lhs_encoded regex_split strip (JString x) options)) in *.
  set (B := _codes (rhs_encoded regex_split strip (JString x) (JString x) options))
    in *.
  assert (HL : ctx_length (rhs_encoded regex_split strip (JString x) (JString x) options)
               = ctx_length (lhs_encoded regex_split strip (JString x) options)).
  { unfold ctx_length. fold A B. by rewrite Hsame. }
  rewrite HL in *.
  set (L := ctx_length (lhs_encoded regex_split strip (JString x) options)) in *.
  assert (HLA : L = Z.of_nat (length A)) by done.
  assert (Hfull : (length A <= length (unmarked lm A 0 L))%nat).
  { apply Hmax. rewrite Hsame. by split. }
  pose proof (unmarked_length lm A 0 L ltac:(lia) ltac:(lia)) as Hl.
  pose proof (unmarked_length rm B 0 L ltac:(lia) ltac:(rewrite Hsame; lia)) as Hr.
  rewrite <- Heq in Hr.
  pose proof (unmarked_count_le lm 0 L ltac:(lia)).
  assert (qs = []) as ->; [|done].
  eapply (runs_clear lm rm L L 0 0 0 qs Hruns); [| |lia].
  - apply unmarked_count_full; lia.
  - apply unmarked_count_full; lia.
Qed.

(** C6, as the code has it.  For every string [x] and every options
    object, [diff(x, x, options)] returns an empty change list provided
    the two constructor calls throw nothing: [x] is empty or the
    pattern selected by [compare] is a regular expression, and with
    [ignoreWhitespace] the split of [x] holds no [undefined].
    Otherwise [diff] throws what the constructor throws: the
    [SyntaxError] of [new RegExp], or the [TypeError] of
    [line.replace] on [undefined]. *)
Theorem diff_same_text_is_empty
    (RegExp_split : string -> string -> result (list (option string)))
    (strip : string -> string) (x : string) (options : Options) :
  let settings := assign _getDefaultSettings options in
  (forall lines,
     constructor_lines RegExp_split (JString x) settings = Ok lines ->
     ignoreWhitespace settings = false \/ Forall is_Some lines ->
     Myers_diff RegExp_split strip (JString x) (JString x) options = Ok []) /\
  (forall e,
     constructor_lines RegExp_split (JString x) settings = Err e ->
     Myers_diff RegExp_split strip (JString x) (JString x) options = Err e) /\
  (forall lines,
     constructor_lines RegExp_split (JString x) settings = Ok lines ->
     ignoreWhitespace settings = true -> ~ Forall is_Some lines ->
     Myers_diff RegExp_split strip (JString x) (JString x) options
     = Err TypeError).
Proof.
  intros settings. split; [|split].
  - intros lines Hlines Hok.
    rewrite (Myers_diff_diff RegExp_split strip _ _ options lines lines Hlines Hlines)
      by (destruct Hok; auto).
    apply same_text_no_change.
  - intros e He. apply Myers_diff_throws; [done..|].
    unfold EncodeContext_constructor. fold settings. by rewrite He.
  - intros lines Hlines Hws Hno. apply Myers_diff_throws; [done..|].
    unfold EncodeContext_constructor. fold settings. rewrite Hlines, Hws.
    cbn [mbind result_bind]. by rewrite init_lines_TypeError.
Qed.

Lemma diff_same_text_is_empty_example :
  Myers_diff example_RegExp_split example_strip
    (text_of_lines ["a"; "b"]%string) (text_of_lines ["a"; "b"]%string)
    ignore_whitespace = Ok [].
Proof.
  apply (proj1 (diff_same_text_is_empty example_RegExp_split example_strip
                  (String.concat LF ["a"; "b"]%string) ignore_whitespace)
           [Some "a"; Some "b"]%string).
  - vm_compute. reflexivity.
  - right. repeat constructor; by eexists.
Defined.

(** The options [{splitLinesRegex: "("}]. *)
Definition invalid_pattern : Options :=
  {| opt_compare := None; opt_ignoreWhitespace := None;
     opt_splitLinesRegex := Some "("%string; opt_splitWordsRegex := None;
     opt_splitCharsRegex := None |}.

(** C6 fails as stated: with the options [{splitLinesRegex: "("}] the
    constructor's [new RegExp("(", "g")] throws, and so does
    [diff("a", "a", options)]. *)
Lemma diff_invalid_pattern_throws :
  Myers_diff example_RegExp_split example_strip (JString "a") (JString "a")
    invalid_pattern = Err SyntaxError /\
  Myers_diff example_RegExp_split example_strip (JString "a") (JString "a")
    invalid_pattern <> Ok [].
Proof. split; [vm_compute; reflexivity|vm_compute; discriminate]. Qed.

(** A side that is [null] or the empty string. *)
Definition empty_text (t : js_text) : Prop := t = JNull \/ t = JString EmptyString.

Lemma empty_text_tokens regex_split t options :
  empty_text t -> tokens regex_split t options = [].
Proof. by intros [-> | ->]. Qed.

(** C10. With [null] or the empty string as one input [diff] raises no
    error: that side has no token, and against a side of [n >= 1]
    tokens the result is one record, a pure insertion of [n] tokens at
    0 and 0 when the left side is the empty one, a pure deletion of [n]
    tokens at 0 and 0 when the right side is. *)
Theorem diff_with_empty_side
    (regex_split : string -> string -> list string) (strip : string -> string)
    (text empty : js_text) (options : Options) :
  (0 < length (tokens regex_split text options))%nat ->
  empty_text empty ->
  (exists c,
     diff regex_split strip empty text options = Ok [c] /\
     lhs_at c = 0 /\ lhs_del c = 0 /\ rhs_at c = 0 /\
     rhs_add c = Z.of_nat (length (tokens regex_split text options))) /\
  (exists c,
     diff regex_split strip text empty options = Ok [c] /\
     lhs_at c = 0 /\
     lhs_del c = Z.of_nat (length (tokens regex_split text options)) /\
     rhs_at c = 0 /\ rhs_add c = 0).
Proof.
  intros Hn He.
  assert (Ht : text <> JUndefined) by (intros ->; simpl in Hn; lia).
  assert (He' : empty <> JUndefined) by (by destruct He as [-> | ->]).
  pose proof (empty_text_tokens regex_split empty options He) as Hempty.
  split.
  - destruct (diff_run regex_split strip empty text options He' Ht)
      as (lm & rm & qs & _ & _ & _ & Hruns & Hd).
    rewrite lhs_encoded_length, rhs_encoded_length, Hempty in *. simpl in *.
    apply runs_left_empty in Hruns as ->; [|lia].
    eexists. split; [exact Hd|]. simpl.
    case_bool_decide; [lia|]. repeat split; lia.
  - destruct (diff_run regex_split strip text empty options Ht He')
      as (lm & rm & qs & _ & _ & _ & Hruns & Hd).
    rewrite lhs_encoded_length, rhs_encoded_length, Hempty in *. simpl in *.
    apply runs_right_empty in Hruns as ->; [|lia].
    eexists. split; [exact Hd|]. simpl.
    case_bool_decide; [lia|]. repeat split; lia.
Qed.

Lemma diff_with_empty_side_example :
  (exists c,
     diff example_split example_strip JNull (text_of_lines ["x"; "y"]%string)
       no_options = Ok [c] /\
     lhs_at c = 0 /\ lhs_del c = 0 /\ rhs_at c = 0 /\
     rhs_add c = Z.of_nat (length (tokens example_split
                                     (text_of_lines ["x"; "y"]%string) no_options))) /\
  (exists c,
     diff example_split example_strip (text_of_lines ["x"; "y"]%string) JNull
       no_options = Ok [c] /\
     lhs_at c = 0 /\
     lhs_del c = Z.of_nat (length (tokens example_split
                                     (text_of_lines ["x"; "y"]%string) no_options)) /\
     rhs_at c = 0 /\ rhs_add c = 0).
Proof.
  apply (diff_with_empty_side example_split example_strip
           (text_of_lines ["x"; "y"]%string) JNull no_options).
  - vm_compute. lia.
  - by left.
Defined.

(** C2. For every pair of inputs and options, the change list returned
    by [diff] satisfies the conservation equations: the left positions
    no delete span covers are as many as the right positions no add
    span covers, namely as many as the items of a longest common
    subsequence of the two sides' tokens (in their interned forms); the
    number of left tokens minus that number is the sum of the delete
    counts, and the number of right tokens minus it the sum of the add
    counts. *)
Theorem diff_conservation
    (regex_split : string -> string -> list string) (strip : string -> string)
    (lhs rhs : js_text) (options : Options) :
  lhs <> JUndefined -> rhs <> JUndefined ->
  let TL := interned regex_split strip lhs options in
  let TR := interned regex_split strip rhs options in
  let L := Z.of_nat (length (tokens regex_split lhs options)) in
  let R := Z.of_nat (length (tokens regex_split rhs options)) in
  exists cs s,
    diff regex_split strip lhs rhs options = Ok cs /\
    longest_common s TL TR /\
    length (uncovered covers_lhs cs L) = length s /\
    length (uncovered covers_rhs cs R) = length s /\
    L - Z.of_nat (length s) = sum_del cs /\
    R - Z.of_nat (length s) = sum_add cs.
Proof.
  intros Hl Hr TL TR L R.
  destruct (diff_tokens regex_split strip lhs rhs options Hl Hr)
    as (cs & lm & rm & qs & Hd & _ & _ & _ & Hk & Hlc & _ & _ & Hsd & Hsa).
  fold TL TR in Hk, Hlc, Hsd, Hsa.
  assert (HL : Z.of_nat (length TL) = L) by (unfold TL; by rewrite interned_length).
  assert (HR : Z.of_nat (length TR) = R) by (unfold TR; by rewrite interned_length).
  exists cs, (kept covers_lhs cs TL). split; [done|]. split; [done|].
  split; [|split; [|split]].
  - by rewrite kept_length, HL.
  - by rewrite Hk, kept_length, HR.
  - lia.
  - lia.
Qed.

Lemma diff_conservation_example :
  let TL := interned example_split example_strip
              (text_of_lines ["a"; "b"; "c"]%string) no_options in
  let TR := interned example_split example_strip
              (text_of_lines ["a"; "x"; "c"; "d"]%string) no_options in
  exists cs s,
    diff example_split example_strip (text_of_lines ["a"; "b"; "c"]%string)
      (text_of_lines ["a"; "x"; "c"; "d"]%string) no_options = Ok cs /\
    longest_common s TL TR /\
    length (uncovered covers_lhs cs 3) = length s /\
    length (uncovered covers_rhs cs 4) = length s /\
    3 - Z.of_nat (length s) = sum_del cs /\
    4 - Z.of_nat (length s) = sum_add cs.
Proof.
  apply (diff_conservation example_split example_strip
           (text_of_lines ["a"; "b"; "c"]%string)
           (text_of_lines ["a"; "x"; "c"; "d"]%string) no_options);
    discriminate.
Defined.

(** The pass as the specification describes it: the loop of [optimize],
    run with the number of tokens where the source reads
    [ctx._codes.length]. *)
Definition optimize_as_specified (ctx : EncodeContext) : result EncodeContext :=
  optimize_with (Some (ctx_length ctx)) ctx.

(** [diff] with that pass in the place of [optimize]. *)
Definition diff_as_specified (regex_split : string -> string -> list string)
    (strip : string -> string) (lhs rhs : js_text) (options : Options)
  : result (list Change) :=
  match lhs, rhs with
  | JUndefined, _ => Err (IllegalArgument "lhs")
  | _, JUndefined => Err (IllegalArgument "rhs")
  | _, _ =>
      let lhsCtx := lhs_encoded regex_split strip lhs options in
      let rhsCtx := rhs_encoded regex_split strip lhs rhs options in
      '(lm, rm) ← LCS (_modified lhsCtx) (_codes lhsCtx) (ctx_length lhsCtx)
                      (_modified rhsCtx) (_codes rhsCtx) (ctx_length rhsCtx);
      lhsCtx ← optimize_as_specified (lhs_final regex_split strip lhs rhs options lm);
      rhsCtx ← optimize_as_specified (rhs_final regex_split strip lhs rhs options rm);
      items ← CompareLCS
                (_modified lhsCtx) (ctx_length lhsCtx)
                (_modified rhsCtx) (ctx_length rhsCtx)
                (push_item lhsCtx rhsCtx) None;
      match items with
      | None => Ok []
      | Some l => Ok l
      end
  end.

(** C4 (the code departs from it). [optimize] never slides a boundary:
    its loop guard compares with [ctx._codes.length], which is
    [undefined], so the pass returns the context as it got it.  On
    ["a\na\nb"] against ["a\nb\nb"] [diff] therefore reports the
    boundary [LCS] left, one record replacing line 1 by line 1, where
    the pass as specified reports the slid boundary, a deletion at 1
    and an insertion at 2. *)
Theorem optimize_never_slides :
  (forall ctx, optimize ctx = Ok ctx) /\
  rspans (diff example_split example_strip
            (text_of_lines ["a"; "a"; "b"]%string)
            (text_of_lines ["a"; "b"; "b"]%string) no_options)
  = Ok [(1, 1, 1, 1)] /\
  rspans (diff_as_specified example_split example_strip
            (text_of_lines ["a"; "a"; "b"]%string)
            (text_of_lines ["a"; "b"; "b"]%string) no_options)
  = Ok [(1, 1, 1, 0); (2, 0, 2, 1)].
Proof.
  split; [apply optimize_identity|]. split; vm_compute; reflexivity.
Qed.

(** C5 (the code departs from it). A token that is the name of a
    property inherited from [Object.prototype] is not given an integer
    code: [getCode] finds the inherited member, so [newCode] is not
    called and the counter does not move.  Comparing ["constructor"]
    with ["a"], the first token seen is stored as the inherited member
    and the second distinct token gets the code 1. *)
Theorem inherited_name_gets_no_integer_code :
  _codes (lhs_encoded example_split example_strip
            (JString "constructor") no_options)
  = [CInherited "constructor"] /\
  _codes (rhs_encoded example_split example_strip
            (JString "constructor") (JString "a") no_options)
  = [CNum 1].
Proof. split; vm_compute; reflexivity. Qed.

(** X1. Within one comparison two tokens get the same code exactly
    when their interned forms are equal; and when no interned form is
    the name of a property inherited from [Object.prototype], the codes
    of the left side followed by those of the right side are the
    integers of the first-seen numbering: the next integer, from 1, for
    a new token, the number already given for a token seen before. *)
Theorem codes_in_first_seen_order
    (regex_split : string -> string -> list string) (strip : string -> string)
    (lhs rhs : js_text) (options : Options) :
  let toks := normalize strip options
                <$> (tokens regex_split lhs options ++ tokens regex_split rhs options) in
  let codes := _codes (lhs_encoded regex_split strip lhs options)
               ++ _codes (rhs_encoded regex_split strip lhs rhs options) in
  (forall (i j : nat) ti tj ci cj,
     toks !! i = Some ti -> toks !! j = Some tj ->
     codes !! i = Some ci -> codes !! j = Some cj -> (ci = cj <-> ti = tj)) /\
  (Forall (fun t => t ∉ object_prototype_keys) toks ->
   codes = CNum <$> (first_seen [] toks).1).
Proof.
  intros toks codes. split.
  - destruct (codes_of_tokens regex_split strip lhs rhs options) as [Hl Hr].
    pose proof (rhs_encoder_wf regex_split strip lhs rhs options) as Hwf.
    assert (Hall : Forall2 (fun t c =>
                     getCode (encoder (rhs_encoded regex_split strip lhs rhs options)) t
                     = Some c) toks codes).
    { unfold toks, codes. rewrite fmap_app. apply Forall2_app; by apply Forall2_fmap_l. }
    intros i j ti tj ci cj Hti Htj Hci Hcj.
    pose proof (Forall2_lookup_lr _ _ _ _ _ _ Hall Hti Hci) as Hi.
    pose proof (Forall2_lookup_lr _ _ _ _ _ _ Hall Htj Hcj) as Hj.
    simpl in Hi, Hj. split.
    + intros ->. by eapply getCode_inj.
    + intros ->. congruence.
  - intros Hall. unfold toks in Hall. rewrite fmap_app in Hall.
    apply Forall_app in Hall as [Hl Hr].
    apply (proj1 (Forall_fmap _ (fun t => t ∉ object_prototype_keys) _)) in Hl, Hr.
    destruct (init_loop_first_seen strip (ignoreWhitespace (settings_of options))
                Encoder_new [] (tokens regex_split lhs options) table_of_new Hl)
      as [Hcl Htl].
    destruct (init_loop_first_seen strip (ignoreWhitespace (settings_of options))
                _ _ (tokens regex_split rhs options) Htl Hr) as [Hcr _].
    unfold codes, toks.
    rewrite lhs_encoded_codes, rhs_encoded_codes, lhs_encoded_encoder, Hcl, Hcr.
    rewrite fmap_app, first_seen_app. simpl. by rewrite fmap_app.
Qed.

Lemma codes_in_first_seen_order_example :
  _codes (lhs_encoded example_split example_strip
            (text_of_lines ["a"; "b"; "a"]%string) no_options)
  ++ _codes (rhs_encoded example_split example_strip
               (text_of_lines ["a"; "b"; "a"]%string)
               (text_of_lines ["c"; "b"]%string) no_options)
  = CNum <$> [1; 2; 1; 3; 2].
Proof.
  apply (proj2 (codes_in_first_seen_order example_split example_strip
                  (text_of_lines ["a"; "b"; "a"]%string)
                  (text_of_lines ["c"; "b"]%string) no_options)).
  apply (bool_decide_eq_true_1 (Forall _ _)). vm_compute. reflexivity.
Defined.

(** C3, as the code has it.  For every pair of defined inputs [diff]
    returns the records read off the markers of [LCS] by going through
    both sides from position 0: every record is built from the starts
    and ends [(sl, el, sr, er)] of its two spans ([record_of]); before
    it lies a stretch of unmarked positions, as long on one side as on
    the other and not empty except before the first record; its spans
    hold marked positions only and are not both empty; after the last
    record the positions left are unmarked and as many on one side as
    on the other ([runs]); no other list of positions has this shape.
    [at] is the start of the span, except that a start at the end of a
    side is reported as the last index, and only the last record can
    start there.  Hence the records are in the order [before] and
    [apart] from one another, every record deletes or adds something,
    a position lies in exactly one span when it is marked and in none
    when it is not, and the tokens outside the spans are, in order, the
    same on both sides. *)
Theorem diff_records_ordered
    (regex_split : string -> string -> list string) (strip : string -> string)
    (lhs rhs : js_text) (options : Options) :
  lhs <> JUndefined -> rhs <> JUndefined ->
  let lhsCtx := lhs_encoded regex_split strip lhs options in
  let rhsCtx := rhs_encoded regex_split strip lhs rhs options in
  let L := Z.of_nat (length (tokens regex_split lhs options)) in
  let R := Z.of_nat (length (tokens regex_split rhs options)) in
  exists cs lm rm qs,
    diff regex_split strip lhs rhs options = Ok cs /\
    LCS (_modified lhsCtx) (_codes lhsCtx) (ctx_length lhsCtx)
        (_modified rhsCtx) (_codes rhsCtx) (ctx_length rhsCtx) = Ok (lm, rm) /\
    Forall2 (record_of L R) cs qs /\
    runs lm rm L R 0 0 0 qs /\
    (forall qs', runs lm rm L R 0 0 0 qs' -> qs' = qs) /\
    (forall (i : nat) sl el sr er,
       qs !! i = Some (sl, el, sr, er) -> (S i < length qs)%nat ->
       sl < L /\ sr < R) /\
    StronglySorted (before L R) cs /\
    StronglySorted apart cs /\
    Forall proper_change cs /\
    (forall i, 0 <= i < L ->
       cover_count covers_lhs cs i = if marked lm i then 1%nat else 0%nat) /\
    (forall j, 0 <= j < R ->
       cover_count covers_rhs cs j = if marked rm j then 1%nat else 0%nat) /\
    kept covers_lhs cs (interned regex_split strip lhs options)
    = kept covers_rhs cs (interned regex_split strip rhs options).
Proof.
  intros Hl Hr lhsCtx rhsCtx L R.
  destruct (diff_run regex_split strip lhs rhs options Hl Hr)
    as (lm & rm & qs & HLCS & _ & _ & Hruns & Hd).
  rewrite lhs_encoded_length, rhs_encoded_length in Hruns, Hd.
  fold lhsCtx rhsCtx in HLCS. fold L R in Hruns, Hd.
  eexists _, lm, rm, qs. split; [exact Hd|]. split.
  { unfold lhsCtx at 1, rhsCtx at 1.
    by rewrite lhs_encoded_modified, rhs_encoded_modified. }
  assert (0 <= L) by (unfold L; lia). assert (0 <= R) by (unfold R; lia).
  split; [apply records_of_items|]. split; [done|].
  split; [intros qs' Hq; by apply (runs_unique lm rm L R 0 0 0)|].
  split; [intros i sl el sr er; by apply (runs_inner_starts lm rm L R 0 0 0)|].
  split; [|split; [|split; [|split; [|split]]]].
  - apply sorted_context. by apply (runs_sorted lm rm _ _ 0 0 0).
  - apply apart_context. by apply (runs_apart lm rm _ _ 0 0 0).
  - apply proper_context. by apply (runs_proper lm rm _ _ 0 0 0).
  - intros i Hi. rewrite cover_count_lhs_context.
    rewrite (runs_cover_lhs lm rm _ _ 0 0 0 qs i) by (done || lia).
    destruct (Z.leb_spec 0 i), (Z.ltb_spec i L); try lia. done.
  - intros i Hi. rewrite cover_count_rhs_context.
    rewrite (runs_cover_rhs lm rm _ _ 0 0 0 qs i) by (done || lia).
    destruct (Z.leb_spec 0 i), (Z.ltb_spec i R); try lia. done.
  - destruct (diff_tokens regex_split strip lhs rhs options Hl Hr)
      as (cs' & _ & _ & _ & Hd' & _ & _ & _ & Hk & _).
    rewrite Hd in Hd'. by injection Hd' as <-.
Qed.

Lemma diff_records_ordered_example :
  let lhsCtx := lhs_encoded example_split example_strip
                  (text_of_lines ["a"]%string) no_options in
  let rhsCtx := rhs_encoded example_split example_strip
                  (text_of_lines ["a"]%string)
                  (text_of_lines ["x"; "a"; "y"]%string) no_options in
  exists cs lm rm qs,
    diff example_split example_strip (text_of_lines ["a"]%string)
      (text_of_lines ["x"; "a"; "y"]%string) no_options = Ok cs /\
    LCS (_modified lhsCtx) (_codes lhsCtx) (ctx_length lhsCtx)
        (_modified rhsCtx) (_codes rhsCtx) (ctx_length rhsCtx) = Ok (lm, rm) /\
    Forall2 (record_of 1 3) cs qs /\
    runs lm rm 1 3 0 0 0 qs /\
    (forall qs', runs lm rm 1 3 0 0 0 qs' -> qs' = qs) /\
    (forall (i : nat) sl el sr er,
       qs !! i = Some (sl, el, sr, er) -> (S i < length qs)%nat ->
       sl < 1 /\ sr < 3) /\
    StronglySorted (before 1 3) cs /\
    StronglySorted apart cs /\
    Forall proper_change cs /\
    (forall i, 0 <= i < 1 ->
       cover_count covers_lhs cs i = if marked lm i then 1%nat else 0%nat) /\
    (forall j, 0 <= j < 3 ->
       cover_count covers_rhs cs j = if marked rm j then 1%nat else 0%nat) /\
    kept covers_lhs cs
      (interned example_split example_strip (text_of_lines ["a"]%string) no_options)
    = kept covers_rhs cs
        (interned example_split example_strip
           (text_of_lines ["x"; "a"; "y"]%string) no_options).
Proof.
  apply (diff_records_ordered example_split example_strip
           (text_of_lines ["a"]%string) (text_of_lines ["x"; "a"; "y"]%string)
           no_options); discriminate.
Defined.

(** The order the specification states: [at] grows strictly from a
    record to every later one, on the left side and on the right. *)
Definition at_strictly_increasing (c c' : Change) : Prop :=
  lhs_at c < lhs_at c' /\ rhs_at c < rhs_at c'.

(** C3 fails as stated: comparing ["a"] with ["x\na\ny"] gives two pure
    insertions; the second starts past the end of the left side, so its
    left [at] is clamped to 0, the left [at] of the first. *)
Lemma diff_at_repeats_on_left :
  exists cs,
    diff example_split example_strip (text_of_lines ["a"]%string)
      (text_of_lines ["x"; "a"; "y"]%string) no_options = Ok cs /\
    spans cs = [(0, 0, 0, 1); (0, 0, 2, 1)] /\
    ~ StronglySorted at_strictly_increasing cs.
Proof.
  eexists. split; [vm_compute; reflexivity|]. split; [reflexivity|].
  intros H. apply StronglySorted_inv in H as [_ H].
  apply Forall_cons in H as [[H _] _]. simpl in H. lia.
Qed.

(** On the context a record holds, [getLine(n)] returns the token of
    position [n] in the form that was interned, as long as that form is
    not the name of a property inherited from [Object.prototype]. *)
Lemma getLine_interned
    (regex_split : string -> string -> list string) (strip : string -> string)
    (lhs rhs : js_text) (options : Options) (cs : list Change) (c : Change) :
  diff regex_split strip lhs rhs options = Ok cs -> c ∈ cs ->
  exists lctx rctx,
    lhs_ctx c = Some lctx /\ rhs_ctx c = Some rctx /\
    (forall (n : nat) t,
       tokens regex_split lhs options !! n = Some t ->
       normalize strip options t ∉ object_prototype_keys ->
       getLine lctx (Z.of_nat n) = Some (normalize strip options t)) /\
    (forall (n : nat) t,
       tokens regex_split rhs options !! n = Some t ->
       normalize strip options t ∉ object_prototype_keys ->
       getLine rctx (Z.of_nat n) = Some (normalize strip options t)).
Proof.
  intros Hd Hc.
  assert (Hl : lhs <> JUndefined) by (by intros ->).
  assert (Hr : rhs <> JUndefined) by (intros ->; by destruct lhs).
  destruct (diff_run regex_split strip lhs rhs options Hl Hr)
    as (lm & rm & qs & _ & _ & _ & _ & Hd').
  rewrite Hd in Hd'. injection Hd' as ->.
  apply list_elem_of_fmap in Hc as (item & -> & _).
  eexists _, _. split; [reflexivity|]. split; [reflexivity|].
  destruct (codes_of_tokens regex_split strip lhs rhs options) as [Hcl Hcr].
  pose proof (rhs_encoder_wf regex_split strip lhs rhs options) as Hwf.
  assert (Hget : forall codes modified (toks : list string) (n : nat) t,
            Forall2 (fun t c =>
                       getCode (encoder (rhs_encoded regex_split strip lhs rhs options))
                         (normalize strip options t) = Some c) toks codes ->
            toks !! n = Some t ->
            normalize strip options t ∉ object_prototype_keys ->
            getLine {| encoder := encoder (rhs_encoded regex_split strip lhs rhs options);
                       _codes := codes; _modified := modified |} (Z.of_nat n)
            = Some (normalize strip options t)).
  { intros codes modified toks n t Hall Hn Hk.
    destruct (Forall2_lookup_l _ _ _ _ _ Hall Hn) as (code & Hcode & Hgc).
    unfold getLine, code_at. simpl.
    destruct (Z.ltb_spec (Z.of_nat n) 0); [lia|]. rewrite Nat2Z.id, Hcode.
    unfold getCode in Hgc.
    destruct (diff_codes _ !! normalize strip options t) as [m|] eqn:Em.
    - injection Hgc as <-. apply key_of_code_spec; [apply (wf_inj _ Hwf)|done].
    - rewrite bool_decide_eq_false_2 in Hgc by done. done. }
  split; intros n t Hn Hk; eapply Hget; eauto.
Qed.

(** C7 (the code departs from it).  [getLine(n)] looks the code of
    position [n] up in the encoder's table and returns the key found:
    the token as it was interned.  Without [ignoreWhitespace] that is
    the line itself; with it, [_init] interns the stripped line only,
    the line itself is kept nowhere, and [getLine] returns the stripped
    form.  Comparing [" a\nb"] with ["a\nc"] under
    [{ignoreWhitespace: true}], [getLine(0)] on the left context of the
    reported record is ["a"], not the line [" a"]; without the option
    it is [" a"]. *)
Theorem getLine_loses_original_text :
  (forall regex_split strip lhs rhs options cs c,
     diff regex_split strip lhs rhs options = Ok cs -> c ∈ cs ->
     exists lctx,
       lhs_ctx c = Some lctx /\
       forall (n : nat) t,
         tokens regex_split lhs options !! n = Some t ->
         normalize strip options t ∉ object_prototype_keys ->
         getLine lctx (Z.of_nat n) = Some (normalize strip options t)) /\
  (exists c lctx,
     diff example_split example_strip (text_of_lines [" a"; "b"]%string)
       (text_of_lines ["a"; "c"]%string) ignore_whitespace = Ok [c] /\
     lhs_ctx c = Some lctx /\
     tokens example_split (text_of_lines [" a"; "b"]%string) ignore_whitespace
       !! 0%nat = Some " a"%string /\
     getLine lctx 0 = Some "a"%string /\
     getLine lctx 0 <> Some " a"%string) /\
  (exists c lctx,
     diff example_split example_strip (text_of_lines [" a"; "b"]%string)
       (text_of_lines ["a"; "c"]%string) no_options = Ok [c] /\
     lhs_ctx c = Some lctx /\
     getLine lctx 0 = Some " a"%string).
Proof.
  split; [|split].
  - intros regex_split strip lhs rhs options cs c Hd Hc.
    destruct (getLine_interned regex_split strip lhs rhs options cs c Hd Hc)
      as (lctx & rctx & H1 & _ & H3 & _).
    by exists lctx.
  - eexists _, _. split; [vm_compute; reflexivity|].
    split; [reflexivity|]. split; [vm_compute; reflexivity|].
    split; [vm_compute; reflexivity|]. vm_compute. discriminate.
  - eexists _, _. split; [vm_compute; reflexivity|].
    split; [reflexivity|]. vm_compute. reflexivity.
Qed.

(** * Further properties of the comparison *)

(** X2. For every pair of defined inputs, the tokens [diff] leaves
    uncovered on the left side are, in order, the tokens it leaves
    uncovered on the right side (in their interned forms), and this
    common sequence is a longest common subsequence of the two sides'
    interned tokens. *)
Theorem diff_keeps_longest_common_tokens
    (regex_split : string -> string -> list string) (strip : string -> string)
    (lhs rhs : js_text) (options : Options) :
  lhs <> JUndefined -> rhs <> JUndefined ->
  let TL := interned regex_split strip lhs options in
  let TR := interned regex_split strip rhs options in
  exists cs,
    diff regex_split strip lhs rhs options = Ok cs /\
    kept covers_lhs cs TL = kept covers_rhs cs TR /\
    longest_common (kept covers_lhs cs TL) TL TR.
Proof.
  intros Hl Hr TL TR.
  destruct (diff_tokens regex_split strip lhs rhs options Hl Hr)
    as (cs & lm & rm & qs & Hd & _ & _ & _ & Hk & Hlc & _).
  by exists cs.
Qed.

Lemma diff_keeps_longest_common_tokens_example :
  let TL := interned example_split example_strip
              (text_of_lines ["a"; "b"; "c"]%string) no_options in
  let TR := interned example_split example_strip
              (text_of_lines ["a"; "x"; "c"; "d"]%string) no_options in
  exists cs,
    diff example_split example_strip (text_of_lines ["a"; "b"; "c"]%string)
      (text_of_lines ["a"; "x"; "c"; "d"]%string) no_options = Ok cs /\
    kept covers_lhs cs TL = kept covers_rhs cs TR /\
    longest_common (kept covers_lhs cs TL) TL TR.
Proof.
  apply (diff_keeps_longest_common_tokens example_split example_strip
           (text_of_lines ["a"; "b"; "c"]%string)
           (text_of_lines ["a"; "x"; "c"; "d"]%string) no_options);
    discriminate.
Defined.

(** X3. For defined inputs, [diff] returns the empty change list
    exactly when the two sides have the same interned tokens: equal
    texts, and texts that differ only in what the tokenizer and
    [ignoreWhitespace] remove, and no others. *)
Theorem diff_empty_iff_same_tokens
    (regex_split : string -> string -> list string) (strip : string -> string)
    (lhs rhs : js_text) (options : Options) :
  lhs <> JUndefined -> rhs <> JUndefined ->
  (diff regex_split strip lhs rhs options = Ok [] <->
   interned regex_split strip lhs options = interned regex_split strip rhs options).
Proof.
  intros Hl Hr.
  destruct (diff_tokens regex_split strip lhs rhs options Hl Hr)
    as (cs & lm & rm & qs & Hd & _ & _ & Hp & Hk & (Hs1 & Hs2 & Hmax) & _ & _ & Hsd & Hsa).
  rewrite Hd. split.
  - intros [= ->]. by rewrite !kept_nil in Hk.
  - intros Heq. f_equal. rewrite <- Heq in *.
    pose proof (Hmax _ (reflexivity _) (reflexivity _)).
    pose proof (sublist_length _ _ Hs1).
    apply no_change; [done|lia..].
Qed.

Lemma diff_empty_iff_same_tokens_example :
  diff example_split example_strip (text_of_lines [" a"; "b "]%string)
    (text_of_lines ["a"; "b"]%string) ignore_whitespace = Ok [] <->
  interned example_split example_strip (text_of_lines [" a"; "b "]%string)
    ignore_whitespace
  = interned example_split example_strip (text_of_lines ["a"; "b"]%string)
      ignore_whitespace.
Proof.
  apply (diff_empty_iff_same_tokens example_split example_strip
           (text_of_lines [" a"; "b "]%string) (text_of_lines ["a"; "b"]%string)
           ignore_whitespace); discriminate.
Defined.

(** X4. Swapping the two inputs swaps the totals: what [diff] deletes
    in all comparing [lhs] with [rhs] is what it adds in all comparing
    [rhs] with [lhs], and the other way round. *)
Theorem diff_swap_totals
    (regex_split : string -> string -> list string) (strip : string -> string)
    (lhs rhs : js_text) (options : Options) :
  lhs <> JUndefined -> rhs <> JUndefined ->
  exists cs cs',
    diff regex_split strip lhs rhs options = Ok cs /\
    diff regex_split strip rhs lhs options = Ok cs' /\
    sum_del cs = sum_add cs' /\ sum_add cs = sum_del cs'.
Proof.
  intros Hl Hr.
  destruct (diff_tokens regex_split strip lhs rhs options Hl Hr)
    as (cs & lm & rm & qs & Hd & _ & _ & _ & _ & (Hs1 & Hs2 & Hmax) & _ & _ & Hsd & Hsa).
  destruct (diff_tokens regex_split strip rhs lhs options Hr Hl)
    as (cs' & lm' & rm' & qs' & Hd' & _ & _ & _ & _ & (Hs1' & Hs2' & Hmax') & _ & _
        & Hsd' & Hsa').
  exists cs, cs'. split; [done|]. split; [done|].
  pose proof (Hmax _ Hs2' Hs1'). pose proof (Hmax' _ Hs2 Hs1). lia.
Qed.

Lemma diff_swap_totals_example :
  exists cs cs',
    diff example_split example_strip (text_of_lines ["a"; "b"; "c"]%string)
      (text_of_lines ["a"; "x"; "c"; "d"]%string) no_options = Ok cs /\
    diff example_split example_strip (text_of_lines ["a"; "x"; "c"; "d"]%string)
      (text_of_lines ["a"; "b"; "c"]%string) no_options = Ok cs' /\
    sum_del cs = sum_add cs' /\ sum_add cs = sum_del cs'.
Proof.
  apply (diff_swap_totals example_split example_strip
           (text_of_lines ["a"; "b"; "c"]%string)
           (text_of_lines ["a"; "x"; "c"; "d"]%string) no_options); discriminate.
Defined.

Lemma spans_singleton cs q :
  spans cs = [q] ->
  exists c, cs = [c] /\ (lhs_at c, lhs_del c, rhs_at c, rhs_add c) = q.
Proof.
  destruct cs as [|c [|c' cs]]; try discriminate.
  intros [= <-]. by exists c.
Qed.

(** X5. When the two sides are not empty and have no interned token in
    common, [diff] returns one record, which replaces all of the left
    side by all of the right side. *)
Theorem diff_no_common_token
    (regex_split : string -> string -> list string) (strip : string -> string)
    (lhs rhs : js_text) (options : Options) :
  let TL := interned regex_split strip lhs options in
  let TR := interned regex_split strip rhs options in
  TL <> [] -> TR <> [] -> (forall t, t ∈ TL -> t ∉ TR) ->
  exists c,
    diff regex_split strip lhs rhs options = Ok [c] /\
    lhs_at c = 0 /\ lhs_del c = Z.of_nat (length TL) /\
    rhs_at c = 0 /\ rhs_add c = Z.of_nat (length TR).
Proof.
  intros TL TR HL HR Hdis.
  assert (Hl : lhs <> JUndefined) by (intros ->; by apply HL).
  assert (Hr : rhs <> JUndefined) by (intros ->; by apply HR).
  destruct (diff_tokens regex_split strip lhs rhs options Hl Hr)
    as (cs & lm & rm & qs & Hd & Hsp & Hruns & _ & _ & (Hs1 & Hs2 & _) & Hcl & Hcr & _).
  fold TL TR in Hsp, Hruns, Hs1, Hs2, Hcl, Hcr.
  assert (Hk : kept covers_lhs cs TL = []).
  { destruct (kept covers_lhs cs TL) as [|t k]; [done|exfalso].
    apply (Hdis t).
    - apply (sublist_subseteq _ _ Hs1). by left.
    - apply (sublist_subseteq _ _ Hs2). by left. }
  rewrite Hk in Hcl, Hcr. simpl in Hcl, Hcr.
  assert (0 < Z.of_nat (length TL)) by (destruct TL; [done|simpl; lia]).
  assert (0 < Z.of_nat (length TR)) by (destruct TR; [done|simpl; lia]).
  apply runs_all_marked in Hruns as ->;
    [|done|done|by apply unmarked_count_zero..].
  apply spans_singleton in Hsp as (c & -> & Hc).
  exists c. split; [done|]. simpl in Hc.
  rewrite bool_decide_eq_false_2 in Hc by lia.
  rewrite bool_decide_eq_false_2 in Hc by lia.
  injection Hc as -> -> -> ->. repeat split; lia.
Qed.

Lemma diff_no_common_token_example :
  exists c,
    diff example_split example_strip (text_of_lines ["a"; "b"]%string)
      (text_of_lines ["x"; "y"; "z"]%string) no_options = Ok [c] /\
    lhs_at c = 0 /\ lhs_del c = 2 /\ rhs_at c = 0 /\ rhs_add c = 3.
Proof.
  apply (diff_no_common_token example_split example_strip
           (text_of_lines ["a"; "b"]%string) (text_of_lines ["x"; "y"; "z"]%string)
           no_options).
  - discriminate.
  - discriminate.
  - apply (proj1 (Forall_forall
                    (fun t => t ∉ interned example_split example_strip
                                    (text_of_lines ["x"; "y"; "z"]%string) no_options)
                    (interned example_split example_strip
                       (text_of_lines ["a"; "b"]%string) no_options))).
    apply (bool_decide_eq_true_1 (Forall _ _)). vm_compute. reflexivity.
Defined.

Lemma spans_elem_of cs (c : Change) :
  c ∈ cs -> (lhs_at c, lhs_del c, rhs_at c, rhs_add c) ∈ spans cs.
Proof.
  intros Hc. unfold spans. apply list_elem_of_fmap. by exists c.
Qed.

(** X6. Every record [diff] returns lies within the two texts: on each
    side [at] is not negative, the count is not negative, the span ends
    at or before the end of the side, and [at] is the index of a token
    whenever the side has one. *)
Theorem diff_records_in_bounds
    (regex_split : string -> string -> list string) (strip : string -> string)
    (lhs rhs : js_text) (options : Options) (cs : list Change) (c : Change) :
  diff regex_split strip lhs rhs options = Ok cs -> c ∈ cs ->
  let L := Z.of_nat (length (tokens regex_split lhs options)) in
  let R := Z.of_nat (length (tokens regex_split rhs options)) in
  (0 <= lhs_at c /\ 0 <= lhs_del c /\ lhs_at c + lhs_del c <= L /\
   (0 < L -> lhs_at c < L)) /\
  (0 <= rhs_at c /\ 0 <= rhs_add c /\ rhs_at c + rhs_add c <= R /\
   (0 < R -> rhs_at c < R)).
Proof.
  intros Hd Hc L R.
  assert (Hl : lhs <> JUndefined) by (by intros ->).
  assert (Hr : rhs <> JUndefined) by (intros ->; by destruct lhs).
  destruct (diff_tokens regex_split strip lhs rhs options Hl Hr)
    as (cs' & lm & rm & qs & Hd' & Hsp & Hruns & _).
  rewrite Hd in Hd'. injection Hd' as <-.
  rewrite !interned_length in Hsp, Hruns. fold L R in Hsp, Hruns.
  apply spans_elem_of in Hc. rewrite Hsp in Hc.
  unfold spans in Hc. apply list_elem_of_fmap in Hc as (c' & Hc' & Hin).
  apply list_elem_of_fmap in Hin as (q & -> & Hq).
  pose proof (runs_quads lm rm L R 0 0 0 qs ltac:(lia) Hruns) as Hall.
  pose proof (proj1 (Forall_forall _ _) Hall q Hq) as Hok.
  destruct q as [[[sl el] sr] er]. simpl in Hok, Hc'.
  injection Hc' as -> -> -> ->.
  repeat case_bool_decide; lia.
Qed.

Lemma diff_records_in_bounds_example :
  exists c,
    diff example_split example_strip (text_of_lines ["a"]%string)
      (text_of_lines ["a"; "y"]%string) no_options = Ok [c] /\
    (0 <= lhs_at c /\ 0 <= lhs_del c /\ lhs_at c + lhs_del c <= 1 /\
     (0 < 1 -> lhs_at c < 1)) /\
    (0 <= rhs_at c /\ 0 <= rhs_add c /\ rhs_at c + rhs_add c <= 2 /\
     (0 < 2 -> rhs_at c < 2)).
Proof.
  assert (Hc : exists c,
             diff example_split example_strip (text_of_lines ["a"]%string)
               (text_of_lines ["a"; "y"]%string) no_options = Ok [c])
    by (vm_compute; eexists; reflexivity).
  destruct Hc as [c Hc]. exists c. split; [done|].
  apply (diff_records_in_bounds example_split example_strip
           (text_of_lines ["a"]%string) (text_of_lines ["a"; "y"]%string)
           no_options [c] c Hc). by left.
Defined.

(** X7. On the context a record holds, [getLine(n)] returns
    [undefined] for every [n] outside the side's positions, and for
    every position whose interned token is the name of a property
    inherited from [Object.prototype]. *)
Theorem getLine_undefined
    (regex_split : string -> string -> list string) (strip : string -> string)
    (lhs rhs : js_text) (options : Options) (cs : list Change) (c : Change) :
  diff regex_split strip lhs rhs options = Ok cs -> c ∈ cs ->
  exists lctx rctx,
    lhs_ctx c = Some lctx /\ rhs_ctx c = Some rctx /\
    (forall n, n < 0 \/ Z.of_nat (length (tokens regex_split lhs options)) <= n ->
       getLine lctx n = None) /\
    (forall n, n < 0 \/ Z.of_nat (length (tokens regex_split rhs options)) <= n ->
       getLine rctx n = None) /\
    (forall (n : nat) t,
       interned regex_split strip lhs options !! n = Some t ->
       t ∈ object_prototype_keys -> getLine lctx (Z.of_nat n) = None) /\
    (forall (n : nat) t,
       interned regex_split strip rhs options !! n = Some t ->
       t ∈ object_prototype_keys -> getLine rctx (Z.of_nat n) = None).
Proof.
  intros Hd Hc.
  assert (Hl : lhs <> JUndefined) by (by intros ->).
  assert (Hr : rhs <> JUndefined) by (intros ->; by destruct lhs).
  destruct (diff_run regex_split strip lhs rhs options Hl Hr)
    as (lm & rm & qs & _ & _ & _ & _ & Hd').
  rewrite Hd in Hd'. injection Hd' as ->.
  apply list_elem_of_fmap in Hc as (item & -> & _).
  eexists _, _. split; [reflexivity|]. split; [reflexivity|].
  destruct (codes_interned regex_split strip lhs rhs options) as (HA & HB & HDl & HDr).
  pose proof (rhs_encoder_wf regex_split strip lhs rhs options) as Hwf.
  set (e := encoder (rhs_encoded regex_split strip lhs rhs options)) in *.
  assert (Hout : forall codes modified n,
            n < 0 \/ Z.of_nat (length codes) <= n ->
            getLine {| encoder := e; _codes := codes; _modified := modified |} n
            = None).
  { intros codes modified n Hn. unfold getLine, code_at. simpl.
    destruct (Z.ltb_spec n 0); [done|].
    rewrite lookup_ge_None_2 by lia. done. }
  assert (Hinh : forall codes modified (toks : list string) (n : nat) t,
            codes = code_of e <$> toks -> is_Some (getCode e t) ->
            toks !! n = Some t -> t ∈ object_prototype_keys ->
            getLine {| encoder := e; _codes := codes; _modified := modified |}
              (Z.of_nat n) = None).
  { intros codes modified toks n t -> [k Hk] Hn Ht.
    unfold getLine, code_at. simpl.
    destruct (Z.ltb_spec (Z.of_nat n) 0); [lia|].
    rewrite Nat2Z.id, list_lookup_fmap, Hn. simpl.
    unfold code_of. rewrite Hk. simpl.
    unfold getCode in Hk. rewrite (wf_own e Hwf t Ht) in Hk.
    rewrite bool_decide_eq_true_2 in Hk by done. by injection Hk as <-. }
  split; [|split; [|split]].
  - intros n Hn. apply Hout. unfold lhs_final; simpl.
    fold (ctx_length (lhs_encoded regex_split strip lhs options)).
    by rewrite lhs_encoded_length.
  - intros n Hn. apply Hout. unfold rhs_final; simpl.
    fold (ctx_length (rhs_encoded regex_split strip lhs rhs options)).
    by rewrite rhs_encoded_length.
  - intros n t Hn Ht. eapply Hinh; [exact HA| |exact Hn|exact Ht].
    apply (proj1 (Forall_forall _ _) HDl). by eapply list_elem_of_lookup_2.
  - intros n t Hn Ht. eapply Hinh; [exact HB| |exact Hn|exact Ht].
    apply (proj1 (Forall_forall _ _) HDr). by eapply list_elem_of_lookup_2.
Qed.

Lemma getLine_undefined_example :
  exists c lctx,
    diff example_split example_strip (text_of_lines ["toString"; "b"]%string)
      (text_of_lines ["toString"; "c"]%string) no_options = Ok [c] /\
    lhs_ctx c = Some lctx /\
    getLine lctx 2 = None /\ getLine lctx (-1) = None /\ getLine lctx 0 = None.
Proof.
  assert (Hc : exists c,
             diff example_split example_strip (text_of_lines ["toString"; "b"]%string)
               (text_of_lines ["toString"; "c"]%string) no_options = Ok [c])
    by (vm_compute; eexists; reflexivity).
  destruct Hc as [c Hc]. exists c.
  destruct (getLine_undefined example_split example_strip
              (text_of_lines ["toString"; "b"]%string)
              (text_of_lines ["toString"; "c"]%string)
              no_options [c] c Hc ltac:(by left))
    as (lctx & rctx & H1 & H2 & H3 & H4 & H5 & H6).
  exists lctx. split; [done|]. split; [done|]. split; [|split].
  - apply H3. right. vm_compute. discriminate.
  - apply H3. left. lia.
  - apply (H5 0%nat "toString"%string); [reflexivity|].
    apply (bool_decide_eq_true_1 (_ ∈ _)). vm_compute. reflexivity.
Defined.

(** ** The table of the encoder *)

(** The table after the interned tokens [seen] have gone through
    [_init]: its own keys are the tokens of [seen] that do not name an
    inherited property, and their codes are the integers from 1 to the
    counter, each held by one key. *)
Record table_exact (e : Encoder) (seen : list string) : Prop := {
  te_dom : forall k,
    is_Some (diff_codes e !! k) <-> k ∈ seen /\ k ∉ object_prototype_keys;
  te_range : forall k n, diff_codes e !! k = Some n -> 1 <= n <= enc_code e;
  te_onto : forall n, 1 <= n <= enc_code e -> exists k, diff_codes e !! k = Some n;
  te_inj : forall k1 k2 n,
    diff_codes e !! k1 = Some n -> diff_codes e !! k2 = Some n -> k1 = k2;
  te_size : enc_code e = Z.of_nat (size (diff_codes e))
}.

Lemma table_exact_new : table_exact Encoder_new [].
Proof.
  split; simpl.
  - intros k. rewrite lookup_empty. split; [by intros [? ?]|].
    intros [Hk _]. by apply not_elem_of_nil in Hk.
  - intros k n. by rewrite lookup_empty.
  - intros n Hn. lia.
  - intros k1 k2 n. by rewrite lookup_empty.
  - by rewrite map_size_empty.
Qed.

Lemma table_exact_seen e seen t :
  table_exact e seen -> is_Some (getCode e t) -> table_exact e (seen ++ [t]).
Proof.
  intros [Hdom Hrange Honto Hinj Hsize] [c Hc]. split; try done.
  intros k. rewrite Hdom, elem_of_app, list_elem_of_singleton. split.
  - intros [? ?]. auto.
  - intros [[Hk| ->] Hn]; [done|].
    apply Hdom. unfold getCode in Hc.
    destruct (diff_codes e !! t); [by eexists|].
    by rewrite bool_decide_eq_false_2 in Hc.
Qed.

Lemma table_exact_newCode e seen t :
  table_exact e seen -> getCode e t = None ->
  table_exact (newCode e t).2 (seen ++ [t]).
Proof.
  intros [Hdom Hrange Honto Hinj Hsize] Hnone.
  apply getCode_None in Hnone as [Hown Hproto].
  assert (0 <= enc_code e) by lia.
  unfold newCode. split; simpl.
  - intros k. rewrite lookup_insert, elem_of_app, list_elem_of_singleton.
    case_decide as Hk.
    + subst k. split; [auto|by eexists].
    + rewrite Hdom. split; [intros [? ?]; auto|].
      intros [[?| ->] ?]; done.
  - intros k n. rewrite lookup_insert. case_decide.
    + intros [= <-]. lia.
    + intros Hk. pose proof (Hrange k n Hk). lia.
  - intros n Hn. destruct (decide (n = enc_code e + 1)) as [->|Hne].
    + exists t. by rewrite lookup_insert_eq.
    + destruct (Honto n ltac:(lia)) as [k Hk]. exists k.
      rewrite lookup_insert_ne; [done|]. intros ->. congruence.
  - intros k1 k2 n. rewrite !lookup_insert. repeat case_decide; subst.
    + done.
    + intros [= <-] Hk. pose proof (Hrange k2 _ Hk). lia.
    + intros Hk [= <-]. pose proof (Hrange k1 _ Hk). lia.
    + apply Hinj.
  - rewrite map_size_insert_None by done. lia.
Qed.

Lemma init_loop_table (strip : string -> string) (ws : bool) e seen
    (lines : list string) :
  table_exact e seen ->
  table_exact (init_loop strip ws e lines).2
    (seen ++ ((fun l => if ws then strip l else l) <$> lines)).
Proof.
  revert e seen. induction lines as [|l lines IH]; intros e seen Ht.
  - simpl. by rewrite app_nil_r.
  - rewrite init_loop_cons, fmap_cons. cbv zeta.
    set (line := if ws then strip l else l).
    rewrite (cons_middle line), app_assoc.
    destruct (getCode e line) as [c|] eqn:Ec; cbn [snd].
    + apply IH. apply table_exact_seen; [done|by eexists].
    + apply IH. by apply table_exact_newCode.
Qed.

(** X8. After the two sides have been encoded, the own keys of the
    shared table ([getCodes()]) are exactly the interned tokens of
    either side that do not name a property inherited from
    [Object.prototype]; their codes are exactly the integers from 1 to
    the counter, no two keys share one, and the counter is the number
    of own keys. *)
Theorem encoder_table_after_encoding
    (regex_split : string -> string -> list string) (strip : string -> string)
    (lhs rhs : js_text) (options : Options) :
  let e := encoder (rhs_encoded regex_split strip lhs rhs options) in
  (forall k,
     is_Some (getCodes e !! k) <->
     k ∈ interned regex_split strip lhs options
         ++ interned regex_split strip rhs options /\
     k ∉ object_prototype_keys) /\
  (forall n, (exists k, getCodes e !! k = Some n) <-> 1 <= n <= enc_code e) /\
  (forall k1 k2 n,
     getCodes e !! k1 = Some n -> getCodes e !! k2 = Some n -> k1 = k2) /\
  enc_code e = Z.of_nat (size (getCodes e)).
Proof.
  intros e.
  assert (Ht : table_exact e (interned regex_split strip lhs options
                              ++ interned regex_split strip rhs options)).
  { unfold e. rewrite rhs_encoded_encoder. apply init_loop_table.
    rewrite lhs_encoded_encoder.
    apply (init_loop_table strip _ Encoder_new [] _ table_exact_new). }
  destruct Ht as [Hdom Hrange Honto Hinj Hsize]. unfold getCodes.
  split; [done|]. split; [|done].
  intros n. split; [|apply Honto]. intros [k Hk]. by eapply Hrange.
Qed.

(** ** Encoding a text again *)

(** The codes [_init] stores are the codes the table it leaves gives,
    and codes already in the table stay. *)
Lemma init_loop_stores (strip : string -> string) (ws : bool) e (lines : list string) :
  (forall k c, getCode e k = Some c ->
               getCode (init_loop strip ws e lines).2 k = Some c) /\
  Forall2 (fun l c => getCode (init_loop strip ws e lines).2
                        (if ws then strip l else l) = Some c)
    lines (init_loop strip ws e lines).1.
Proof.
  revert e. induction lines as [|l lines IH]; intros e.
  - simpl. split; [done|constructor].
  - rewrite init_loop_cons. cbv zeta.
    set (line := if ws then strip l else l).
    destruct (getCode e line) as [aCode|] eqn:Ec; simpl.
    + destruct (IH e) as (Hmono & Hall).
      split; [done|]. constructor; [|done]. by apply Hmono.
    + destruct (IH (newCode e line).2) as (Hmono & Hall).
      split; [|constructor; [|done]].
      * intros k c' Hk. apply Hmono. by apply newCode_getCode.
      * apply Hmono. apply newCode_getCode_eq.
Qed.

(** On lines that all have a code already, [_init] reads the codes and
    leaves the encoder as it is. *)
Lemma init_loop_known (strip : string -> string) (ws : bool) e
    (lines : list string) (cs : list code) :
  Forall2 (fun l c => getCode e (if ws then strip l else l) = Some c) lines cs ->
  init_loop strip ws e lines = (cs, e).
Proof.
  induction 1 as [|l c lines cs Hlc _ IH]; [done|].
  rewrite init_loop_cons. cbv zeta. rewrite Hlc, IH. done.
Qed.

(** X9. Encoding a text again with the encoder that has encoded it
    gives the same context: the same codes, no new code, the encoder
    unchanged. *)
Theorem encode_again
    (regex_split : string -> string -> list string) (strip : string -> string)
    (e : Encoder) (text : js_text) (settings : Settings) :
  let ctx := encode regex_split strip e text settings in
  encode regex_split strip (encoder ctx) text settings = ctx.
Proof.
  unfold encode, EncodeContext_new, _init.
  destruct (init_loop_stores strip (ignoreWhitespace settings) e
              (split_text regex_split text settings)) as [_ Hall].
  destruct (init_loop strip (ignoreWhitespace settings) e
              (split_text regex_split text settings)) as [cs e'] eqn:E.
  simpl in *. by rewrite (init_loop_known _ _ _ _ _ Hall).
Qed.

(** X10. Given the lengths of the two code sequences and any
    sub-range [[ll, lu) x [rl, ru)] of them whose positions are not yet
    marked, and whatever the diagonal vectors hold,
    [getLongestCommonSubsequence] returns; it leaves every marker
    outside the range as it was, and inside the range the unmarked
    items of the two sides are the same sequence, a longest common
    subsequence of the two ranges. *)
Theorem getLongestCommonSubsequence_on_range
    (A B : list code) (fuel : nat) (ll lu rl ru : Z) (w : Work) :
  0 <= ll <= lu -> lu <= Z.of_nat (length A) ->
  0 <= rl <= ru -> ru <= Z.of_nat (length B) ->
  (lu - ll) + (ru - rl) < Z.of_nat fuel ->
  clear (lhs_modified w) ll lu -> clear (rhs_modified w) rl ru ->
  exists w',
    getLongestCommonSubsequence A (Z.of_nat (length A)) B (Z.of_nat (length B))
      fuel ll lu rl ru w = Ok w' /\
    (forall i, ~ ll <= i < lu -> lhs_modified w' !! i = lhs_modified w !! i) /\
    (forall j, ~ rl <= j < ru -> rhs_modified w' !! j = rhs_modified w !! j) /\
    unmarked (lhs_modified w') A ll lu = unmarked (rhs_modified w') B rl ru /\
    is_lcs (unmarked (lhs_modified w') A ll lu) (slice A ll lu) (slice B rl ru).
Proof.
  intros Hl Hlu Hr Hru Hf Hcl Hcr.
  destruct (getLongestCommonSubsequence_spec A B
              (Z.of_nat (length A)) (Z.of_nat (length B)) fuel ll lu rl ru w
              Hl Hlu Hr Hru Hf Hcl Hcr) as (w' & Hw & H1 & H2 & Heq & Hmax).
  exists w'. split; [done|]. split; [done|]. split; [done|]. split; [done|].
  split; [|done]. split.
  - apply unmarked_sublist; lia.
  - rewrite Heq. apply unmarked_sublist; lia.
Qed.

Lemma getLongestCommonSubsequence_on_range_example :
  exists w',
    getLongestCommonSubsequence [CNum 9; CNum 1; CNum 2] 3 [CNum 1; CNum 3; CNum 9] 3
      5 1 3 0 2
      {| lhs_modified := {[0 := true]}; rhs_modified := ∅;
         vector_u := ∅; vector_d := ∅ |} = Ok w' /\
    lhs_modified w' !! 0 = Some true /\ rhs_modified w' !! 2 = None /\
    unmarked (lhs_modified w') [CNum 9; CNum 1; CNum 2] 1 3 = [CNum 1].
Proof.
  destruct (getLongestCommonSubsequence_on_range
              [CNum 9; CNum 1; CNum 2] [CNum 1; CNum 3; CNum 9] 5 1 3 0 2
              {| lhs_modified := {[0 := true]}; rhs_modified := ∅;
                 vector_u := ∅; vector_d := ∅ |})
    as (w' & Hw & H1 & H2 & _); [simpl; lia..| | |].
  - intros i Hi. unfold marked. simpl. rewrite lookup_singleton_ne by lia. done.
  - intros i Hi. apply marked_empty.
  - exists w'. split; [exact Hw|]. split; [|split].
    + rewrite H1 by lia. reflexivity.
    + rewrite H2 by lia. reflexivity.
    + vm_compute in Hw. injection Hw as <-. vm_compute. reflexivity.
Defined.

(** X11. Given the lengths of the two code sequences and a range
    within them that is not empty on either side and whose first items
    differ and whose last items differ, as after the trimming, the
    midpoint [getShortestMiddleSnake] returns lies in the range and is
    neither of its corners: each of the two recursive calls gets a
    strictly smaller range. *)
Theorem getShortestMiddleSnake_splits
    (A : list code) (ll lu : Z) (B : list code) (rl ru : Z)
    (vu vd : gmap Z Z) :
  0 <= ll -> lu <= Z.of_nat (length A) ->
  0 <= rl -> ru <= Z.of_nat (length B) ->
  ll < lu -> rl < ru ->
  js_eq (code_at A ll) (code_at B rl) = false ->
  js_eq (code_at A (lu - 1)) (code_at B (ru - 1)) = false ->
  exists ret vu' vd',
    getShortestMiddleSnake A (Z.of_nat (length A)) ll lu
      B (Z.of_nat (length B)) rl ru vu vd = Ok (ret, vu', vd') /\
    ll <= sms_x ret <= lu /\ rl <= sms_y ret <= ru /\
    0 < (sms_x ret - ll) + (sms_y ret - rl) < (lu - ll) + (ru - rl).
Proof.
  intros _ _ _ _ Hx Hy Hlo Hhi.
  destruct (getShortestMiddleSnake_spec A (Z.of_nat (length A)) ll lu
              B (Z.of_nat (length B)) rl ru
              ltac:(lia) ltac:(lia) vu vd) as (ret & vu' & vd' & Hs & Hmid).
  exists ret, vu', vd'. split; [done|].
  apply (midpoint_progress A ll lu B rl ru ret Hx Hy); [| |done].
  - unfold mt_rect. rewrite Hlo. apply andb_false_r.
  - unfold mt_rect. rewrite Hhi. apply andb_false_r.
Qed.

Lemma getShortestMiddleSnake_splits_example :
  exists ret vu' vd',
    getShortestMiddleSnake [CNum 1; CNum 2; CNum 3] 3 0 3
      [CNum 2; CNum 3; CNum 4] 3 0 3 ∅ ∅ = Ok (ret, vu', vd') /\
    0 <= sms_x ret <= 3 /\ 0 <= sms_y ret <= 3 /\
    0 < (sms_x ret - 0) + (sms_y ret - 0) < (3 - 0) + (3 - 0).
Proof.
  apply (getShortestMiddleSnake_splits [CNum 1; CNum 2; CNum 3] 0 3
           [CNum 2; CNum 3; CNum 4] 0 3 ∅ ∅);
    first [simpl; lia|reflexivity].
Defined.

(** ** The change builder on arbitrary markers *)

Section CompareAny.

Variables (lm rm : gmap Z bool) (L R : Z).

(** The shape of the emitted items from the positions [(l, r)] on,
    whatever the markers are: a stretch of unmarked positions, as long
    on one side as on the other, then an item, and so on, up to both
    ends. *)
Fixpoint steps (l r : Z) (qs : list quad) : Prop :=
  match qs with
  | [] => 0 <= L - l /\ L - l = R - r /\ clear lm l L /\ clear rm r R
  | (sl, el, sr, er) :: qs' =>
      0 <= sl - l /\ sl - l = sr - r /\
      clear lm l sl /\ clear rm r sr /\
      sl <= el <= L /\ sr <= er <= R /\ (sl < el \/ sr < er) /\
      steps el er qs'
  end.

Lemma steps_step l r qs :
  marked lm l = false -> marked rm r = false ->
  steps (l + 1) (r + 1) qs -> l < L -> r < R -> steps l r qs.
Proof.
  intros Hl Hr H HlL HrR. destruct qs as [|[[[sl el] sr] er] qs]; simpl in *.
  - destruct H as (H1 & H2 & H3 & H4). repeat split; try lia.
    + intros i Hi. destruct (decide (i = l)) as [->|]; [done|apply H3; lia].
    + intros i Hi. destruct (decide (i = r)) as [->|]; [done|apply H4; lia].
  - destruct H as (H1 & H2 & H3 & H4 & H5).
    split; [lia|]. split; [lia|]. split; [|split; [|done]].
    + intros i Hi. destruct (decide (i = l)) as [->|]; [done|apply H3; lia].
    + intros i Hi. destruct (decide (i = r)) as [->|]; [done|apply H4; lia].
Qed.

Context {St : Type}.
Variable callback : Change -> St -> St.

(** The loop returns whatever the markers are. *)
Lemma compare_loop_any (n : nat) l r acc :
  0 <= l <= L -> 0 <= r <= R ->
  (L - l) + (R - r) <= Z.of_nat n ->
  exists qs,
    compare_loop lm L rm R callback n l r acc = Ok (emit L R callback acc qs) /\
    steps l r qs.
Proof.
  revert l r acc. induction n as [|n IH]; intros l r acc Hl Hr Hn.
  - assert (l = L) by lia. assert (r = R) by lia. subst. simpl.
    destruct (Z.ltb_spec L L), (Z.ltb_spec R R); try lia. simpl.
    exists []. split; [done|]. simpl. repeat split; try lia; intros i Hi; lia.
  - simpl. destruct ((l <? L) || (r <? R)) eqn:Eg.
    2:{ apply orb_false_elim in Eg as [E1 E2].
        apply Z.ltb_ge in E1, E2. assert (l = L) by lia. assert (r = R) by lia.
        subst. exists []. split; [done|]. simpl.
        repeat split; try lia; intros i Hi; lia. }
    destruct ((l <? L) && negb (marked lm l) && (r <? R) && negb (marked rm r))
      eqn:Ee.
    + apply andb_prop in Ee as [Ee Hmr]. apply andb_prop in Ee as [Ee HrR].
      apply andb_prop in Ee as [HlL Hml].
      apply Z.ltb_lt in HlL, HrR. apply negb_true_iff in Hml, Hmr.
      destruct (IH (l + 1) (r + 1) acc) as (qs & Hq & Hsteps); [lia|lia|lia|].
      exists qs. split; [done|]. by apply steps_step.
    + destruct (skip_modified_spec (Z.to_nat (L - l)) lm L
                  (bool_decide (R <= r)) l) as (el & -> & Hel1 & Hel2 & Hel3 & Hel4 & Hel5);
        [lia|].
      destruct (skip_modified_spec (Z.to_nat (R - r)) rm R
                  (bool_decide (L <= el)) r) as (er & -> & Her1 & Her2 & Her3 & Her4 & Her5);
        [lia|].
      specialize (Hel2 ltac:(lia)). specialize (Her2 ltac:(lia)).
      assert (Hprog : l < el \/ r < er).
      { apply orb_prop in Eg.
        destruct (decide (l < L)) as [HlL|HlL].
        - destruct (marked lm l) eqn:Em; [left; apply Hel5; auto|].
          destruct (decide (r < R)) as [HrR|HrR].
          + destruct (marked rm r) eqn:Em'; [right; apply Her5; auto|].
            exfalso. destruct (Z.ltb_spec l L), (Z.ltb_spec r R);
              first [lia|simpl in Ee; discriminate].
          + left. apply Hel5; [done|]. left. apply bool_decide_eq_true. lia.
        - assert (r < R) by (destruct Eg as [E|E]; apply Z.ltb_lt in E; lia).
          right. apply Her5; [done|]. left. apply bool_decide_eq_true. lia. }
      replace ((l <? el) || (r <? er)) with true.
      2:{ symmetry. apply orb_true_iff. destruct Hprog; [left|right];
            apply Z.ltb_lt; lia. }
      destruct (IH el er (callback (make_item L R l el r er) acc))
        as (qs & Hq & Hsteps); [lia|lia|lia|].
      exists ((l, el, r, er) :: qs). split; [done|]. simpl.
      split; [lia|]. split; [lia|]. split; [intros i Hi; lia|].
      split; [intros i Hi; lia|]. done.
Qed.

End CompareAny.

Lemma emit_collect L R acc qs :
  emit L R (fun c (a : list Change) => a ++ [c]) acc qs = acc ++ (item_of L R <$> qs).
Proof.
  revert acc. induction qs as [|q qs IH]; intros acc; unfold emit in *; simpl.
  - by rewrite app_nil_r.
  - rewrite IH. by rewrite <- app_assoc.
Qed.

Section StepsFacts.

Variables (lm rm : gmap Z bool) (L R : Z).

Lemma steps_proper l r qs :
  steps lm rm L R l r qs -> Forall proper_change (item_of L R <$> qs).
Proof.
  revert l r. induction qs as [|[[[sl el] sr] er] qs IH]; intros l r H.
  - constructor.
  - simpl in H. destruct H as (H1 & H2 & H3 & H4 & H5 & H6 & H7 & H8).
    rewrite fmap_cons. constructor; [|by eapply IH].
    unfold proper_change. simpl. lia.
Qed.

(** Both sides are left with equally many positions outside the
    spans. *)
Lemma steps_account l r qs :
  steps lm rm L R l r qs ->
  (L - l) - sum_del (item_of L R <$> qs) = (R - r) - sum_add (item_of L R <$> qs) /\
  0 <= (L - l) - sum_del (item_of L R <$> qs).
Proof.
  revert l r. induction qs as [|[[[sl el] sr] er] qs IH]; intros l r H.
  - simpl in H. unfold sum_del, sum_add. simpl. lia.
  - simpl in H. destruct H as (H1 & H2 & H3 & H4 & H5 & H6 & H7 & H8).
    destruct (IH el er H8) as [IH1 IH2].
    rewrite fmap_cons. unfold sum_del, sum_add in *. simpl. lia.
Qed.

Lemma steps_cover_lhs l r qs i :
  0 <= l -> steps lm rm L R l r qs ->
  (i < l -> cover_count covers_lhs (item_of L R <$> qs) i = 0%nat) /\
  (l <= i < L ->
   cover_count covers_lhs (item_of L R <$> qs) i = 1%nat \/
   (cover_count covers_lhs (item_of L R <$> qs) i = 0%nat /\ marked lm i = false)).
Proof.
  revert l r. induction qs as [|[[[sl el] sr] er] qs IH]; intros l r Hl H.
  - simpl in H. destruct H as (_ & _ & Hc & _). split; [done|].
    intros Hi. right. split; [done|]. by apply Hc.
  - simpl in H. destruct H as (H1 & H2 & H3 & H4 & H5 & H6 & H7 & H8).
    destruct (IH el er ltac:(lia) H8) as [IH1 IH2].
    unfold cover_count in *. rewrite fmap_cons.
    pose proof (item_covers_lhs L R sl el sr er i ltac:(lia) ltac:(lia)) as Hc.
    destruct (Z.leb_spec sl i), (Z.ltb_spec i el).
    + rewrite filter_cons_True by (by rewrite Hc). simpl. split; [lia|].
      intros _. left. rewrite IH1 by lia. done.
    + rewrite filter_cons_False by (rewrite Hc; simpl; done).
      split; [lia|]. intros Hi. apply IH2. lia.
    + rewrite filter_cons_False by (rewrite Hc; simpl; done).
      split; [intros; apply IH1; lia|].
      intros Hi. right. split; [apply IH1; lia|]. apply H3. lia.
    + lia.
Qed.

Lemma steps_cover_rhs l r qs i :
  0 <= r -> steps lm rm L R l r qs ->
  (i < r -> cover_count covers_rhs (item_of L R <$> qs) i = 0%nat) /\
  (r <= i < R ->
   cover_count covers_rhs (item_of L R <$> qs) i = 1%nat \/
   (cover_count covers_rhs (item_of L R <$> qs) i = 0%nat /\ marked rm i = false)).
Proof.
  revert l r. induction qs as [|[[[sl el] sr] er] qs IH]; intros l r Hr H.
  - simpl in H. destruct H as (_ & _ & _ & Hc). split; [done|].
    intros Hi. right. split; [done|]. by apply Hc.
  - simpl in H. destruct H as (H1 & H2 & H3 & H4 & H5 & H6 & H7 & H8).
    destruct (IH el er ltac:(lia) H8) as [IH1 IH2].
    unfold cover_count in *. rewrite fmap_cons.
    pose proof (item_covers_rhs L R sl el sr er i ltac:(lia) ltac:(lia)) as Hc.
    destruct (Z.leb_spec sr i), (Z.ltb_spec i er).
    + rewrite filter_cons_True by (by rewrite Hc). simpl. split; [lia|].
      intros _. left. rewrite IH1 by lia. done.
    + rewrite filter_cons_False by (rewrite Hc; simpl; done).
      split; [lia|]. intros Hi. apply IH2. lia.
    + rewrite filter_cons_False by (rewrite Hc; simpl; done).
      split; [intros; apply IH1; lia|].
      intros Hi. right. split; [apply IH1; lia|]. apply H4. lia.
    + lia.
Qed.

End StepsFacts.

(** X12. Whatever the two marker objects hold, [compare_lcs] returns;
    every item it hands to the callback deletes or adds something; no
    position lies in two spans and every marked position lies in one;
    and the two sides are left with equally many positions outside the
    spans. *)
Theorem compare_lcs_any_markers (lm rm : gmap Z bool) (L R : Z) :
  0 <= L -> 0 <= R ->
  exists cs,
    compare_lcs lm L rm R (fun c (a : list Change) => a ++ [c]) [] = Ok cs /\
    Forall proper_change cs /\
    L - sum_del cs = R - sum_add cs /\ 0 <= L - sum_del cs /\
    (forall i, 0 <= i < L ->
       cover_count covers_lhs cs i = 1%nat \/
       (cover_count covers_lhs cs i = 0%nat /\ marked lm i = false)) /\
    (forall j, 0 <= j < R ->
       cover_count covers_rhs cs j = 1%nat \/
       (cover_count covers_rhs cs j = 0%nat /\ marked rm j = false)).
Proof.
  intros HL HR. unfold compare_lcs.
  destruct (compare_loop_any lm rm L R (fun c (a : list Change) => a ++ [c])
              (Z.to_nat L + Z.to_nat R) 0 0 []) as (qs & Hq & Hsteps); [lia..|].
  rewrite emit_collect in Hq. simpl in Hq.
  exists (item_of L R <$> qs). split; [done|].
  split; [by eapply steps_proper|].
  destruct (steps_account lm rm L R 0 0 qs Hsteps) as [Ha Hb].
  split; [lia|]. split; [lia|]. split.
  - intros i Hi. by apply (steps_cover_lhs lm rm L R 0 0 qs i ltac:(lia) Hsteps).
  - intros j Hj. by apply (steps_cover_rhs lm rm L R 0 0 qs j ltac:(lia) Hsteps).
Qed.

Lemma compare_lcs_any_markers_example :
  exists cs,
    compare_lcs {[0 := true]} 2 ∅ 3 (fun c (a : list Change) => a ++ [c]) [] = Ok cs /\
    Forall proper_change cs /\
    2 - sum_del cs = 3 - sum_add cs /\ 0 <= 2 - sum_del cs /\
    (forall i, 0 <= i < 2 ->
       cover_count covers_lhs cs i = 1%nat \/
       (cover_count covers_lhs cs i = 0%nat /\ marked {[0 := true]} i = false)) /\
    (forall j, 0 <= j < 3 ->
       cover_count covers_rhs cs j = 1%nat \/
       (cover_count covers_rhs cs j = 0%nat /\ marked ∅ j = false)).
Proof.
  apply (compare_lcs_any_markers {[0 := true]} ∅ 2 3); lia.
Defined.

(** ** Records do not touch *)

(** X13. The records [diff] returns do not touch: between a record and
    every later one there is, on each side, at least one token that no
    record covers, so that neighbouring changes are always reported as
    one record. *)
Theorem diff_records_apart
    (regex_split : string -> string -> list string) (strip : string -> string)
    (lhs rhs : js_text) (options : Options) (cs : list Change) :
  diff regex_split strip lhs rhs options = Ok cs ->
  StronglySorted apart cs.
Proof.
  intros Hd.
  assert (Hl : lhs <> JUndefined) by (by intros ->).
  assert (Hr : rhs <> JUndefined) by (intros ->; by destruct lhs).
  destruct (diff_run regex_split strip lhs rhs options Hl Hr)
    as (lm & rm & qs & _ & _ & _ & Hruns & Hd').
  rewrite Hd in Hd'. injection Hd' as ->.
  apply apart_context. by apply (runs_apart lm rm _ _ 0 0 0).
Qed.

Lemma diff_records_apart_example :
  exists cs,
    diff example_split example_strip (text_of_lines ["a"; "b"; "c"; "d"]%string)
      (text_of_lines ["x"; "b"; "y"; "d"]%string) no_options = Ok cs /\
    StronglySorted apart cs.
Proof.
  assert (Hc : exists cs,
             diff example_split example_strip
               (text_of_lines ["a"; "b"; "c"; "d"]%string)
               (text_of_lines ["x"; "b"; "y"; "d"]%string) no_options = Ok cs)
    by (vm_compute; eexists; reflexivity).
  destruct Hc as [cs Hc]. exists cs. split; [done|].
  exact (diff_records_apart example_split example_strip _ _ _ cs Hc).
Defined.

(** X14. All the records of one comparison hold the same two contexts;
    the two contexts use one encoder; each holds as many codes as its
    side has tokens; and a position of a side is marked modified in the
    side's context exactly when a record covers it. *)
Theorem diff_contexts_shared
    (regex_split : string -> string -> list string) (strip : string -> string)
    (lhs rhs : js_text) (options : Options) (cs : list Change) :
  diff regex_split strip lhs rhs options = Ok cs ->
  exists lctx rctx,
    (forall c, c ∈ cs -> lhs_ctx c = Some lctx /\ rhs_ctx c = Some rctx) /\
    encoder lctx = encoder rctx /\
    ctx_length lctx = Z.of_nat (length (tokens regex_split lhs options)) /\
    ctx_length rctx = Z.of_nat (length (tokens regex_split rhs options)) /\
    (forall i, 0 <= i < ctx_length lctx ->
       (marked (_modified lctx) i = true <-> cover_count covers_lhs cs i = 1%nat) /\
       (marked (_modified lctx) i = false <-> cover_count covers_lhs cs i = 0%nat)) /\
    (forall j, 0 <= j < ctx_length rctx ->
       (marked (_modified rctx) j = true <-> cover_count covers_rhs cs j = 1%nat) /\
       (marked (_modified rctx) j = false <-> cover_count covers_rhs cs j = 0%nat)).
Proof.
  intros Hd.
  assert (Hl : lhs <> JUndefined) by (by intros ->).
  assert (Hr : rhs <> JUndefined) by (intros ->; by destruct lhs).
  destruct (diff_run regex_split strip lhs rhs options Hl Hr)
    as (lm & rm & qs & _ & _ & _ & Hruns & Hd').
  rewrite Hd in Hd'. injection Hd' as ->.
  exists (lhs_final regex_split strip lhs rhs options lm),
         (rhs_final regex_split strip lhs rhs options rm).
  split; [|split; [done|split; [|split; [|split]]]].
  - intros c (item & -> & _)%list_elem_of_fmap. done.
  - apply lhs_encoded_length.
  - apply rhs_encoded_length.
  - intros i Hi. rewrite cover_count_lhs_context.
    change (ctx_length (lhs_final regex_split strip lhs rhs options lm))
      with (ctx_length (lhs_encoded regex_split strip lhs options)) in Hi.
    rewrite (runs_cover_lhs lm rm _ _ 0 0 0 qs i) by (done || lia).
    destruct (Z.leb_spec 0 i), (Z.ltb_spec i (ctx_length
                 (lhs_encoded regex_split strip lhs options))); try lia.
    simpl. destruct (marked lm i); split; split; done.
  - intros i Hi. rewrite cover_count_rhs_context.
    change (ctx_length (rhs_final regex_split strip lhs rhs options rm))
      with (ctx_length (rhs_encoded regex_split strip lhs rhs options)) in Hi.
    rewrite (runs_cover_rhs lm rm _ _ 0 0 0 qs i) by (done || lia).
    destruct (Z.leb_spec 0 i), (Z.ltb_spec i (ctx_length
                 (rhs_encoded regex_split strip lhs rhs options))); try lia.
    simpl. destruct (marked rm i); split; split; done.
Qed.

Lemma diff_contexts_shared_example :
  exists cs lctx rctx,
    diff example_split example_strip (text_of_lines ["a"; "b"]%string)
      (text_of_lines ["a"; "c"]%string) no_options = Ok cs /\
    (forall c, c ∈ cs -> lhs_ctx c = Some lctx /\ rhs_ctx c = Some rctx) /\
    encoder lctx = encoder rctx /\ ctx_length lctx = 2 /\ ctx_length rctx = 2.
Proof.
  assert (Hc : exists cs,
             diff example_split example_strip (text_of_lines ["a"; "b"]%string)
               (text_of_lines ["a"; "c"]%string) no_options = Ok cs)
    by (vm_compute; eexists; reflexivity).
  destruct Hc as [cs Hc]. exists cs.
  destruct (diff_contexts_shared example_split example_strip _ _ _ cs Hc)
    as (lctx & rctx & H1 & H2 & H3 & H4 & _).
  exists lctx, rctx. split; [exact Hc|]. split; [exact H1|]. split; [exact H2|].
  split; [rewrite H3|rewrite H4]; vm_compute; reflexivity.
Defined.

(** ** The comparison depends on the interned tokens only *)

(** X15. [diff] depends on its inputs and options only through the
    interned tokens of the two sides: two calls on defined inputs whose
    sides have the same interned tokens, whatever the texts, the
    options and the tokenizer are, return the same list of records,
    contexts included. *)
Theorem diff_depends_on_interned_tokens
    (regex_split regex_split' : string -> string -> list string)
    (strip : string -> string)
    (lhs rhs lhs' rhs' : js_text) (options options' : Options) :
  lhs <> JUndefined -> rhs <> JUndefined ->
  lhs' <> JUndefined -> rhs' <> JUndefined ->
  interned regex_split strip lhs options
  = interned regex_split' strip lhs' options' ->
  interned regex_split strip rhs options
  = interned regex_split' strip rhs' options' ->
  diff regex_split strip lhs rhs options
  = diff regex_split' strip lhs' rhs' options'.
Proof.
  intros Hl Hr Hl' Hr' HL HR.
  rewrite !diff_compare_contexts by done.
  unfold rhs_encoded, lhs_encoded. rewrite !encode_interned.
  by rewrite HL, HR.
Qed.

Lemma diff_depends_on_interned_tokens_example :
  diff example_split example_strip (text_of_lines [" a"; "b"]%string)
    (text_of_lines ["a"; "c "]%string) ignore_whitespace
  = diff example_split example_strip (JString "a b") (JString "a c")
      {| opt_compare := Some "words"%string; opt_ignoreWhitespace := None;
         opt_splitLinesRegex := None; opt_splitWordsRegex := None;
         opt_splitCharsRegex := None |}.
Proof.
  apply (diff_depends_on_interned_tokens example_split example_split example_strip);
    first [discriminate|vm_compute; reflexivity].
Defined.
